(** * Avatar pipeline: face mesh, normals, expressions, skin texture, GLB

    A shallow embedding of the geometry and container code of the avatar
    creator:

    - [src/js/face-detection.js], class [GLBExporter]
      ([createGLBBuffer], [convertToGLB], [validateGLB]);
    - [src/backend/ai/glb-generator.js], class [GLBGenerator]
      ([validateGLB]) and class [ONNXAvatarModel] ([calculateNormals]);
    - [src/js/3d-mesh-generator.js], class [FaceMeshGenerator]
      ([createFaceGeometry], [createFaceIndices],
      [addGeneralFaceTriangulation], [addSkinDetails], [applyExpressions]
      and its four rules).

    JavaScript numbers are IEEE 754 binary64 values; they are modelled by
    [spec_float] with the binary64 operations of the standard library.
    Typed arrays ([Uint8Array], [Float32Array], [Uint8ClampedArray]) are
    lists whose element conversions are written out. Exceptions are an
    explicit completion type. *)

From Stdlib Require Import ZArith Lia SpecFloat.
From Stdlib Require Reals Lra.
From stdpp Require Import base tactics option list strings.

Local Open Scope Z_scope.

(** ** Completions: a JavaScript call returns normally or throws *)

Module JS.

(** Only the [message] of a thrown error is ever observed by the code
    modelled here ([catch (error) { ... error.message ... }]). *)
Inductive completion (A : Type) : Type :=
| Normal (a : A)
| Throw (message : string).
Arguments Normal {A} a.
Arguments Throw {A} message.

Definition bind {A B} (k : A -> completion B) (c : completion A) : completion B :=
  match c with
  | Normal a => k a
  | Throw m => Throw m
  end.

(** [try { body } catch (error) { handler error.message }] *)
Definition try_catch {A} (body : completion A) (handler : string -> completion A)
  : completion A :=
  match body with
  | Normal a => Normal a
  | Throw m => handler m
  end.

End JS.

Import JS.

#[global] Instance completion_bind : MBind completion := @JS.bind.
#[global] Instance completion_ret : MRet completion := @Normal.

(** ** Byte buffers: [ArrayBuffer], [Uint8Array] and [DataView] *)

Module Bytes.

(** A byte is an integer in [0, 256); a buffer is the list of its bytes. *)
Abbreviation buffer := (list Z).

Definition is_byte (b : Z) : Prop := 0 <= b < 256.

(** [new ArrayBuffer(n)] and [new Uint8Array(n)]: [n] zero bytes. *)
Definition alloc (n : nat) : buffer := replicate n 0.

Section Engine.
(** The message of the [RangeError] that the engine throws for an access
    outside a buffer. ECMAScript leaves its text to the engine. *)
Variable range_error_message : string.

(** [target.set(source, offset)] of a typed array: copies [source] into
    [target] from [offset]; a source that does not fit throws. *)
Definition set (target source : buffer) (offset : nat) : completion buffer :=
  if decide (offset + length source <= length target)%nat
  then Normal (take offset target ++ source
                 ++ drop (offset + length source) target)
  else Throw range_error_message.

(** The four bytes of a 32-bit unsigned value, most significant first;
    the value is reduced modulo 2^32 as [ToUint32] does. *)
Definition uint32_bytes_be (value : Z) : buffer :=
  let w := value mod 2 ^ 32 in
  [ (w / 2 ^ 24) mod 256; (w / 2 ^ 16) mod 256; (w / 2 ^ 8) mod 256; w mod 256 ].

(** [view.setUint32(byteOffset, value, false)] *)
Definition setUint32 (buf : buffer) (byteOffset : nat) (value : Z)
  : completion buffer :=
  set buf (uint32_bytes_be value) byteOffset.

(** [view.getUint32(byteOffset, false)] *)
Definition getUint32 (buf : buffer) (byteOffset : nat) : completion Z :=
  match buf !! byteOffset, buf !! (byteOffset + 1)%nat,
        buf !! (byteOffset + 2)%nat, buf !! (byteOffset + 3)%nat with
  | Some b0, Some b1, Some b2, Some b3 =>
      Normal (b0 * 2 ^ 24 + b1 * 2 ^ 16 + b2 * 2 ^ 8 + b3)
  | _, _, _, _ => Throw range_error_message
  end.
End Engine.

End Bytes.

(** ** [GLBExporter] of [src/js/face-detection.js] *)

(** The object returned by both validators: [{ valid, size }] or
    [{ valid, error }]. *)
Record validation := {
  valid : bool;
  size : option nat;
  error : option string
}.

Definition GLB_MAGIC : Z := 0x46546C67.
Definition GLB_VERSION : Z := 2.
Definition CHUNK_JSON : Z := 0x4E4F534A.

Module GLBExporter.
Import Bytes.

(** [this.glbData], as [convertToGLB] builds it. The [format] and [data]
    fields are not read by the code below. *)
Record glbData := { gd_buffer : Bytes.buffer; gd_size : nat }.

Section Engine.
Variable range_error_message : string.

Local Abbreviation set := (Bytes.set range_error_message).
Local Abbreviation setUint32 := (Bytes.setUint32 range_error_message).
Local Abbreviation getUint32 := (Bytes.getUint32 range_error_message).

(** [const jsonPadding = (4 - (jsonBuffer.length % 4)) % 4] *)
Definition jsonPadding (jsonBuffer : Bytes.buffer) : nat :=
  ((4 - (length jsonBuffer mod 4)) mod 4)%nat.

(** [paddedJsonBuffer]: a fresh zeroed array with the JSON bytes copied
    to its start. *)
Definition paddedJsonBuffer (jsonBuffer : Bytes.buffer) : completion Bytes.buffer :=
  set (alloc (length jsonBuffer + jsonPadding jsonBuffer)) jsonBuffer 0.

(** [createGLBBuffer(gltfData)]. Its argument here is [jsonBuffer], the
    UTF-8 bytes of [JSON.stringify(gltfData)]: both [JSON.stringify] and
    [TextEncoder] are built-ins of the engine. *)
Definition createGLBBuffer (jsonBuffer : Bytes.buffer) : completion Bytes.buffer :=
  padded ← paddedJsonBuffer jsonBuffer;
  (* GLB header *)
  h ← setUint32 (alloc 12) 0 GLB_MAGIC;
  h ← setUint32 h 4 GLB_VERSION;
  h ← setUint32 h 8 (12 + Z.of_nat (length padded));
  (* JSON chunk header *)
  c ← setUint32 (alloc 8) 0 (Z.of_nat (length padded));
  c ← setUint32 c 4 CHUNK_JSON;
  (* combine all buffers *)
  let totalLength := (length h + length c + length padded)%nat in
  g ← set (alloc totalLength) h 0;
  g ← set g c (0 + length h);
  g ← set g padded (0 + length h + length c);
  Normal g.

(** [convertToGLB(gltfData)] *)
Definition convertToGLB (jsonBuffer : Bytes.buffer) : completion glbData :=
  glbBuffer ← createGLBBuffer jsonBuffer;
  Normal {| gd_buffer := glbBuffer; gd_size := length glbBuffer |}.

(** [validateGLB()], reading [this.glbData]. *)
Definition validateGLB (this_glbData : option glbData) : completion validation :=
  match this_glbData with
  | None =>
      Normal {| valid := false; size := None;
                error := Some "No GLB data" |}
  | Some d =>
      try_catch
        (let buffer := gd_buffer d in
         magic ← getUint32 buffer 0;
         if negb (magic =? GLB_MAGIC) then
           Normal {| valid := false; size := None;
                     error := Some "Invalid GLB magic number" |}
         else
         version ← getUint32 buffer 4;
         if negb (version =? GLB_VERSION) then
           Normal {| valid := false; size := None;
                     error := Some "Unsupported GLB version" |}
         else
         totalLength ← getUint32 buffer 8;
         if negb (totalLength =? Z.of_nat (length buffer)) then
           Normal {| valid := false; size := None;
                     error := Some "Invalid GLB length" |}
         else
           Normal {| valid := true; size := Some (length buffer);
                     error := None |})
        (fun message =>
           Normal {| valid := false; size := None;
                     error := Some message |})
  end.
End Engine.

End GLBExporter.

(** ** [GLBGenerator] of [src/backend/ai/glb-generator.js] *)

Module GLBGenerator.
Import Bytes.

Section Engine.
Variable range_error_message : string.

Local Abbreviation getUint32 := (Bytes.getUint32 range_error_message).

(** [validateGLB(glbBuffer)] *)
Definition validateGLB (glbBuffer : Bytes.buffer) : completion validation :=
  try_catch
    (magic ← getUint32 glbBuffer 0;
     if negb (magic =? GLB_MAGIC) then
       Normal {| valid := false; size := None;
                 error := Some "Invalid GLB magic number" |}
     else
     version ← getUint32 glbBuffer 4;
     if negb (version =? GLB_VERSION) then
       Normal {| valid := false; size := None;
                 error := Some "Unsupported GLB version" |}
     else
     totalLength ← getUint32 glbBuffer 8;
     if negb (totalLength =? Z.of_nat (length glbBuffer)) then
       Normal {| valid := false; size := None;
                 error := Some "Invalid GLB length" |}
     else
       Normal {| valid := true; size := Some (length glbBuffer);
                 error := None |})
    (fun message =>
       Normal {| valid := false; size := None; error := Some message |}).
End Engine.

End GLBGenerator.

(** ** JavaScript numbers *)

Module Number.

(** A number is a binary64 value in canonical form. *)
Abbreviation number := spec_float.

Definition prec : Z := 53.
Definition emax : Z := 1024.

Definition NaN : number := S754_nan.
Definition zero : number := S754_zero false.

Definition add : number -> number -> number := SFadd prec emax.
Definition sub : number -> number -> number := SFsub prec emax.
Definition mul : number -> number -> number := SFmul prec emax.
Definition div : number -> number -> number := SFdiv prec emax.
Definition neg : number -> number := SFopp.
Definition sqrt : number -> number := SFsqrt prec emax.

(** [a < b] and [a > b]; both are false when an operand is NaN. *)
Definition lt (a b : number) : bool := SFltb a b.
Definition gt (a b : number) : bool := SFltb b a.

(** An integer literal. *)
Definition of_Z (z : Z) : number := binary_normalize prec emax z 0 false.

(** A decimal literal [n / 10^k] with [n] and [10^k] below 2^53: its value
    is the double nearest to the quotient, which is what the correctly
    rounded division of the two exact integers returns. *)
Definition decimal (n : Z) (k : Z) : number := div (of_Z n) (of_Z (10 ^ k)).

(** [ToNumber] of an array element that may be [undefined]. *)
Definition of_element (v : option number) : number := default NaN v.

(** [Math.fround]: the value a [Float32Array] holds after a store, read
    back as a double. *)
Definition fround (x : number) : number :=
  match x with
  | S754_finite s m e =>
      match binary_round 24 128 s m e with
      | S754_finite s' m' e' => binary_round prec emax s' m' e'
      | y => y
      end
  | _ => x
  end.

(** [Math.min] and [Math.max]: NaN if an operand is NaN, and -0 is
    smaller than +0. *)
Definition min (a b : number) : number :=
  match SFcompare a b with
  | None => NaN
  | Some Lt => a
  | Some Gt => b
  | Some Eq =>
      match a, b with
      | S754_zero sa, S754_zero sb => S754_zero (sa || sb)
      | _, _ => a
      end
  end.

Definition max (a b : number) : number :=
  match SFcompare a b with
  | None => NaN
  | Some Lt => b
  | Some Gt => a
  | Some Eq =>
      match a, b with
      | S754_zero sa, S754_zero sb => S754_zero (sa && sb)
      | _, _ => a
      end
  end.

(** Round a positive value [m * 2^e] to the nearest integer, ties to
    even. *)
Definition round_half_even (m e : Z) : Z :=
  if 0 <=? e then m * 2 ^ e
  else
    let d := 2 ^ (- e) in
    let q := m / d in
    let r := m mod d in
    if 2 * r <? d then q
    else if d <? 2 * r then q + 1
    else if Z.even q then q else q + 1.

(** [ToUint8Clamp]: the byte a [Uint8ClampedArray] holds after a store. *)
Definition toUint8Clamp (x : number) : Z :=
  match x with
  | S754_nan => 0
  | S754_zero _ => 0
  | S754_infinity s => if s then 0 else 255
  | S754_finite true _ _ => 0
  | S754_finite false m e => Z.min (round_half_even (Zpos m) e) 255
  end.

End Number.

(** ** [FaceMeshGenerator] of [src/js/3d-mesh-generator.js] *)

Module FaceMeshGenerator.
Import Number.

(** *** Geometry from landmarks *)

(** A landmark [{x, y, z}]; [z] may be missing. *)
Record Landmark := { x : number; y : number; z : option number }.

(** [faceData.landmarks]: one landmark array per view, each optional. *)
Record Views := {
  front : option (list Landmark);
  left : option (list Landmark);
  right : option (list Landmark)
}.

(** The attributes of the [THREE.BufferGeometry] that the generator sets
    itself: [position] and [uv] are [Float32Array]s, [index] the triangle
    list. The [normal] attribute is recomputed by the library's
    [computeVertexNormals] and is not part of this model. *)
Record BufferGeometry := {
  position : list number;
  uv : list number;
  index : list nat
}.

(** [a || b] on values that are either an array (truthy, also when it is
    empty) or [undefined]. *)
Definition or_else {A} (a b : option A) : option A :=
  match a with
  | Some v => Some v
  | None => b
  end.

(** [landmark.z || 0]: a missing, zero or NaN [z] gives [0]. *)
Definition z_or_0 (z : option number) : number :=
  match z with
  | Some (S754_finite s m e) => S754_finite s m e
  | Some (S754_infinity s) => S754_infinity s
  | _ => of_Z 0
  end.

(** The landmark index lists of [faceRegions], in the order of
    [Object.entries]. *)
Definition faceContour : list nat :=
  [10; 338; 297; 332; 284; 251; 389; 356; 454; 323; 361; 288; 397; 365; 379;
   378; 400; 377; 152; 148; 176; 149; 150; 136; 172; 58; 132; 93; 234; 127;
   162; 21; 54; 103; 67; 109]%nat.
Definition leftEyebrow : list nat :=
  [70; 63; 105; 66; 107; 55; 65; 52; 53; 46]%nat.
Definition rightEyebrow : list nat :=
  [296; 334; 293; 300; 276; 283; 282; 295; 285; 336]%nat.
Definition leftEye : list nat :=
  [33; 7; 163; 144; 145; 153; 154; 155; 133; 173; 157; 158; 159; 160; 161;
   246]%nat.
Definition rightEye : list nat :=
  [362; 382; 381; 380; 374; 373; 390; 249; 263; 466; 388; 387; 386; 385;
   384; 398]%nat.
Definition nose : list nat :=
  [1; 2; 5; 4; 6; 19; 20; 94; 125; 141; 235; 236; 3; 51; 48; 115; 131; 134;
   102; 49; 220; 305; 281; 360; 279; 331; 294; 358; 327; 326; 2; 97; 98;
   129]%nat.
Definition mouth : list nat :=
  [61; 84; 17; 314; 405; 320; 307; 375; 321; 308; 324; 318; 13; 82; 81; 80;
   78; 95; 88; 178; 87; 14; 317; 402; 318; 324; 308; 415; 310; 311; 312]%nat.

Definition faceRegions : list (list nat) :=
  [faceContour; leftEyebrow; rightEyebrow; leftEye; rightEye; nose; mouth].

(** [for (i = 1; i < validIndices.length - 1; i++)
      indices.push(validIndices[0], validIndices[i], validIndices[i + 1])],
    walking the indices after the first one. *)
Fixpoint fan_from (v0 : nat) (rest : list nat) : list nat :=
  match rest with
  | a :: (b :: _) as rest' => v0 :: a :: b :: fan_from v0 rest'
  | _ => []
  end.

Definition fan (validIndices : list nat) : list nat :=
  if decide (3 <= length validIndices)%nat then
    match validIndices with
    | v0 :: rest => fan_from v0 rest
    | [] => []
    end
  else [].

Definition region_triangles (n : nat) (regionIndices : list nat) : list nat :=
  fan (filter (fun i => (i < n)%nat) regionIndices).

Definition step : nat := 5.

(** The values taken by a loop variable that starts at [start], advances
    by [step] and runs while it is below [stop]. *)
Fixpoint loop_values (fuel start : nat) (stop : Z) : list nat :=
  match fuel with
  | O => []
  | S fuel' =>
      if Z.of_nat start <? stop
      then start :: loop_values fuel' (start + step) stop
      else []
  end.

(** [Math.sqrt(Math.pow(p.x - q.x, 2) + Math.pow(p.y - q.y, 2))]; the
    square [Math.pow(d, 2)] is the correctly rounded product [d * d]. *)
Definition dist (p q : Landmark) : number :=
  let dx := sub (x p) (x q) in
  let dy := sub (y p) (y q) in
  sqrt (add (mul dx dx) (mul dy dy)).

(** The body of the inner loop of [addGeneralFaceTriangulation] for one
    pair [(i, j)]. Reading a landmark outside the array would throw; the
    guard [k < landmarks.length] excludes it, and the model emits nothing
    there. *)
Definition candidate (landmarks : list Landmark) (i j : nat) : list nat :=
  let k := (j + step)%nat in
  if decide (k < length landmarks)%nat then
    match landmarks !! i, landmarks !! j, landmarks !! k with
    | Some p1, Some p2, Some p3 =>
        let dist12 := dist p1 p2 in
        let dist23 := dist p2 p3 in
        let dist31 := dist p3 p1 in
        if lt dist12 (decimal 2 1) && lt dist23 (decimal 2 1)
           && lt dist31 (decimal 2 1)
        then [i; j; k]
        else []
    | _, _, _ => []
    end
  else [].

(** [addGeneralFaceTriangulation(indices, landmarks)]: the triangles it
    pushes are appended to [indices]. *)
Definition addGeneralFaceTriangulation (indices : list nat)
    (landmarks : list Landmark) : list nat :=
  let n := length landmarks in
  let stop := Z.of_nat n - Z.of_nat step in
  indices ++
    flat_map (fun i =>
      flat_map (fun j => candidate landmarks i j)
               (loop_values n (i + step) stop))
      (loop_values n 0 stop).

(** [createFaceIndices(landmarks)] *)
Definition createFaceIndices (landmarks : list Landmark) : list nat :=
  let indices := flat_map (region_triangles (length landmarks)) faceRegions in
  addGeneralFaceTriangulation indices landmarks.

(** The three coordinates pushed for one landmark. *)
Definition vertex_of (l : Landmark) : list number :=
  [ mul (sub (x l) (decimal 5 1)) (of_Z 2);
    mul (neg (sub (y l) (decimal 5 1))) (of_Z 2);
    z_or_0 (z l) ].

Definition uv_of (l : Landmark) : list number := [ x l; y l ].

(** [createFaceGeometry(faceData)]; [new THREE.Float32BufferAttribute]
    stores each coordinate as a float32. *)
Definition createFaceGeometry (landmarks : Views) : completion BufferGeometry :=
  match or_else (or_else (front landmarks) (left landmarks)) (right landmarks) with
  | None => Throw "No face landmarks available"
  | Some primaryLandmarks =>
      let vertices := flat_map vertex_of primaryLandmarks in
      let uvs := flat_map uv_of primaryLandmarks in
      let indices := createFaceIndices primaryLandmarks in
      Normal {| position := fround <$> vertices;
                uv := fround <$> uvs;
                index := indices |}
  end.

(** [generateFaceMesh(faceData)] leaves the generator with a geometry and
    a mesh that refers to it (the material is not part of this model). *)
Record Generator := { geometry : option BufferGeometry; has_mesh : bool }.

Definition generateFaceMesh (landmarks : Views) : completion Generator :=
  g ← createFaceGeometry landmarks;
  Normal {| geometry := Some g; has_mesh := true |}.

(** *** Expressions *)

Record Expressions := {
  smile : bool;
  frown : bool;
  raisedEyebrows : bool;
  squint : bool
}.

(** [list.forEach(x => body)] on state [s]. *)
Definition forEach {A S} (l : list A) (body : A -> S -> S) (s : S) : S :=
  foldl (fun s a => body a s) s l.

Definition mouthCornerIndices : list nat := [61; 291]%nat.
Definition eyebrowIndices : list nat := leftEyebrow ++ rightEyebrow.
Definition eyeIndices : list nat := leftEye ++ rightEye.

(** [positions] is the geometry's [Float32Array], written in place;
    [originalPositions] is the plain array [[...positions]]. *)
Definition applySmile (positions originalPositions : list number) : list number :=
  forEach mouthCornerIndices (fun index positions =>
    if decide (index * 3 + 1 < length positions)%nat then
      let yIndex := (index * 3 + 1)%nat in
      <[yIndex := fround (add (of_element (originalPositions !! yIndex))
                              (decimal 5 2))]> positions
    else positions) positions.

Definition applyFrown (positions originalPositions : list number) : list number :=
  forEach mouthCornerIndices (fun index positions =>
    if decide (index * 3 + 1 < length positions)%nat then
      let yIndex := (index * 3 + 1)%nat in
      <[yIndex := fround (sub (of_element (originalPositions !! yIndex))
                              (decimal 5 2))]> positions
    else positions) positions.

Definition applyRaisedEyebrows (positions originalPositions : list number)
  : list number :=
  forEach eyebrowIndices (fun index positions =>
    if decide (index * 3 + 1 < length positions)%nat then
      let yIndex := (index * 3 + 1)%nat in
      <[yIndex := fround (add (of_element (originalPositions !! yIndex))
                              (decimal 3 2))]> positions
    else positions) positions.

Definition applySquint (positions originalPositions : list number) : list number :=
  forEach eyeIndices (fun index positions =>
    if decide (index * 3 + 1 < length positions)%nat then
      let yIndex := (index * 3 + 1)%nat in
      <[yIndex := fround (sub (of_element (originalPositions !! yIndex))
                              (decimal 2 2))]> positions
    else positions) positions.

(** The position buffer that one call of [applyExpressions] leaves in the
    geometry, from the buffer it finds there. *)
Definition deform (expressions : Expressions) (positions : list number)
  : list number :=
  let originalPositions := positions in
  let positions :=
    if smile expressions then applySmile positions originalPositions
    else positions in
  let positions :=
    if frown expressions then applyFrown positions originalPositions
    else positions in
  let positions :=
    if raisedEyebrows expressions
    then applyRaisedEyebrows positions originalPositions
    else positions in
  let positions :=
    if squint expressions then applySquint positions originalPositions
    else positions in
  positions.

(** [applyExpressions(expressions)]: the geometry's position array is
    updated in place, so the generator afterwards holds the deformed
    buffer. *)
Definition applyExpressions (expressions : Expressions) (this : Generator)
  : Generator :=
  match has_mesh this, geometry this with
  | true, Some g =>
      {| geometry := Some {| position := deform expressions (position g);
                             uv := uv g;
                             index := index g |};
         has_mesh := true |}
  | _, _ => this
  end.

(** The position buffer currently held by the generator. *)
Definition positions_of (this : Generator) : list number :=
  match geometry this with
  | Some g => position g
  | None => []
  end.

(** *** Skin texture noise *)

Section Random.
(** [random n] is the value returned by the call number [n] of
    [Math.random()]. *)
Variable random : nat -> number.

(** [(Math.random() - 0.5) * 20] *)
Definition noise_of (u : number) : number :=
  mul (sub u (decimal 5 1)) (of_Z 20).

(** [Math.max(0, Math.min(255, data[i] + noise))] stored into the
    [Uint8ClampedArray]. *)
Definition perturb (channel : Z) (noise : number) : Z :=
  toUint8Clamp (max (of_Z 0) (min (of_Z 255) (add (of_Z channel) noise))).

(** The first loop of [addSkinDetails], four bytes at a time; [calls]
    counts the calls of [Math.random()] made so far. A store past the
    end of the array is ignored. *)
Fixpoint noise_pass (calls : nat) (data : list Z) : list Z :=
  match data with
  | r :: g :: b :: a :: rest =>
      let noise := noise_of (random calls) in
      perturb r noise :: perturb g noise :: perturb b noise :: a
        :: noise_pass (S calls) rest
  | [r; g; b] =>
      let noise := noise_of (random calls) in
      [perturb r noise; perturb g noise; perturb b noise]
  | [r; g] =>
      let noise := noise_of (random calls) in
      [perturb r noise; perturb g noise]
  | [r] =>
      let noise := noise_of (random calls) in
      [perturb r noise]
  | [] => []
  end.

(** [addSkinDetails(ctx, skinTone)] on the pixels read from the canvas.
    The hundred gradient rectangles are drawn on the canvas after
    [getImageData] took its copy, and [putImageData] then overwrites the
    whole canvas with that copy: the canvas ends with the bytes of the
    noise loop. *)
Definition addSkinDetails (data : list Z) : list Z := noise_pass 0 data.

(** Follows the specification's words, not the source: independent
    per-channel noise, one draw of [Math.random()] for each of R, G
    and B. *)
Fixpoint noise_pass_per_channel (calls : nat) (data : list Z) : list Z :=
  match data with
  | r :: g :: b :: a :: rest =>
      perturb r (noise_of (random calls))
        :: perturb g (noise_of (random (calls + 1)))
        :: perturb b (noise_of (random (calls + 2)))
        :: a :: noise_pass_per_channel (calls + 3) rest
  | _ => data
  end.
End Random.

End FaceMeshGenerator.

(** ** [ONNXAvatarModel] of [src/backend/ai/glb-generator.js] *)

Module ONNXAvatarModel.
Import Number.

(** A plain array of numbers; an element is a number or [undefined]
    (a hole left by a store past the end). *)
Abbreviation jsarray := (list (option number)).

(** An index is [None] when it was computed from [undefined] and is
    NaN. *)
Definition times3 (f : option nat) : option nat := (fun f => f * 3)%nat <$> f.
Definition plus (i : option nat) (k : nat) : option nat := (fun i => i + k)%nat <$> i.

(** [vertices[i]] as a number. *)
Definition vertex_at (vertices : list number) (i : option nat) : number :=
  match i with
  | Some i => default NaN (vertices !! i)
  | None => NaN
  end.

(** [normals[i]] as a number. *)
Definition read (normals : jsarray) (i : option nat) : number :=
  match i with
  | Some i => of_element (mjoin (normals !! i))
  | None => NaN
  end.

(** [normals[i] = v]: a store past the end grows the array, leaving
    holes; a store at a NaN index sets a property and no element. *)
Definition write (normals : jsarray) (i : option nat) (v : number) : jsarray :=
  match i with
  | Some i =>
      if decide (i < length normals)%nat then <[i := Some v]> normals
      else normals ++ replicate (i - length normals) None ++ [Some v]
  | None => normals
  end.

(** [normals[i] += v] *)
Definition add_assign (normals : jsarray) (i : option nat) (v : number) : jsarray :=
  write normals i (add (read normals i) v).

(** One iteration of the first loop, for the face [(f1, f2, f3)]. *)
Definition accumulate_face (vertices : list number) (normals : jsarray)
    (f1 f2 f3 : option nat) : jsarray :=
  let i1 := times3 f1 in
  let i2 := times3 f2 in
  let i3 := times3 f3 in
  let v1 := (vertex_at vertices i1, vertex_at vertices (plus i1 1),
             vertex_at vertices (plus i1 2)) in
  let v2 := (vertex_at vertices i2, vertex_at vertices (plus i2 1),
             vertex_at vertices (plus i2 2)) in
  let v3 := (vertex_at vertices i3, vertex_at vertices (plus i3 1),
             vertex_at vertices (plus i3 2)) in
  let edge1 := (sub v2.1.1 v1.1.1, sub v2.1.2 v1.1.2, sub v2.2 v1.2) in
  let edge2 := (sub v3.1.1 v1.1.1, sub v3.1.2 v1.1.2, sub v3.2 v1.2) in
  (* cross product *)
  let n0 := sub (mul edge1.1.2 edge2.2) (mul edge1.2 edge2.1.2) in
  let n1 := sub (mul edge1.2 edge2.1.1) (mul edge1.1.1 edge2.2) in
  let n2 := sub (mul edge1.1.1 edge2.1.2) (mul edge1.1.2 edge2.1.1) in
  (* normalize *)
  let length := sqrt (add (add (mul n0 n0) (mul n1 n1)) (mul n2 n2)) in
  let normal :=
    if gt length (of_Z 0)
    then (div n0 length, div n1 length, div n2 length)
    else (n0, n1, n2) in
  (* add to vertex normals *)
  let normals := add_assign normals i1 normal.1.1 in
  let normals := add_assign normals (plus i1 1) normal.1.2 in
  let normals := add_assign normals (plus i1 2) normal.2 in
  let normals := add_assign normals i2 normal.1.1 in
  let normals := add_assign normals (plus i2 1) normal.1.2 in
  let normals := add_assign normals (plus i2 2) normal.2 in
  let normals := add_assign normals i3 normal.1.1 in
  let normals := add_assign normals (plus i3 1) normal.1.2 in
  let normals := add_assign normals (plus i3 2) normal.2 in
  normals.

(** [for (let i = 0; i < faces.length; i += 3) body], three entries of
    [faces] at a time; an entry past the end of [faces] is [undefined]. *)
Fixpoint for_each_face {S : Type}
    (body : S -> option nat -> option nat -> option nat -> S)
    (faces : list nat) (s : S) : S :=
  match faces with
  | f1 :: f2 :: f3 :: rest =>
      for_each_face body rest (body s (Some f1) (Some f2) (Some f3))
  | [f1; f2] => body s (Some f1) (Some f2) None
  | [f1] => body s (Some f1) None None
  | [] => s
  end.

(** The first loop. *)
Definition accumulate (vertices : list number) (faces : list nat)
    (normals : jsarray) : jsarray :=
  for_each_face (accumulate_face vertices) faces normals.

(** One iteration of the second loop on the three entries of a vertex. *)
Definition normalize3 (a b c : option number) : list (option number) :=
  let n0 := of_element a in
  let n1 := of_element b in
  let n2 := of_element c in
  let length := sqrt (add (add (mul n0 n0) (mul n1 n1)) (mul n2 n2)) in
  if gt length (of_Z 0)
  then [Some (div n0 length); Some (div n1 length); Some (div n2 length)]
  else [a; b; c].

(** The second loop. With fewer than three entries left, an entry read
    past the end is [undefined], the length is NaN and nothing is
    stored. *)
Fixpoint normalize_all (normals : jsarray) : jsarray :=
  match normals with
  | a :: b :: c :: rest => normalize3 a b c ++ normalize_all rest
  | _ => normals
  end.

(** [calculateNormals(vertices, faces)] *)
Definition calculateNormals (vertices : list number) (faces : list nat) : jsarray :=
  let normals := replicate (length vertices) (Some (of_Z 0)) in
  normalize_all (accumulate vertices faces normals).

(** *** Mesh from the model's output *)

(** A landmark as [processModelOutput] builds it; a coordinate read past
    the end of the output data is [undefined]. *)
Record Landmark := {
  x : option number;
  y : option number;
  z : option number;
  index : nat
}.

Definition landmarksPerFace : nat := 468.
Definition coordinatesPerLandmark : nat := 3.

(** [processModelOutput(outputData, batchSize)]: one landmark array per
    batch entry. *)
Definition processModelOutput (outputData : list number) (batchSize : nat)
  : list (list Landmark) :=
  (fun batch =>
     (fun i =>
        let baseIndex :=
          (batch * landmarksPerFace * coordinatesPerLandmark
           + i * coordinatesPerLandmark)%nat in
        {| x := outputData !! baseIndex;
           y := outputData !! (baseIndex + 1)%nat;
           z := outputData !! (baseIndex + 2)%nat;
           index := i |})
     <$> seq 0 landmarksPerFace)
  <$> seq 0 batchSize.

(** [for (let i = 0; i < numVertices - 2; i += 3) faces.push(i, i + 1, i + 2)] *)
Fixpoint topology_from (fuel i : nat) (numVertices : Z) : list nat :=
  match fuel with
  | O => []
  | S fuel' =>
      if Z.of_nat i <? numVertices - 2
      then i :: (i + 1)%nat :: (i + 2)%nat
             :: topology_from fuel' (i + 3) numVertices
      else []
  end.

(** [generateFaceTopology(numVertices)] *)
Definition generateFaceTopology (numVertices : nat) : list nat :=
  topology_from numVertices 0 (Z.of_nat numVertices).

(** The mesh object of [generate3DMesh]. *)
Record Mesh := {
  vertices : list (option number);
  faces : list nat;
  uvs : list number;
  normals : jsarray
}.

(** [generate3DMesh(landmarks)]. In [calculateNormals] an [undefined]
    vertex coordinate only ever enters arithmetic, where it is NaN. *)
Definition generate3DMesh (landmarks : list Landmark) : Mesh :=
  let vertices := flat_map (fun landmark => [x landmark; y landmark; z landmark])
                           landmarks in
  let uvs := flat_map (fun landmark =>
               let u := div (add (of_element (x landmark)) (of_Z 1)) (of_Z 2) in
               let v := div (add (of_element (y landmark)) (of_Z 1)) (of_Z 2) in
               [u; v]) landmarks in
  let faces := generateFaceTopology (length landmarks) in
  {| vertices := vertices;
     faces := faces;
     uvs := uvs;
     normals := calculateNormals (of_element <$> vertices) faces |}.

(** *** Input tensor layout *)

(** [reshapeToCHW(imageData, height, width)]: the three nested loops store
    into the zero-filled [Float32Array] one element at a time. *)
Definition reshapeToCHW (imageData : list number) (height width : nat)
  : list number :=
  let channels := 3%nat in
  let totalPixels := (height * width)%nat in
  let reshaped := replicate (channels * totalPixels) (of_Z 0) in
  foldl (fun reshaped c =>
    foldl (fun reshaped h =>
      foldl (fun reshaped w =>
        let hwcIndex := ((h * width + w) * channels + c)%nat in
        let chwIndex := (c * totalPixels + h * width + w)%nat in
        <[chwIndex := fround (of_element (imageData !! hwcIndex))]> reshaped)
        reshaped (seq 0 width))
      reshaped (seq 0 height))
    reshaped (seq 0 channels).

End ONNXAvatarModel.

(** ** [FaceMeshDetector] of [src/js/face-detection.js] *)

Module FaceMeshDetector.

Record Accessories := {
  glasses : bool;
  earrings : bool;
  hat : bool;
  mask : bool
}.

Definition leftEye : list nat :=
  [33; 7; 163; 144; 145; 153; 154; 155; 133; 173; 157; 158; 159; 160; 161;
   246]%nat.
Definition rightEye : list nat :=
  [362; 382; 381; 380; 374; 373; 390; 249; 263; 466; 388; 387; 386; 385;
   384; 398]%nat.

(** [detectAccessories(landmarks)]. The entries of a landmark array are
    objects, so [landmarks[i]] is truthy exactly when the entry exists. *)
Definition detectAccessories {A : Type} (landmarks : list A) : Accessories :=
  let eyeLandmarks :=
    filter (fun i => is_Some (landmarks !! i)) (leftEye ++ rightEye) in
  {| glasses := bool_decide (20 < length eyeLandmarks)%nat;
     earrings := false;
     hat := false;
     mask := false |}.

End FaceMeshDetector.


(** ** Vocabulary of the statements *)

Import Bytes Number.

(** The text of V8's [RangeError] for a [DataView] access out of bounds,
    used where a statement needs one concrete engine. *)
Definition engine_message : string := "Offset is outside the bounds of the DataView".

(** The bytes that [createGLBBuffer] lays out: header, chunk header, JSON
    and padding. *)
Definition glb_layout (json : buffer) : buffer :=
  let padded := json ++ replicate (GLBExporter.jsonPadding json) 0 in
  uint32_bytes_be GLB_MAGIC ++ uint32_bytes_be GLB_VERSION
    ++ uint32_bytes_be (12 + Z.of_nat (length padded))
    ++ uint32_bytes_be (Z.of_nat (length padded))
    ++ uint32_bytes_be CHUNK_JSON
    ++ padded.

(** [{ valid: false, error: message }] *)
Definition invalid (message : string) : validation :=
  {| valid := false; size := None; error := Some message |}.

(** The two shapes a validator's result may take: valid with a size, or
    invalid with a message that is not empty. *)
Definition well_formed_result (r : validation) : Prop :=
  (valid r = true /\ (exists n, size r = Some n) /\ error r = None) \/
  (valid r = false /\ exists message, error r = Some message /\ message <> "").

(** [faceData.landmarks.front || faceData.landmarks.left ||
    faceData.landmarks.right] *)
Definition primary (landmarks : FaceMeshGenerator.Views)
  : option (list FaceMeshGenerator.Landmark) :=
  FaceMeshGenerator.or_else
    (FaceMeshGenerator.or_else (FaceMeshGenerator.front landmarks)
                               (FaceMeshGenerator.left landmarks))
    (FaceMeshGenerator.right landmarks).

(** A landmark at the centre of the image. *)
Definition centre : FaceMeshGenerator.Landmark :=
  {| FaceMeshGenerator.x := decimal 5 1; FaceMeshGenerator.y := decimal 5 1;
     FaceMeshGenerator.z := None |}.

(** Face data whose front view is the empty array. *)
Definition no_landmarks : FaceMeshGenerator.Views :=
  {| FaceMeshGenerator.front := Some []; FaceMeshGenerator.left := None;
     FaceMeshGenerator.right := None |}.

(** The common shape of the four expression rules: for each index of
    [indices] whose Y slot exists, store [op] of the original Y there. *)
Definition move (op : number -> number) (indices : list nat)
    (positions originalPositions : list number) : list number :=
  FaceMeshGenerator.forEach indices (fun index positions =>
    if decide (index * 3 + 1 < length positions)%nat then
      let yIndex := (index * 3 + 1)%nat in
      <[yIndex := fround (op (of_element (originalPositions !! yIndex)))]> positions
    else positions) positions.

Definition y_slots (indices : list nat) : list nat :=
  (fun index => index * 3 + 1)%nat <$> indices.

(** The last two steps of [applyExpressions]: eyebrows, then eyes. *)
Definition upper_face (e : FaceMeshGenerator.Expressions)
    (positions originalPositions : list number) : list number :=
  let positions :=
    if FaceMeshGenerator.raisedEyebrows e
    then FaceMeshGenerator.applyRaisedEyebrows positions originalPositions
    else positions in
  if FaceMeshGenerator.squint e
  then FaceMeshGenerator.applySquint positions originalPositions
  else positions.

(** The same flags with [smile] switched off. *)
Definition without_smile (e : FaceMeshGenerator.Expressions)
  : FaceMeshGenerator.Expressions :=
  {| FaceMeshGenerator.smile := false;
     FaceMeshGenerator.frown := FaceMeshGenerator.frown e;
     FaceMeshGenerator.raisedEyebrows := FaceMeshGenerator.raisedEyebrows e;
     FaceMeshGenerator.squint := FaceMeshGenerator.squint e |}.

(** A generator whose mesh has 468 vertices, all at the origin. *)
Definition rest_pose : FaceMeshGenerator.Generator :=
  {| FaceMeshGenerator.geometry :=
       Some {| FaceMeshGenerator.position := replicate (468 * 3) (of_Z 0);
               FaceMeshGenerator.uv := [];
               FaceMeshGenerator.index := [] |};
     FaceMeshGenerator.has_mesh := true |}.

Definition smile_only : FaceMeshGenerator.Expressions :=
  {| FaceMeshGenerator.smile := true; FaceMeshGenerator.frown := false;
     FaceMeshGenerator.raisedEyebrows := false;
     FaceMeshGenerator.squint := false |}.

Definition smile_and_frown : FaceMeshGenerator.Expressions :=
  {| FaceMeshGenerator.smile := true; FaceMeshGenerator.frown := true;
     FaceMeshGenerator.raisedEyebrows := false;
     FaceMeshGenerator.squint := false |}.

(** A source of random numbers: 0, then 0.9, then 0.5 for ever. *)
Definition draws (n : nat) : number :=
  match n with
  | O => of_Z 0
  | S O => decimal 9 1
  | _ => decimal 5 1
  end.

(** One opaque grey pixel. *)
Definition grey_pixel : list Z := [100; 100; 100; 255].

(** A right triangle in the plane [z = 0] and a fourth vertex that no face
    uses. *)
Definition tri_vertices : list number :=
  [ of_Z 0; of_Z 0; of_Z 0;   of_Z 1; of_Z 0; of_Z 0;
    of_Z 0; of_Z 1; of_Z 0;   of_Z 5; of_Z 5; of_Z 5 ].
Definition tri_faces : list nat := [0; 1; 2]%nat.

(** [kept normals0 k normals]: slot [k] exists in [normals] and still holds
    what it held in [normals0]. *)
Definition kept (normals0 : ONNXAvatarModel.jsarray) (k : nat)
    (normals : ONNXAvatarModel.jsarray) : Prop :=
  normals !! k = normals0 !! k /\ (k < length normals)%nat.

(** [new Array(vertices.length).fill(0)] *)
Definition zeros (vertices : list number) : ONNXAvatarModel.jsarray :=
  replicate (length vertices) (Some (of_Z 0)).

(** The UTF-8 bytes of the JSON text [{}]. *)
Definition empty_object_json : buffer := [123; 125].

(** The four bytes of the magic number and of the version, as stored. *)
Definition magic_bytes : buffer := [0x46; 0x54; 0x6C; 0x67].
Definition version_bytes : buffer := [0; 0; 0; 2].

(** A buffer that is only a header, declaring its own twelve bytes. *)
Definition bare_header : buffer := magic_bytes ++ version_bytes ++ [0; 0; 0; 12].

(** The bare header with one bit of its first byte flipped. *)
Definition flipped_magic : buffer :=
  [0x47; 0x54; 0x6C; 0x67] ++ version_bytes ++ [0; 0; 0; 12].

(** The index list of a list of triangles. *)
Definition flatten_triangles (triangles : list (nat * nat * nat)) : list nat :=
  flat_map (fun t => [t.1.1; t.1.2; t.2]) triangles.

(** An index list cut into triangles, three entries at a time. *)
Fixpoint chunk3 (indices : list nat) : list (nat * nat * nat) :=
  match indices with
  | a :: b :: c :: rest => (a, b, c) :: chunk3 rest
  | _ => []
  end.

(** A triangle whose three vertex indices differ. *)
Definition distinct_vertices (t : nat * nat * nat) : Prop :=
  t.1.1 <> t.1.2 /\ t.1.2 <> t.2 /\ t.1.1 <> t.2.

(** A triangle of the proximity pass over [landmarks]: indices on the
    stride, in increasing order, all three pairs closer than 0.2. *)
Definition proximity_triangle (landmarks : list FaceMeshGenerator.Landmark)
    (t : nat * nat * nat) : Prop :=
  let '(i, j, k) := t in
  (i mod 5 = 0)%nat /\ (j mod 5 = 0)%nat /\ (i < j)%nat /\ k = (j + 5)%nat /\
  (k < length landmarks)%nat /\
  exists p1 p2 p3,
    landmarks !! i = Some p1 /\ landmarks !! j = Some p2 /\
    landmarks !! k = Some p3 /\
    lt (FaceMeshGenerator.dist p1 p2) (decimal 2 1) = true /\
    lt (FaceMeshGenerator.dist p2 p3) (decimal 2 1) = true /\
    lt (FaceMeshGenerator.dist p3 p1) (decimal 2 1) = true.

(** Every expression flag set. *)
Definition all_flags : FaceMeshGenerator.Expressions :=
  {| FaceMeshGenerator.smile := true; FaceMeshGenerator.frown := true;
     FaceMeshGenerator.raisedEyebrows := true;
     FaceMeshGenerator.squint := true |}.

(** Whether a triangle names three different vertices. *)
Definition distinctb (t : nat * nat * nat) : bool :=
  negb (t.1.1 =? t.1.2)%nat && negb (t.1.2 =? t.2)%nat && negb (t.1.1 =? t.2)%nat.

(** The vertices that some expression rule may move. *)
Definition expression_targets : list nat :=
  FaceMeshGenerator.mouthCornerIndices ++ FaceMeshGenerator.eyebrowIndices
    ++ FaceMeshGenerator.eyeIndices.

(** The model's output for one face, every coordinate 0. *)
Definition one_face_output : list number := replicate 1404 (of_Z 0).

(** The loop nest of [reshapeToCHW]: every [(c, h, w)] in loop order, and
    the two indices it computes for each. *)
Definition cells (height width : nat) : list (nat * nat * nat) :=
  c ← seq 0 3; h ← seq 0 height; w ← seq 0 width; [(c, h, w)].
Definition chwIndex (height width : nat) (cell : nat * nat * nat) : nat :=
  (cell.1.1 * (height * width) + cell.1.2 * width + cell.2)%nat.
Definition hwcIndex (width : nat) (cell : nat * nat * nat) : nat :=
  ((cell.1.2 * width + cell.2) * 3 + cell.1.1)%nat.

(** A 1 x 2 image in HWC order: the pixels (10, 20, 30) and (40, 50, 60). *)
Definition two_pixels : list number :=
  of_Z <$> [10; 20; 30; 40; 50; 60].

(** The geometry of [rest_pose], and a second geometry with the same
    positions that also has texture coordinates and one triangle. *)
Definition rest_geometry : FaceMeshGenerator.BufferGeometry :=
  {| FaceMeshGenerator.position := replicate (468 * 3) (of_Z 0);
     FaceMeshGenerator.uv := [];
     FaceMeshGenerator.index := [] |}.
Definition rest_geometry_indexed : FaceMeshGenerator.BufferGeometry :=
  {| FaceMeshGenerator.position := replicate (468 * 3) (of_Z 0);
     FaceMeshGenerator.uv := replicate (468 * 2) (of_Z 0);
     FaceMeshGenerator.index := [0; 1; 2]%nat |}.
Definition rest_pose_indexed : FaceMeshGenerator.Generator :=
  {| FaceMeshGenerator.geometry := Some rest_geometry_indexed;
     FaceMeshGenerator.has_mesh := true |}.

(** *** Exact values

    The real number that a finite double stands for, to state what the
    rounded arithmetic of the normal estimation achieves. *)

Module Exact.
Import Rdefinitions Rfunctions.

(** [m * 2^e] *)
Definition scaled (m e : Z) : R := (IZR m * powerRZ 2 e)%R.

(** The absolute value of a number as a real; 0 for infinities and NaN. *)
Definition magnitude (x : number) : R :=
  match x with
  | S754_finite _ m e => scaled (Zpos m) e
  | _ => 0%R
  end.

(** The value of a number as a real; 0 for infinities and NaN. *)
Definition value (x : number) : R :=
  match x with
  | S754_finite true m e => (- scaled (Zpos m) e)%R
  | S754_finite false m e => scaled (Zpos m) e
  | _ => 0%R
  end.

Definition is_finite (x : number) : bool :=
  match x with
  | S754_zero _ | S754_finite _ _ _ => true
  | _ => false
  end.

Definition is_nonneg (x : number) : bool :=
  match x with
  | S754_zero _ | S754_finite false _ _ => true
  | _ => false
  end.

(** [x] is finite and [|x| < 2^k]: a mantissa of [d] digits at exponent
    [e] stands for a value in [[2^(d+e-1), 2^(d+e))]. *)
Definition below (k : Z) (x : number) : bool :=
  match x with
  | S754_zero _ => true
  | S754_finite _ m e => Zdigits2 (Zpos m) + e <=? k
  | _ => false
  end.

(** [x] is finite and [2^k <= |x|]. *)
Definition at_least (k : Z) (x : number) : bool :=
  match x with
  | S754_finite _ m e => k <? Zdigits2 (Zpos m) + e
  | _ => false
  end.

(** The Euclidean length of the vector of three numbers. *)
Definition euclidean_length (n0 n1 n2 : number) : R :=
  R_sqrt.sqrt (value n0 * value n0 + value n1 * value n1 + value n2 * value n2)%R.

End Exact.

(** One triangle that is tilted against the axes. *)
Definition tilted_vertices : list number :=
  [ of_Z 0; of_Z 0; of_Z 0;   of_Z 1; of_Z 0; of_Z 0;   of_Z 0; of_Z 1; of_Z 1 ].

(** The double nearest to the quotient of 1 by the double nearest to the
    square root of 2. *)
Definition inv_sqrt2 : number := div (of_Z 1) (Number.sqrt (of_Z 2)).

(** A triangle with legs of length 2^-269, listed three times. *)
Definition tiny : number := S754_finite false 4503599627370496 (-321).
Definition tiny_vertices : list number :=
  [ of_Z 0; of_Z 0; of_Z 0;   tiny; of_Z 0; of_Z 0;   of_Z 0; tiny; of_Z 0 ].
Definition tiny_faces : list nat := [0; 1; 2; 0; 1; 2; 0; 1; 2]%nat.

(** * Theorems *)

(** ** The GLB container *)

Section GLB.
Import GLBExporter.

Lemma uint32_be_value v :
  let w := v mod 2 ^ 32 in
  (w / 2 ^ 24) mod 256 * 2 ^ 24 + (w / 2 ^ 16) mod 256 * 2 ^ 16
    + (w / 2 ^ 8) mod 256 * 2 ^ 8 + w mod 256 = w.
Proof.
  intros w. assert (0 <= w < 2 ^ 32) by (apply Z.mod_pos_bound; lia).
  change (2 ^ 24) with 16777216. change (2 ^ 16) with 65536.
  change (2 ^ 8) with 256. change (2 ^ 32) with 4294967296 in *.
  Z.to_euclidean_division_equations. lia.
Qed.

Lemma lookup_app_plus {A} (l1 l2 : list A) k :
  (l1 ++ l2) !! (length l1 + k)%nat = l2 !! k.
Proof. rewrite lookup_app_r by lia. f_equal. lia. Qed.

(** Reading back a field that [setUint32] wrote gives the value modulo
    2^32. *)
Lemma getUint32_at msg (pre post : buffer) v off :
  off = length pre ->
  getUint32 msg (pre ++ uint32_bytes_be v ++ post) off = Normal (v mod 2 ^ 32).
Proof.
  intros ->. unfold getUint32.
  rewrite <- (Nat.add_0_r (length pre)) at 1.
  rewrite !lookup_app_plus.
  cbn [uint32_bytes_be app lookup list_lookup].
  f_equal. apply uint32_be_value.
Qed.

Lemma set_fits msg (target source : buffer) off :
  (off + length source <= length target)%nat ->
  Bytes.set msg target source off
  = Normal (take off target ++ source ++ drop (off + length source) target).
Proof. intros H. unfold Bytes.set. rewrite decide_True by done. done. Qed.

Lemma paddedJsonBuffer_eq msg json :
  paddedJsonBuffer msg json = Normal (json ++ replicate (jsonPadding json) 0).
Proof.
  unfold paddedJsonBuffer, alloc. rewrite set_fits by (rewrite length_replicate; lia).
  rewrite take_0, drop_replicate. cbn [app]. do 3 f_equal. lia.
Qed.

Ltac step_set :=
  rewrite set_fits by (cbn [length replicate Nat.add]; rewrite ?length_replicate; lia);
  cbn [mbind completion_bind JS.bind replicate firstn skipn app length Nat.add];
  rewrite ?drop_0.

(** The encoder never throws, and its output is the layout above. *)
Lemma createGLBBuffer_layout msg json :
  createGLBBuffer msg json = Normal (glb_layout json).
Proof.
  unfold createGLBBuffer, glb_layout.
  rewrite paddedJsonBuffer_eq. cbn [mbind completion_bind JS.bind].
  generalize (json ++ replicate (jsonPadding json) 0). intros padded.
  unfold setUint32, alloc, uint32_bytes_be.
  do 8 step_set.
  rewrite drop_replicate, Nat.sub_diag. cbn [replicate]. rewrite app_nil_r.
  reflexivity.
Qed.

Lemma glb_layout_length json :
  length (glb_layout json) = (20 + (length json + jsonPadding json))%nat.
Proof.
  unfold glb_layout. cbn [length app uint32_bytes_be].
  rewrite length_app, length_replicate. lia.
Qed.

Lemma glb_layout_header json :
  exists chunk : buffer,
    glb_layout json
    = uint32_bytes_be GLB_MAGIC ++ uint32_bytes_be GLB_VERSION
        ++ uint32_bytes_be (12 + Z.of_nat (length json + jsonPadding json)) ++ chunk.
Proof.
  unfold glb_layout. rewrite length_app, length_replicate. eauto.
Qed.

Lemma getUint32_magic msg json :
  getUint32 msg (glb_layout json) 0 = Normal GLB_MAGIC.
Proof.
  destruct (glb_layout_header json) as [chunk ->].
  exact (getUint32_at msg [] _ GLB_MAGIC 0%nat eq_refl).
Qed.

Lemma getUint32_version msg json :
  getUint32 msg (glb_layout json) 4 = Normal GLB_VERSION.
Proof.
  destruct (glb_layout_header json) as [chunk ->].
  rewrite (getUint32_at msg (uint32_bytes_be GLB_MAGIC) _ GLB_VERSION) by reflexivity.
  reflexivity.
Qed.

Lemma getUint32_totalLength msg json :
  getUint32 msg (glb_layout json) 8
  = Normal ((12 + Z.of_nat (length json + jsonPadding json)) mod 2 ^ 32).
Proof.
  destruct (glb_layout_header json) as [chunk ->].
  rewrite (app_assoc (uint32_bytes_be GLB_MAGIC)).
  rewrite (getUint32_at msg (uint32_bytes_be GLB_MAGIC ++ uint32_bytes_be GLB_VERSION))
    by reflexivity.
  reflexivity.
Qed.

(** The length that the header records is never the length of the buffer:
    it leaves out the eight bytes of the chunk header. *)
Lemma recorded_length_differs json :
  (12 + Z.of_nat (length json + jsonPadding json)) mod 2 ^ 32
  <> Z.of_nat (length (glb_layout json)).
Proof.
  rewrite glb_layout_length.
  pose proof (Z.mod_le (12 + Z.of_nat (length json + jsonPadding json)) (2 ^ 32)).
  lia.
Qed.

Lemma uint32_bytes_be_bytes v : Forall is_byte (uint32_bytes_be v).
Proof.
  unfold uint32_bytes_be, is_byte.
  repeat constructor; apply Z.mod_pos_bound; lia.
Qed.

(** The encoder stores bytes: if the JSON text is a list of bytes, so is the
    whole buffer. *)
Lemma glb_layout_bytes json : Forall is_byte json -> Forall is_byte (glb_layout json).
Proof.
  intros Hj. unfold glb_layout.
  repeat (apply Forall_app; split; [apply uint32_bytes_be_bytes|]).
  apply Forall_app. split; [exact Hj|].
  apply Forall_replicate. unfold is_byte. lia.
Qed.

Lemma pad4_aligns (n : nat) :
  ((4 - n mod 4) mod 4 < 4)%nat /\ ((n + (4 - n mod 4) mod 4) mod 4 = 0)%nat.
Proof.
  split; [apply Nat.mod_upper_bound; lia|].
  pose proof (Nat.mod_upper_bound n 4 ltac:(lia)) as Hr.
  pose proof (Nat.div_mod_eq n 4) as Hd.
  remember (n mod 4)%nat as r eqn:Er. remember (n / 4)%nat as q eqn:Eq.
  subst n. clear Er Eq.
  assert (Hk : forall k, ((4 * q + k) mod 4 = k mod 4)%nat).
  { intros k. rewrite Nat.add_comm, Nat.mul_comm. apply Nat.Div0.mod_add. }
  destruct r as [|[|[|[|r]]]]; [| | | |lia];
    cbn [Nat.sub]; rewrite <- Nat.add_assoc, Hk; reflexivity.
Qed.

Lemma jsonPadding_aligns json :
  (jsonPadding json < 4)%nat /\ ((length json + jsonPadding json) mod 4 = 0)%nat.
Proof. apply pad4_aligns. Qed.

(** C1, as the code behaves: whatever JSON is encoded, [createGLBBuffer]
    returns a buffer, and both validators reject that buffer with
    "Invalid GLB length"; no output of the encoder validates. *)
Theorem validateGLB_rejects_createGLBBuffer (msg : string) (json : buffer) :
  exists d,
    convertToGLB msg json = Normal d /\
    GLBExporter.validateGLB msg (Some d) = Normal (invalid "Invalid GLB length") /\
    GLBGenerator.validateGLB msg (gd_buffer d) = Normal (invalid "Invalid GLB length").
Proof.
  unfold convertToGLB. rewrite createGLBBuffer_layout.
  eexists. split; [reflexivity|].
  unfold GLBExporter.validateGLB, GLBGenerator.validateGLB. cbn [gd_buffer].
  rewrite getUint32_magic, getUint32_version, getUint32_totalLength.
  cbn [mbind completion_bind JS.bind try_catch].
  rewrite !Z.eqb_refl. cbn [negb].
  destruct (Z.eqb_spec ((12 + Z.of_nat (length json + jsonPadding json)) mod 2 ^ 32)
              (Z.of_nat (length (glb_layout json)))) as [E|_].
  - destruct (recorded_length_differs json E).
  - split; reflexivity.
Qed.

(** The JSON text [{}] gives a buffer of 24 bytes whose header says 16. *)
Example createGLBBuffer_empty_object :
  createGLBBuffer engine_message [123; 125]
  = Normal [ 0x46; 0x54; 0x6C; 0x67;  0; 0; 0; 2;  0; 0; 0; 16;
             0; 0; 0; 4;  0x4E; 0x4F; 0x53; 0x4A;  123; 125; 0; 0 ].
Proof. vm_compute. reflexivity. Qed.

(** C2, as the code behaves: the field at byte offset 8 holds
    [12 + paddedJsonLength] (modulo 2^32), while the buffer has
    [12 + 8 + paddedJsonLength] bytes; the two never agree. *)
Theorem createGLBBuffer_totalLength_field (msg : string) (json : buffer) :
  let paddedJsonLength := Z.of_nat (length json + jsonPadding json) in
  exists glb,
    createGLBBuffer msg json = Normal glb /\
    Z.of_nat (length glb) = 12 + 8 + paddedJsonLength /\
    getUint32 msg glb 8 = Normal ((12 + paddedJsonLength) mod 2 ^ 32) /\
    (12 + paddedJsonLength) mod 2 ^ 32 <> 12 + 8 + paddedJsonLength.
Proof.
  intros p. exists (glb_layout json). split; [apply createGLBBuffer_layout|].
  split; [rewrite glb_layout_length; subst p; lia|].
  split; [apply getUint32_totalLength|].
  pose proof (recorded_length_differs json) as H.
  rewrite glb_layout_length in H. subst p. lia.
Qed.

(** C8 fails as stated: for the JSON text [{}] two padding bytes are
    appended, at offsets 22 and 23, and both are 0x00, not 0x20. *)
Lemma createGLBBuffer_padding_not_space :
  exists glb,
    createGLBBuffer engine_message [123; 125] = Normal glb /\
    jsonPadding [123; 125] = 2%nat /\
    glb !! 22%nat = Some 0 /\ glb !! 23%nat = Some 0 /\
    glb !! 22%nat <> Some 0x20.
Proof.
  eexists. split; [vm_compute; reflexivity|].
  repeat split; discriminate.
Qed.

(** C8, amended: the buffer is a 20-byte prefix (header and chunk header),
    the JSON bytes, and then fewer than four padding bytes that bring the
    chunk data to a multiple of four; every padding byte is 0x00, and
    nothing follows the JSON chunk. *)
Theorem createGLBBuffer_padding_zero (msg : string) (json : buffer) :
  exists header,
    length header = 20%nat /\
    createGLBBuffer msg json
    = Normal (header ++ json ++ replicate (jsonPadding json) 0) /\
    (jsonPadding json < 4)%nat /\
    ((length json + jsonPadding json) mod 4 = 0)%nat.
Proof.
  exists (take 20 (glb_layout json)).
  split; [reflexivity|]. split; [|apply jsonPadding_aligns].
  rewrite createGLBBuffer_layout. reflexivity.
Qed.

Lemma try_catch_shape msg (body : completion validation) :
  msg <> "" ->
  (forall m, body = Throw m -> m = msg) ->
  (forall r, body = Normal r -> well_formed_result r) ->
  exists r,
    try_catch body (fun message => Normal (invalid message)) = Normal r /\
    well_formed_result r.
Proof.
  intros Hmsg Hthrow Hnormal. destruct body as [r|m]; cbn [try_catch].
  - eauto.
  - rewrite (Hthrow m eq_refl). eexists. split; [reflexivity|].
    right. cbn. eauto.
Qed.

Lemma getUint32_throws msg buf off m :
  getUint32 msg buf off = Throw m -> m = msg.
Proof.
  unfold getUint32. repeat case_match; congruence.
Qed.

Lemma validate_body_shape msg (buf : buffer) :
  msg <> "" ->
  exists r, GLBGenerator.validateGLB msg buf = Normal r /\ well_formed_result r.
Proof.
  intros Hmsg. unfold GLBGenerator.validateGLB.
  apply (try_catch_shape msg); [done| |].
  - intros m.
    destruct (getUint32 msg buf 0) eqn:E0; cbn [mbind completion_bind JS.bind];
      [|intros [= <-]; eapply getUint32_throws; eauto].
    case_match; [discriminate|].
    destruct (getUint32 msg buf 4) eqn:E4; cbn [mbind completion_bind JS.bind];
      [|intros [= <-]; eapply getUint32_throws; eauto].
    case_match; [discriminate|].
    destruct (getUint32 msg buf 8) eqn:E8; cbn [mbind completion_bind JS.bind];
      [|intros [= <-]; eapply getUint32_throws; eauto].
    case_match; discriminate.
  - intros r.
    destruct (getUint32 msg buf 0) eqn:E0; cbn [mbind completion_bind JS.bind];
      [|discriminate].
    case_match; [intros [= <-]; right; cbn; eauto|].
    destruct (getUint32 msg buf 4) eqn:E4; cbn [mbind completion_bind JS.bind];
      [|discriminate].
    case_match; [intros [= <-]; right; cbn; eauto|].
    destruct (getUint32 msg buf 8) eqn:E8; cbn [mbind completion_bind JS.bind];
      [|discriminate].
    case_match; intros [= <-]; [right|left]; cbn; eauto.
Qed.

Lemma exporter_validate_eq msg d :
  GLBExporter.validateGLB msg (Some d) = GLBGenerator.validateGLB msg (gd_buffer d).
Proof. reflexivity. Qed.

(** C10: on an engine whose out-of-bounds error has a message that is not
    empty, both validators return normally on every byte buffer (the
    exporter's also when it holds no GLB data), and the result is either
    valid with a size or invalid with a message that is not empty. *)
Theorem validateGLB_total (msg : string) (Hmsg : msg <> "") :
  (forall glbBuffer : buffer,
     exists r, GLBGenerator.validateGLB msg glbBuffer = Normal r /\
               well_formed_result r) /\
  (forall glbData : option glbData,
     exists r, GLBExporter.validateGLB msg glbData = Normal r /\
               well_formed_result r).
Proof.
  split.
  - intros buf. by apply validate_body_shape.
  - intros [d|].
    + rewrite exporter_validate_eq. by apply validate_body_shape.
    + eexists. split; [reflexivity|]. right. cbn. eauto.
Qed.

(** C10 at V8's message, on a buffer of three bytes and on an exporter
    without data. *)
Lemma validateGLB_total_witness :
  engine_message <> "" /\
  (exists r, GLBGenerator.validateGLB engine_message [103; 108; 84] = Normal r /\
             well_formed_result r) /\
  (exists r, GLBExporter.validateGLB engine_message None = Normal r /\
             well_formed_result r).
Proof.
  assert (H : engine_message <> "") by discriminate.
  split; [exact H|].
  split.
  - apply (proj1 (validateGLB_total engine_message H)).
  - apply (proj2 (validateGLB_total engine_message H)).
Defined.

(** A buffer shorter than the header is reported, not thrown. *)
Example validateGLB_short_buffer :
  GLBGenerator.validateGLB engine_message [103; 108; 84]
  = Normal (invalid engine_message).
Proof. reflexivity. Qed.

End GLB.

(** A buffer that is only a header declaring its own twelve bytes is
    accepted. *)
Example validateGLB_accepts_bare_header :
  GLBGenerator.validateGLB engine_message
    [0x46; 0x54; 0x6C; 0x67;  0; 0; 0; 2;  0; 0; 0; 12]
  = Normal {| valid := true; size := Some 12%nat; error := None |}.
Proof. reflexivity. Qed.

(** ** The face mesh *)

Section Mesh.
Import FaceMeshGenerator.

Section Triangulation.
Variable n : nat.
Let below (i : nat) : Prop := (i < n)%nat.

Lemma fan_from_below v0 rest :
  below v0 -> Forall below rest -> Forall below (fan_from v0 rest).
Proof.
  intros Hv. induction rest as [|a [|b rest'] IH]; intros H; cbn [fan_from]; auto.
  inversion H as [|? ? Ha Hr]; subst. inversion Hr as [|? ? Hb _]; subst.
  repeat constructor; auto.
Qed.

Lemma fan_below validIndices :
  Forall below validIndices -> Forall below (fan validIndices).
Proof.
  intros H. unfold fan. case_decide; [|constructor].
  destruct H as [|v0 rest Hv Hr]; [constructor|]. by apply fan_from_below.
Qed.

(** First pass: the filter keeps only indices below [n]. *)
Lemma region_triangles_below regionIndices :
  Forall below (region_triangles n regionIndices).
Proof.
  apply fan_below, Forall_forall. intros i Hi.
  apply list_elem_of_filter in Hi. apply Hi.
Qed.

Lemma loop_values_below fuel start stop :
  Forall (fun i => Z.of_nat i < stop) (loop_values fuel start stop).
Proof.
  revert start. induction fuel as [|fuel IH]; intros start; cbn [loop_values].
  - constructor.
  - destruct (Z.ltb_spec (Z.of_nat start) stop); constructor; auto.
Qed.

(** Second pass: [i] and [j] stop short of [n - step], and [k] is
    guarded. *)
Lemma candidate_below (landmarks : list Landmark) i j :
  length landmarks = n -> below i -> below j ->
  Forall below (candidate landmarks i j).
Proof.
  intros Hn Hi Hj. unfold candidate. case_decide as Hk; [|constructor].
  repeat case_match; repeat constructor; auto. unfold below. lia.
Qed.

Lemma createFaceIndices_below (landmarks : list Landmark) :
  length landmarks = n -> Forall below (createFaceIndices landmarks).
Proof.
  intros Hn. unfold createFaceIndices, addGeneralFaceTriangulation.
  rewrite Hn. apply Forall_app. split.
  - apply Forall_flat_map, Forall_forall. intros r _.
    apply region_triangles_below.
  - apply Forall_flat_map, Forall_forall. intros i Hi.
    apply Forall_flat_map, Forall_forall. intros j Hj.
    pose proof (loop_values_below n 0 (Z.of_nat n - Z.of_nat step)) as Bi.
    pose proof (loop_values_below n (i + step) (Z.of_nat n - Z.of_nat step)) as Bj.
    rewrite Forall_forall in Bi, Bj. specialize (Bi i Hi). specialize (Bj j Hj).
    apply candidate_below; unfold below; [done|lia|lia].
Qed.
End Triangulation.

(** The fuel given to [loop_values] never cuts a loop short: every value
    [start + q * step] below [stop] is produced. *)
Lemma loop_values_fuel fuel start stop :
  stop <= Z.of_nat start + Z.of_nat fuel ->
  forall q : nat,
    Z.of_nat (start + q * step) < stop ->
    (start + q * step)%nat ∈ loop_values fuel start stop.
Proof.
  revert start. induction fuel as [|fuel IH]; intros start Hf q Hq.
  - unfold step in *. lia.
  - cbn [loop_values]. destruct (Z.ltb_spec (Z.of_nat start) stop) as [Hlt|Hge].
    + destruct q as [|q].
      * rewrite Nat.mul_0_l, Nat.add_0_r. left.
      * right. replace (start + S q * step)%nat with (start + step + q * step)%nat by lia.
        apply IH; unfold step in *; lia.
    + unfold step in *. lia.
Qed.

Lemma position_length (landmarks : list Landmark) :
  length (fround <$> flat_map vertex_of landmarks) = (length landmarks * 3)%nat.
Proof.
  rewrite length_fmap. induction landmarks as [|l ls IH]; cbn; [done|].
  rewrite IH. lia.
Qed.

(** C6: when the landmark array used has exactly 468 entries, the
    geometry is built, its position buffer has 468 * 3 entries, and every
    index emitted by the region fans and by the proximity pass is below
    468. *)
Theorem createFaceGeometry_468 (views : Views) (landmarks : list Landmark) :
  primary views = Some landmarks ->
  length landmarks = 468%nat ->
  exists g,
    createFaceGeometry views = Normal g /\
    length (position g) = (468 * 3)%nat /\
    Forall (fun i => (i < 468)%nat) (index g).
Proof.
  intros Hp Hn. unfold createFaceGeometry. unfold primary in Hp. rewrite Hp.
  eexists. split; [reflexivity|]. cbn [position index]. split.
  - rewrite position_length, Hn. reflexivity.
  - by apply createFaceIndices_below.
Qed.

(** C6 on a front view of 468 landmarks at the centre of the image. *)
Lemma createFaceGeometry_468_witness :
  (primary {| front := Some (replicate 468 centre); left := None; right := None |}
   = Some (replicate 468 centre) /\
   length (replicate 468 centre) = 468%nat) /\
  exists g,
    createFaceGeometry {| front := Some (replicate 468 centre); left := None;
                          right := None |} = Normal g /\
    length (position g) = (468 * 3)%nat /\
    Forall (fun i => (i < 468)%nat) (index g).
Proof.
  split; [split; reflexivity|].
  apply (createFaceGeometry_468 _ (replicate 468 centre)); reflexivity.
Defined.

(** Sixteen coincident landmarks: five fan triangles from the nose region,
    then the three proximity triangles. *)
Example createFaceIndices_16 :
  createFaceIndices (replicate 16 centre)
  = [1; 2; 5; 1; 5; 4; 1; 4; 6; 1; 6; 3; 1; 3; 2;
     0; 5; 10; 0; 10; 15; 5; 10; 15]%nat.
Proof. vm_compute. reflexivity. Qed.

(** C5, as the code behaves: an empty landmark array passes the guard
    [!primaryLandmarks]; nothing is thrown, and the generator ends with a
    mesh of no vertices and no triangles. *)
Theorem createFaceGeometry_empty_returns :
  createFaceGeometry no_landmarks
  = Normal {| position := []; uv := []; index := [] |} /\
  generateFaceMesh no_landmarks
  = Normal {| geometry := Some {| position := []; uv := []; index := [] |};
              has_mesh := true |}.
Proof. split; reflexivity. Qed.

(** The guard does throw when no view is present at all. *)
Example createFaceGeometry_no_view :
  createFaceGeometry {| front := None; left := None; right := None |}
  = Throw "No face landmarks available".
Proof. reflexivity. Qed.

End Mesh.

(** ** Expressions *)

Section Expression.
Import FaceMeshGenerator.

Lemma applySmile_move p o :
  applySmile p o = move (fun v => add v (decimal 5 2)) mouthCornerIndices p o.
Proof. unfold applySmile, move. reflexivity. Qed.
Lemma applyFrown_move p o :
  applyFrown p o = move (fun v => sub v (decimal 5 2)) mouthCornerIndices p o.
Proof. unfold applyFrown, move. reflexivity. Qed.
Lemma applyRaisedEyebrows_move p o :
  applyRaisedEyebrows p o = move (fun v => add v (decimal 3 2)) eyebrowIndices p o.
Proof. unfold applyRaisedEyebrows, move. reflexivity. Qed.
Lemma applySquint_move p o :
  applySquint p o = move (fun v => sub v (decimal 2 2)) eyeIndices p o.
Proof. unfold applySquint, move. reflexivity. Qed.

Section Move.
Variable op : number -> number.
Variable o : list number.

Lemma move_cons index indices p :
  move op (index :: indices) p o
  = move op indices
      (if decide (index * 3 + 1 < length p)%nat
       then <[(index * 3 + 1)%nat := fround (op (of_element (o !! (index * 3 + 1)%nat)))]> p
       else p) o.
Proof. reflexivity. Qed.

Lemma move_length indices p : length (move op indices p o) = length p.
Proof.
  revert p. induction indices as [|i rest IH]; intros p; [done|].
  rewrite move_cons, IH.
  destruct (decide (i * 3 + 1 < length p)%nat); [apply length_insert|done].
Qed.

(** What a rule leaves in slot [k]. *)
Lemma move_lookup indices p k :
  move op indices p o !! k
  = if bool_decide (k ∈ y_slots indices) && bool_decide (k < length p)%nat
    then Some (fround (op (of_element (o !! k))))
    else p !! k.
Proof.
  revert p. induction indices as [|i rest IH]; intros p.
  - cbn [y_slots fmap list_fmap].
    rewrite bool_decide_eq_false_2 by (apply not_elem_of_nil). done.
  - rewrite move_cons, IH.
    set (p' := if decide _ then _ else p).
    assert (Hlen : length p' = length p).
    { subst p'. destruct (decide (i * 3 + 1 < length p)%nat);
        [apply length_insert|done]. }
    assert (Hk : p' !! k
                 = if bool_decide (k = i * 3 + 1)%nat && bool_decide (k < length p)%nat
                   then Some (fround (op (of_element (o !! k))))
                   else p !! k).
    { subst p'. destruct (decide (i * 3 + 1 < length p)%nat);
        repeat case_bool_decide; cbn [andb]; subst; try done.
      all: first [by apply list_lookup_insert_eq | by apply list_lookup_insert_ne]. }
    rewrite Hlen, Hk. clear Hk Hlen p'.
    assert (Hcons : k ∈ y_slots (i :: rest)
                    <-> k = (i * 3 + 1)%nat \/ k ∈ y_slots rest).
    { unfold y_slots. rewrite fmap_cons. apply elem_of_cons. }
    repeat case_bool_decide; cbn [andb]; try done; tauto.
Qed.
End Move.

(** A rule applied after another rule on the same slots, both reading the
    same originals, erases the first one. *)
Lemma move_overwrites op1 op2 indices p o :
  move op2 indices (move op1 indices p o) o = move op2 indices p o.
Proof.
  apply list_eq. intros k. rewrite !move_lookup, move_length.
  by destruct (bool_decide (k ∈ y_slots indices) && bool_decide (k < length p)%nat).
Qed.

Lemma applyFrown_overwrites_applySmile p o :
  applyFrown (applySmile p o) o = applyFrown p o.
Proof. rewrite applySmile_move, !applyFrown_move. apply move_overwrites. Qed.

(** The eyebrow and eye rules leave the mouth corners alone. *)
Lemma mouth_not_eyebrow index :
  index ∈ mouthCornerIndices ->
  bool_decide ((index * 3 + 1)%nat ∈ y_slots eyebrowIndices) = false /\
  bool_decide ((index * 3 + 1)%nat ∈ y_slots eyeIndices) = false /\
  bool_decide ((index * 3 + 1)%nat ∈ y_slots mouthCornerIndices) = true.
Proof.
  unfold mouthCornerIndices. rewrite !elem_of_cons, elem_of_nil.
  intros [->|[->|[]]]; vm_compute; auto.
Qed.

Lemma upper_face_keeps_mouth (e : Expressions) (p o : list number) index :
  index ∈ mouthCornerIndices ->
  upper_face e p o !! (index * 3 + 1)%nat = p !! (index * 3 + 1)%nat.
Proof.
  intros Hi. destruct (mouth_not_eyebrow index Hi) as (Hb & He & _).
  unfold upper_face. destruct (squint e), (raisedEyebrows e).
  - rewrite applySquint_move, move_lookup, He. cbn [andb].
    rewrite applyRaisedEyebrows_move, move_lookup, Hb. reflexivity.
  - rewrite applySquint_move, move_lookup, He. reflexivity.
  - rewrite applyRaisedEyebrows_move, move_lookup, Hb. reflexivity.
  - reflexivity.
Qed.

(** [deform] is the mouth rules followed by the upper-face rules. *)
Lemma deform_steps (e : Expressions) (p : list number) :
  deform e p
  = upper_face e
      (let p1 := if smile e then applySmile p p else p in
       if frown e then applyFrown p1 p else p1) p.
Proof. unfold deform, upper_face. reflexivity. Qed.

Lemma deform_frown_erases_smile (e : Expressions) (p : list number) :
  frown e = true -> deform e p = deform (without_smile e) p.
Proof.
  intros Hf. rewrite !deform_steps. unfold without_smile, upper_face.
  cbn [smile frown raisedEyebrows squint].
  rewrite Hf. destruct (smile e); [|reflexivity].
  rewrite applyFrown_overwrites_applySmile. reflexivity.
Qed.

Lemma deform_frown_mouth (e : Expressions) (p : list number) index v :
  frown e = true ->
  index ∈ mouthCornerIndices ->
  p !! (index * 3 + 1)%nat = Some v ->
  deform e p !! (index * 3 + 1)%nat = Some (fround (sub v (decimal 5 2))).
Proof.
  intros Hf Hi Hv. rewrite deform_frown_erases_smile by done.
  rewrite deform_steps, upper_face_keeps_mouth by done.
  unfold without_smile. cbn [smile frown]. rewrite Hf.
  destruct (mouth_not_eyebrow index Hi) as (_ & _ & Hm).
  rewrite applyFrown_move, move_lookup, Hm, Hv.
  rewrite bool_decide_eq_true_2 by (eapply lookup_lt_Some; eauto).
  reflexivity.
Qed.

Lemma deform_smile_mouth (e : Expressions) (p : list number) index v :
  smile e = true -> frown e = false ->
  index ∈ mouthCornerIndices ->
  p !! (index * 3 + 1)%nat = Some v ->
  deform e p !! (index * 3 + 1)%nat = Some (fround (add v (decimal 5 2))).
Proof.
  intros Hs Hf Hi Hv.
  rewrite deform_steps, upper_face_keeps_mouth by done.
  rewrite Hs, Hf.
  destruct (mouth_not_eyebrow index Hi) as (_ & _ & Hm).
  rewrite applySmile_move, move_lookup, Hm, Hv.
  rewrite bool_decide_eq_true_2 by (eapply lookup_lt_Some; eauto).
  reflexivity.
Qed.

Lemma positions_of_applyExpressions e this g :
  has_mesh this = true -> geometry this = Some g ->
  positions_of (applyExpressions e this) = deform e (position g).
Proof. intros Hm Hg. unfold applyExpressions, positions_of. rewrite Hm, Hg. done. Qed.

Lemma applyExpressions_keeps_mesh e this g :
  has_mesh this = true -> geometry this = Some g ->
  has_mesh (applyExpressions e this) = true /\
  exists g', geometry (applyExpressions e this) = Some g' /\
             position g' = deform e (position g).
Proof. intros Hm Hg. unfold applyExpressions. rewrite Hm, Hg. cbn. eauto. Qed.

(** C4, amended: with [smile] and [frown] both set, the frown rule
    overwrites what the smile rule stored, since both store the original Y
    plus their own offset. The buffer is the one that [frown] alone gives,
    and the Y of mouth corners 61 and 291 is the float32 of the original Y
    minus 0.05. *)
Theorem smile_and_frown_is_frown
    (e : Expressions) (this : Generator) (g : BufferGeometry)
    (index : nat) (v : number) :
  smile e = true -> frown e = true ->
  has_mesh this = true -> geometry this = Some g ->
  index ∈ mouthCornerIndices ->
  position g !! (index * 3 + 1)%nat = Some v ->
  positions_of (applyExpressions e this)
  = positions_of (applyExpressions (without_smile e) this) /\
  positions_of (applyExpressions e this) !! (index * 3 + 1)%nat
  = Some (fround (sub v (decimal 5 2))).
Proof.
  intros Hs Hf Hm Hg Hi Hv.
  rewrite !(positions_of_applyExpressions _ this g) by done. split.
  - by apply deform_frown_erases_smile.
  - by apply deform_frown_mouth.
Qed.

(** C4, amended, on the rest pose at mouth corner 61. *)
Lemma smile_and_frown_is_frown_witness :
  (smile smile_and_frown = true /\ frown smile_and_frown = true /\
   has_mesh rest_pose = true /\
   61%nat ∈ mouthCornerIndices /\
   positions_of rest_pose !! (61 * 3 + 1)%nat = Some (of_Z 0)) /\
  positions_of (applyExpressions smile_and_frown rest_pose)
  = positions_of (applyExpressions (without_smile smile_and_frown) rest_pose) /\
  positions_of (applyExpressions smile_and_frown rest_pose) !! (61 * 3 + 1)%nat
  = Some (fround (sub (of_Z 0) (decimal 5 2))).
Proof.
  assert (Hi : 61%nat ∈ mouthCornerIndices) by apply list_elem_of_here.
  split; [repeat split; first [exact Hi|reflexivity]|].
  apply (smile_and_frown_is_frown smile_and_frown rest_pose
           {| position := replicate (468 * 3) (of_Z 0); uv := []; index := [] |}
           61%nat (of_Z 0));
    first [exact Hi|reflexivity].
Defined.

(** C4 fails as stated: on the rest pose, with both flags set, the Y of
    mouth corner 61 ends at the float32 nearest to -0.05, while the base
    holds 0; the net offset is not 0. *)
Lemma smile_and_frown_net_offset_nonzero :
  positions_of (applyExpressions smile_and_frown rest_pose) !! (61 * 3 + 1)%nat
  = Some (S754_finite true 7205759511166976 (-57)) /\
  positions_of rest_pose !! (61 * 3 + 1)%nat = Some (S754_zero false) /\
  positions_of (applyExpressions smile_and_frown rest_pose) !! (61 * 3 + 1)%nat
  <> positions_of rest_pose !! (61 * 3 + 1)%nat.
Proof.
  assert (H1 : positions_of (applyExpressions smile_and_frown rest_pose)
               !! (61 * 3 + 1)%nat
               = Some (S754_finite true 7205759511166976 (-57)))
    by (vm_compute; reflexivity).
  assert (H2 : positions_of rest_pose !! (61 * 3 + 1)%nat = Some (S754_zero false))
    by (vm_compute; reflexivity).
  rewrite H1, H2. repeat split; discriminate.
Qed.

(** C3, amended: the buffer that a call leaves depends only on the flags
    and on the position buffer the generator holds when it is called, so
    for every choice of flags two generators holding equal buffers end
    with equal buffers, whatever else they hold. The call stores its
    result in the generator's own buffer: with [smile] set (and [frown]
    not), the Y of a mouth corner is the float32 of the original Y plus
    0.05 after one call, and a second call on the same generator adds 0.05
    to that stored value again. *)
Theorem applyExpressions_in_place
    (e : Expressions) (this other : Generator) (g g' : BufferGeometry)
    (index : nat) (v : number) :
  has_mesh this = true -> geometry this = Some g ->
  has_mesh other = true -> geometry other = Some g' ->
  position g = position g' ->
  positions_of (applyExpressions e this) = positions_of (applyExpressions e other) /\
  (smile e = true -> frown e = false ->
   index ∈ mouthCornerIndices ->
   position g !! (index * 3 + 1)%nat = Some v ->
   positions_of (applyExpressions e this) !! (index * 3 + 1)%nat
   = Some (fround (add v (decimal 5 2))) /\
   positions_of (applyExpressions e (applyExpressions e this)) !! (index * 3 + 1)%nat
   = Some (fround (add (fround (add v (decimal 5 2))) (decimal 5 2)))).
Proof.
  intros Hm Hg Hm' Hg' Hpos.
  destruct (applyExpressions_keeps_mesh e this g Hm Hg) as (Hm1 & g1 & Hg1 & Hp1).
  rewrite (positions_of_applyExpressions e this g),
    (positions_of_applyExpressions e other g'),
    (positions_of_applyExpressions e _ g1) by done.
  split; [by rewrite Hpos|]. intros Hs Hf Hi Hv.
  assert (H1 : deform e (position g) !! (index * 3 + 1)%nat
               = Some (fround (add v (decimal 5 2))))
    by (by apply deform_smile_mouth).
  split; [exact H1|].
  rewrite Hp1. by apply deform_smile_mouth.
Qed.

(** C3, amended, on two generators that hold the rest pose and differ in
    their texture coordinates and index list, at mouth corner 61. *)
Lemma applyExpressions_in_place_witness :
  (has_mesh rest_pose = true /\
   geometry rest_pose = Some rest_geometry /\
   has_mesh rest_pose_indexed = true /\
   geometry rest_pose_indexed = Some rest_geometry_indexed /\
   position rest_geometry = position rest_geometry_indexed /\
   rest_pose <> rest_pose_indexed /\
   smile smile_only = true /\ frown smile_only = false /\
   61%nat ∈ mouthCornerIndices /\
   position rest_geometry !! (61 * 3 + 1)%nat = Some (of_Z 0)) /\
  positions_of (applyExpressions smile_only rest_pose)
  = positions_of (applyExpressions smile_only rest_pose_indexed) /\
  positions_of (applyExpressions smile_only rest_pose) !! (61 * 3 + 1)%nat
  = Some (fround (add (of_Z 0) (decimal 5 2))) /\
  positions_of (applyExpressions smile_only (applyExpressions smile_only rest_pose))
    !! (61 * 3 + 1)%nat
  = Some (fround (add (fround (add (of_Z 0) (decimal 5 2))) (decimal 5 2))).
Proof.
  assert (Hi : 61%nat ∈ mouthCornerIndices) by apply list_elem_of_here.
  assert (Hne : rest_pose <> rest_pose_indexed) by discriminate.
  split; [repeat split; first [exact Hi|exact Hne|reflexivity]|].
  destruct (applyExpressions_in_place smile_only rest_pose rest_pose_indexed
              rest_geometry rest_geometry_indexed 61%nat (of_Z 0)
              eq_refl eq_refl eq_refl eq_refl eq_refl) as [Hsame Hmouth].
  split; [exact Hsame|].
  apply Hmouth; first [exact Hi|reflexivity].
Defined.

(** C3 fails as stated: on the rest pose with [smile] alone, the first
    call leaves the float32 nearest to 0.05 in the Y of mouth corner 61
    and the second call leaves the float32 nearest to 0.1; the second
    result differs from the first, and the buffer the generator held
    before the first call has been overwritten. *)
Lemma applyExpressions_twice_differs :
  positions_of (applyExpressions smile_only rest_pose) !! (61 * 3 + 1)%nat
  = Some (S754_finite false 7205759511166976 (-57)) /\
  positions_of (applyExpressions smile_only (applyExpressions smile_only rest_pose))
    !! (61 * 3 + 1)%nat
  = Some (S754_finite false 7205759511166976 (-56)) /\
  positions_of (applyExpressions smile_only (applyExpressions smile_only rest_pose))
  <> positions_of (applyExpressions smile_only rest_pose) /\
  positions_of (applyExpressions smile_only rest_pose) <> positions_of rest_pose.
Proof.
  assert (H1 : positions_of (applyExpressions smile_only rest_pose)
               !! (61 * 3 + 1)%nat
               = Some (S754_finite false 7205759511166976 (-57)))
    by (vm_compute; reflexivity).
  assert (H2 : positions_of (applyExpressions smile_only
                               (applyExpressions smile_only rest_pose))
               !! (61 * 3 + 1)%nat
               = Some (S754_finite false 7205759511166976 (-56)))
    by (vm_compute; reflexivity).
  assert (H0 : positions_of rest_pose !! (61 * 3 + 1)%nat = Some (S754_zero false))
    by (vm_compute; reflexivity).
  split; [exact H1|]. split; [exact H2|]. split.
  - intros E. rewrite E in H2. clear E. rewrite H1 in H2. discriminate H2.
  - intros E. rewrite E in H1. clear E. rewrite H0 in H1. discriminate H1.
Qed.

End Expression.

(** ** Skin texture noise *)

Section Skin.
Import FaceMeshGenerator.

Lemma round_half_even_nonneg m e : 0 <= m -> 0 <= round_half_even m e.
Proof.
  intros Hm. unfold round_half_even.
  destruct (Z.leb_spec 0 e).
  - apply Z.mul_nonneg_nonneg; [done|]. apply Z.pow_nonneg. lia.
  - assert (0 < 2 ^ (- e)) by (apply Z.pow_pos_nonneg; lia).
    assert (0 <= m / 2 ^ (- e)) by (apply Z.div_pos; lia).
    repeat case_match; lia.
Qed.

Lemma toUint8Clamp_byte x : 0 <= toUint8Clamp x <= 255.
Proof.
  destruct x as [s|[]| |[] m e]; cbn [toUint8Clamp]; try lia.
  pose proof (round_half_even_nonneg (Z.pos m) e ltac:(lia)). lia.
Qed.

Section Noise.
Variable random : nat -> number.

Lemma noise_pass_pixel (i : nat) : forall (calls : nat) (data : list Z) (r g b a : Z),
  data !! (4 * i)%nat = Some r ->
  data !! (4 * i + 1)%nat = Some g ->
  data !! (4 * i + 2)%nat = Some b ->
  data !! (4 * i + 3)%nat = Some a ->
  let noise := noise_of (random (calls + i)) in
  noise_pass random calls data !! (4 * i)%nat = Some (perturb r noise) /\
  noise_pass random calls data !! (4 * i + 1)%nat = Some (perturb g noise) /\
  noise_pass random calls data !! (4 * i + 2)%nat = Some (perturb b noise) /\
  noise_pass random calls data !! (4 * i + 3)%nat = Some a.
Proof.
  induction i as [|i IH]; intros calls data r g b a Hr Hg Hb Ha.
  - destruct data as [|r' [|g' [|b' [|a' rest]]]]; try discriminate.
    cbn in Hr, Hg, Hb, Ha. simplify_eq. rewrite Nat.add_0_r.
    cbn [noise_pass]. repeat split; reflexivity.
  - replace (4 * S i)%nat with (S (S (S (S (4 * i))))) in * by lia.
    destruct data as [|r' [|g' [|b' [|a' rest]]]];
      cbn [lookup list_lookup Nat.add] in *; try discriminate.
    cbn [noise_pass lookup list_lookup].
    replace (calls + S i)%nat with (S calls + i)%nat by lia.
    exact (IH (S calls) rest r g b a Hr Hg Hb Ha).
Qed.
End Noise.

(** C9, amended: for each pixel one value of [Math.random()] is drawn
    (the draw whose number is the pixel's), and the single noise value
    [(draw - 0.5) * 20] is added to R, G and B alike; each result is
    clamped and stored as a byte in [0, 255], and alpha is left as it
    is. *)
Theorem addSkinDetails_shared_noise
    (random : nat -> number) (data : list Z) (i : nat) (r g b a : Z) :
  data !! (4 * i)%nat = Some r ->
  data !! (4 * i + 1)%nat = Some g ->
  data !! (4 * i + 2)%nat = Some b ->
  data !! (4 * i + 3)%nat = Some a ->
  let noise := noise_of (random i) in
  let out := addSkinDetails random data in
  out !! (4 * i)%nat = Some (perturb r noise) /\
  out !! (4 * i + 1)%nat = Some (perturb g noise) /\
  out !! (4 * i + 2)%nat = Some (perturb b noise) /\
  out !! (4 * i + 3)%nat = Some a /\
  0 <= perturb r noise <= 255 /\
  0 <= perturb g noise <= 255 /\
  0 <= perturb b noise <= 255.
Proof.
  intros Hr Hg Hb Ha noise out.
  destruct (noise_pass_pixel random i 0 data r g b a Hr Hg Hb Ha) as (H0 & H1 & H2 & H3).
  repeat split; try assumption; apply toUint8Clamp_byte.
Qed.

(** C9, amended, on one grey pixel with the draws 0, 0.9, 0.5, ... *)
Lemma addSkinDetails_shared_noise_witness :
  (grey_pixel !! (4 * 0)%nat = Some 100 /\
   grey_pixel !! (4 * 0 + 1)%nat = Some 100 /\
   grey_pixel !! (4 * 0 + 2)%nat = Some 100 /\
   grey_pixel !! (4 * 0 + 3)%nat = Some 255) /\
  let noise := noise_of (draws 0) in
  let out := addSkinDetails draws grey_pixel in
  out !! (4 * 0)%nat = Some (perturb 100 noise) /\
  out !! (4 * 0 + 1)%nat = Some (perturb 100 noise) /\
  out !! (4 * 0 + 2)%nat = Some (perturb 100 noise) /\
  out !! (4 * 0 + 3)%nat = Some 255 /\
  0 <= perturb 100 noise <= 255 /\
  0 <= perturb 100 noise <= 255 /\
  0 <= perturb 100 noise <= 255.
Proof.
  split; [repeat split; reflexivity|].
  apply (addSkinDetails_shared_noise draws grey_pixel 0 100 100 100 255);
    reflexivity.
Defined.

(** C9 fails as stated: with the draws 0, 0.9, 0.5 a grey pixel becomes
    (90, 90, 90), one draw moving all three channels by -10, where noise
    drawn per channel would give (90, 108, 100). *)
Lemma addSkinDetails_not_per_channel :
  addSkinDetails draws grey_pixel = [90; 90; 90; 255] /\
  noise_pass_per_channel draws 0 grey_pixel = [90; 108; 100; 255] /\
  addSkinDetails draws grey_pixel <> noise_pass_per_channel draws 0 grey_pixel.
Proof.
  assert (H1 : addSkinDetails draws grey_pixel = [90; 90; 90; 255])
    by (vm_compute; reflexivity).
  assert (H2 : noise_pass_per_channel draws 0 grey_pixel = [90; 108; 100; 255])
    by (vm_compute; reflexivity).
  rewrite H1, H2. repeat split; discriminate.
Qed.

(** The clamp at both ends, and rounding of a fraction. *)
Example perturb_clamps :
  perturb 250 (noise_of (decimal 9 1)) = 255 /\
  perturb 3 (noise_of (of_Z 0)) = 0 /\
  perturb 100 (noise_of (decimal 123 3)) = 92.
Proof. vm_compute. auto. Qed.

End Skin.

(** ** Rounding of the arithmetic

    What one operation on doubles returns, against the exact result:
    multiplication, addition, square root and division, from the
    definitions of [SpecFloat]. *)

Section Shifts.

Lemma digits2_bounds (p : positive) :
  2 ^ (Zpos (digits2_pos p) - 1) <= Zpos p < 2 ^ Zpos (digits2_pos p).
Proof.
  induction p as [p IH|p IH|]; cbn [digits2_pos].
  - rewrite Pos2Z.inj_succ.
    replace (Z.succ (Zpos (digits2_pos p)) - 1) with (Z.succ (Zpos (digits2_pos p) - 1)) by lia.
    rewrite !Z.pow_succ_r by lia. lia.
  - rewrite Pos2Z.inj_succ.
    replace (Z.succ (Zpos (digits2_pos p)) - 1) with (Z.succ (Zpos (digits2_pos p) - 1)) by lia.
    rewrite !Z.pow_succ_r by lia. lia.
  - cbn. lia.
Qed.

Lemma Zdigits2_bounds (m : Z) :
  0 < m -> 2 ^ (Zdigits2 m - 1) <= m < 2 ^ Zdigits2 m.
Proof. destruct m as [|p|p]; [lia| |lia]. intros _. apply digits2_bounds. Qed.

Lemma Zdigits2_nonneg (m : Z) : 0 <= Zdigits2 m.
Proof. destruct m; cbn; lia. Qed.

Lemma Zdigits2_pos (m : Z) : 0 < m -> 0 < Zdigits2 m.
Proof. destruct m; cbn; lia. Qed.

(** The number of digits is the least [d] with [m < 2 ^ d]. *)
Lemma Zdigits2_le (m d : Z) : 0 <= m -> 0 <= d -> m < 2 ^ d -> Zdigits2 m <= d.
Proof.
  intros Hm Hd Hlt. destruct (Z.eq_dec m 0) as [->|Hne]; [cbn; lia|].
  destruct (Zdigits2_bounds m ltac:(lia)) as [Hlo _].
  destruct (Z_le_gt_dec (Zdigits2 m) d) as [|Hgt]; [done|].
  assert (2 ^ d <= 2 ^ (Zdigits2 m - 1)) by (apply Z.pow_le_mono_r; lia).
  lia.
Qed.

Lemma Zdigits2_ge (m d : Z) : 2 ^ d <= m -> d < Zdigits2 m.
Proof.
  intros Hle. assert (0 < 2 ^ d \/ d < 0) as [Hp|Hn].
  { destruct (Z_lt_le_dec d 0); [by right|left; by apply Z.pow_pos_nonneg]. }
  - destruct (Zdigits2_bounds m ltac:(lia)) as [_ Hhi].
    destruct (Z_lt_le_dec d (Zdigits2 m)) as [|Hge]; [done|].
    assert (2 ^ Zdigits2 m <= 2 ^ d) by (apply Z.pow_le_mono_r; lia).
    lia.
  - pose proof (Zdigits2_nonneg m). lia.
Qed.

Lemma shr_1_m (mrs : shr_record) :
  0 <= shr_m mrs -> shr_m (shr_1 mrs) = shr_m mrs / 2.
Proof.
  destruct mrs as [m r s]. cbn [shr_m]. intros Hm.
  destruct m as [|[p|p|]|p]; cbn [shr_1 shr_m]; try lia; try reflexivity.
  - apply Z.div_unique with 1; lia.
  - apply Z.div_unique with 0; lia.
Qed.

Lemma pow2_xI (p : positive) : 2 ^ Zpos p~1 = 2 * (2 ^ Zpos p * 2 ^ Zpos p).
Proof.
  replace (Zpos p~1) with (1 + Zpos p + Zpos p) by lia.
  rewrite !Z.pow_add_r by lia. lia.
Qed.

Lemma pow2_xO (p : positive) : 2 ^ Zpos p~0 = 2 ^ Zpos p * 2 ^ Zpos p.
Proof.
  replace (Zpos p~0) with (Zpos p + Zpos p) by lia.
  rewrite !Z.pow_add_r by lia. lia.
Qed.

Lemma iter_pos_shr_m (p : positive) : forall mrs : shr_record,
  0 <= shr_m mrs ->
  0 <= shr_m (SpecFloat.iter_pos shr_1 p mrs) /\
  shr_m (SpecFloat.iter_pos shr_1 p mrs) = shr_m mrs / 2 ^ Zpos p.
Proof.
  induction p as [p IH|p IH|]; intros mrs Hm; cbn [SpecFloat.iter_pos].
  - assert (H1 : 0 <= shr_m (shr_1 mrs))
      by (rewrite shr_1_m by done; apply Z.div_pos; lia).
    destruct (IH _ H1) as [H2 E2]. destruct (IH _ H2) as [H3 E3].
    split; [done|]. rewrite E3, E2, shr_1_m by done.
    assert (0 < 2 ^ Zpos p) by (apply Z.pow_pos_nonneg; lia).
    rewrite !Z.div_div by lia. by rewrite pow2_xI.
  - destruct (IH _ Hm) as [H2 E2]. destruct (IH _ H2) as [H3 E3].
    split; [done|]. rewrite E3, E2.
    assert (0 < 2 ^ Zpos p) by (apply Z.pow_pos_nonneg; lia).
    rewrite !Z.div_div by lia. by rewrite pow2_xO.
  - split; [|by apply shr_1_m]. rewrite shr_1_m by done. apply Z.div_pos; lia.
Qed.

Lemma shr_record_of_loc_m m l : shr_m (shr_record_of_loc m l) = m.
Proof. by destruct l as [|[]]. Qed.

Lemma loc_of_shr_record_of_loc m l : loc_of_shr_record (shr_record_of_loc m l) = l.
Proof. by destruct l as [|[]]. Qed.

Lemma round_nearest_even_cases m l :
  round_nearest_even m l = m \/ round_nearest_even m l = m + 1.
Proof. destruct l as [|[]]; cbn; try case_match; auto. Qed.

End Shifts.

Section Scaled.
Import Reals Lra Exact.
Local Open Scope R_scope.

Lemma pow2_IZR (n : Z) : (0 <= n)%Z -> powerRZ 2 n = IZR (2 ^ n).
Proof.
  intros Hn. rewrite <- (Z2Nat.id n Hn), <- pow_powerRZ, pow_IZR. reflexivity.
Qed.

Lemma pow2_pos (e : Z) : 0 < powerRZ 2 e.
Proof. apply powerRZ_lt. lra. Qed.

Lemma pow2_add (a b : Z) : powerRZ 2 (a + b) = powerRZ 2 a * powerRZ 2 b.
Proof. apply powerRZ_add. lra. Qed.

Lemma pow2_le (a b : Z) : (a <= b)%Z -> powerRZ 2 a <= powerRZ 2 b.
Proof.
  intros Hab. replace b with (a + (b - a))%Z by lia.
  rewrite pow2_add, (pow2_IZR (b - a)) by lia.
  assert (1 <= IZR (2 ^ (b - a))).
  { apply IZR_le. assert (0 < 2 ^ (b - a))%Z by (apply Z.pow_pos_nonneg; lia). lia. }
  pose proof (pow2_pos a). nra.
Qed.

Lemma pow2_lt (a b : Z) : (a < b)%Z -> powerRZ 2 a < powerRZ 2 b.
Proof.
  intros Hab. replace b with (a + (b - a))%Z by lia.
  rewrite pow2_add, (pow2_IZR (b - a)) by lia.
  assert (2 <= IZR (2 ^ (b - a))).
  { apply IZR_le. replace (b - a)%Z with (Z.succ (b - a - 1)) by lia.
    rewrite Z.pow_succ_r by lia.
    assert (0 < 2 ^ (b - a - 1))%Z by (apply Z.pow_pos_nonneg; lia). lia. }
  pose proof (pow2_pos a). nra.
Qed.

Lemma pow2_succ (a : Z) : powerRZ 2 (a + 1) = 2 * powerRZ 2 a.
Proof. rewrite pow2_add, (pow2_IZR 1) by lia. change (2 ^ 1)%Z with 2%Z. lra. Qed.

Lemma scaled_shift (a e n : Z) :
  (0 <= n)%Z -> scaled a (e + n) = scaled (a * 2 ^ n) e.
Proof.
  intros Hn. unfold scaled.
  rewrite pow2_add, mult_IZR, (pow2_IZR n) by done. lra.
Qed.

Lemma scaled_le (a b e : Z) : (a <= b)%Z -> scaled a e <= scaled b e.
Proof.
  intros Hab. unfold scaled. apply IZR_le in Hab.
  pose proof (pow2_pos e). nra.
Qed.

Lemma scaled_plus (a b e : Z) : scaled (a + b) e = scaled a e + scaled b e.
Proof. unfold scaled. rewrite plus_IZR. lra. Qed.

Lemma scaled_1 (e : Z) : scaled 1 e = powerRZ 2 e.
Proof. unfold scaled. lra. Qed.

Lemma scaled_0 (e : Z) : scaled 0 e = 0.
Proof. unfold scaled. lra. Qed.

(** A right shift by [n] digits keeps the value between the shifted
    mantissa and its successor. *)
Lemma scaled_floor (m e n : Z) :
  (0 <= m)%Z -> (0 <= n)%Z ->
  scaled (m / 2 ^ n) (e + n) <= scaled m e /\
  scaled (m + 1) e <= scaled (m / 2 ^ n + 1) (e + n).
Proof.
  intros Hm Hn. rewrite !scaled_shift by done.
  assert (0 < 2 ^ n)%Z by (apply Z.pow_pos_nonneg; lia).
  pose proof (Z.mul_div_le m (2 ^ n) ltac:(lia)).
  pose proof (Z.mul_succ_div_gt m (2 ^ n) ltac:(lia)).
  split; apply scaled_le; lia.
Qed.

End Scaled.

Section RoundAux.
Import Reals Lra Exact.
Local Open Scope R_scope.

Local Abbreviation fexp := (SpecFloat.fexp 53 1024).

Lemma fexp_eq (e : Z) : fexp e = Z.max (e - 53) (-1074).
Proof. reflexivity. Qed.

Lemma Zdigits2_div (m n : Z) :
  (0 <= m)%Z -> (0 <= n)%Z ->
  (Zdigits2 (m / 2 ^ n) <= Z.max 0 (Zdigits2 m - n))%Z.
Proof.
  intros Hm Hn. destruct (Z.eq_dec m 0) as [->|Hne].
  { rewrite Z.div_0_l by (apply Z.pow_nonzero; lia). cbn. lia. }
  destruct (Zdigits2_bounds m ltac:(lia)) as [_ Hhi].
  assert (0 < 2 ^ n)%Z by (apply Z.pow_pos_nonneg; lia).
  destruct (Z_le_gt_dec (Zdigits2 m) n) as [Hle|Hgt].
  - assert (2 ^ Zdigits2 m <= 2 ^ n)%Z
      by (apply Z.pow_le_mono_r; [lia|done]).
    rewrite Z.div_small by lia. cbn. lia.
  - apply Z.max_le_iff. right.
    apply Zdigits2_le; [apply Z.div_pos; lia|lia|].
    apply Z.div_lt_upper_bound; [lia|].
    rewrite <- Z.pow_add_r by lia. replace (n + (Zdigits2 m - n))%Z with (Zdigits2 m) by lia.
    done.
Qed.

Lemma Zdigits2_succ (m : Z) :
  (0 <= m)%Z -> (Zdigits2 (m + 1) <= Zdigits2 m + 1)%Z.
Proof.
  intros Hm. destruct (Z.eq_dec m 0) as [->|Hne]; [vm_compute; discriminate|].
  destruct (Zdigits2_bounds m ltac:(lia)) as [_ Hhi].
  pose proof (Zdigits2_nonneg m).
  apply Zdigits2_le; [lia|lia|].
  rewrite Z.pow_add_r by lia. change (2 ^ 1)%Z with 2%Z. lia.
Qed.

Lemma Zdigits2_mono (a b : Z) :
  (0 <= a <= b)%Z -> (Zdigits2 a <= Zdigits2 b)%Z.
Proof.
  intros [Ha Hab]. destruct (Z.eq_dec b 0) as [->|Hne].
  { replace a with 0%Z by lia. lia. }
  destruct (Zdigits2_bounds b ltac:(lia)) as [_ Hhi].
  apply Zdigits2_le; [lia|apply Zdigits2_nonneg|lia].
Qed.

(** The shift of [shr_fexp] brings the exponent to
    [max e (fexp (digits m + e))] and keeps the value between the
    mantissa and its successor. *)
Lemma shr_fexp_spec (m e : Z) (l : location) (v : R) :
  (0 <= m)%Z ->
  scaled m e <= v < scaled (m + 1) e ->
  exists mrs e1,
    shr_fexp 53 1024 m e l = (mrs, e1) /\
    (0 <= shr_m mrs)%Z /\
    e1 = Z.max e (fexp (Zdigits2 m + e)) /\
    scaled (shr_m mrs) e1 <= v < scaled (shr_m mrs + 1) e1 /\
    (fexp (Zdigits2 (shr_m mrs) + e1) <= e1)%Z /\
    ((fexp (Zdigits2 m + e) <= e)%Z -> mrs = shr_record_of_loc m l).
Proof.
  intros Hm Hv. unfold shr_fexp, shr.
  pose proof (fexp_eq (Zdigits2 m + e)) as Hf.
  destruct (fexp (Zdigits2 m + e) - e)%Z as [|p|p] eqn:En.
  - exists (shr_record_of_loc m l), e. rewrite shr_record_of_loc_m.
    repeat split; try done; try tauto; lia.
  - destruct (iter_pos_shr_m p (shr_record_of_loc m l)) as [H0 E];
      [by rewrite shr_record_of_loc_m|].
    rewrite shr_record_of_loc_m in E.
    eexists _, _. split; [reflexivity|]. rewrite E.
    destruct (scaled_floor m e (Zpos p) Hm ltac:(lia)) as [Hlo Hhi].
    pose proof (Zdigits2_div m (Zpos p) Hm ltac:(lia)) as Hd.
    pose proof (fexp_eq (Zdigits2 (m / 2 ^ Zpos p) + (e + Zpos p))) as Hf'.
    split; [by rewrite <- E|]. split; [lia|]. split; [lra|]. split; [lia|lia].
  - exists (shr_record_of_loc m l), e. rewrite shr_record_of_loc_m.
    repeat split; try done; try tauto; lia.
Qed.

(** What [binary_round_aux] returns on a mantissa [m >= 0] at exponent
    [e], for any value [v] between [m * 2^e] and its successor: without
    overflow, a zero or a finite number with the given sign, within four
    units of the rounding exponent of [v], and [m * 2^e] itself when
    nothing has to be rounded off. *)
Lemma binary_round_aux_spec (sx : bool) (m e : Z) (l : location) (v : R) :
  (0 <= m)%Z ->
  scaled m e <= v < scaled (m + 1) e ->
  let e1 := Z.max e (fexp (Zdigits2 m + e)) in
  (e1 + 1 <= 971)%Z ->
  exists m' e',
    (0 <= m')%Z /\
    binary_round_aux 53 1024 sx m e l
    = match m' with Zpos p => S754_finite sx p e' | _ => S754_zero sx end /\
    Rabs (scaled m' e' - v) <= powerRZ 2 (e1 + 2) /\
    (l = loc_Exact -> (fexp (Zdigits2 m + e) <= e)%Z -> m' = m /\ e' = e).
Proof.
  intros Hm Hv e1 Hov. unfold binary_round_aux.
  destruct (shr_fexp_spec m e l v Hm Hv) as (mrs & ea & -> & Hm1 & Hea & Hv1 & Hfe & Hex).
  fold e1 in Hea. subst ea.
  set (m1 := shr_m mrs) in *.
  set (m2 := round_nearest_even m1 (loc_of_shr_record mrs)).
  assert (Hm2 : m2 = m1 \/ m2 = (m1 + 1)%Z) by apply round_nearest_even_cases.
  assert (Hm2' : (0 <= m2)%Z) by lia.
  destruct (shr_fexp_spec m2 e1 loc_Exact (scaled m2 e1) Hm2')
    as (mrs2 & eb & -> & Hm3 & Heb & Hv2 & _ & Hex2).
  { split; [lra|]. rewrite scaled_plus, scaled_1. pose proof (pow2_pos e1). lra. }
  set (m3 := shr_m mrs2) in *.
  assert (Hd2 : (Zdigits2 m2 <= Zdigits2 m1 + 1)%Z).
  { destruct Hm2 as [->| ->]; [lia|by apply Zdigits2_succ]. }
  pose proof (fexp_eq (Zdigits2 m2 + e1)) as Hf2.
  pose proof (fexp_eq (Zdigits2 m1 + e1)) as Hf1.
  assert (Heb' : (e1 <= eb <= e1 + 1)%Z) by lia.
  exists m3, eb. split; [done|]. split; [|split].
  - destruct m3 as [|p|p] eqn:E3; [done| |lia].
    rewrite (proj2 (Z.leb_le eb (1024 - 53))) by lia. done.
  - rewrite scaled_plus, scaled_1 in Hv1, Hv2.
    assert (Hp : powerRZ 2 eb <= 2 * powerRZ 2 e1).
    { rewrite <- pow2_succ. apply pow2_le. lia. }
    replace (e1 + 2)%Z with (e1 + 1 + 1)%Z by lia. rewrite !pow2_succ.
    pose proof (pow2_pos e1).
    assert (Hs : - powerRZ 2 e1 <= scaled m2 e1 - v <= powerRZ 2 e1).
    { destruct Hm2 as [E|E]; rewrite E, ?scaled_plus, ?scaled_1; lra. }
    apply Rabs_le. lra.
  - intros -> Hn. specialize (Hex Hn). subst mrs.
    subst m2 m1. rewrite loc_of_shr_record_of_loc, shr_record_of_loc_m in *.
    cbn [round_nearest_even] in *.
    assert (He1 : e1 = e) by (subst e1; lia).
    rewrite He1 in *. specialize (Hex2 Hn). subst m3. rewrite Hex2.
    split; [reflexivity|lia].
Qed.

End RoundAux.

Section Model.
Import Reals Lra Exact.
Local Open Scope R_scope.

Local Abbreviation fexp := (SpecFloat.fexp 53 1024).
(** The relative and the absolute error of one operation. *)
Local Abbreviation eps := (powerRZ 2 (-50)).
Local Abbreviation eta := (powerRZ 2 (-1072)).

Lemma pow2_lt_inv (a b : Z) : powerRZ 2 a < powerRZ 2 b -> (a < b)%Z.
Proof.
  intros H. destruct (Z_lt_le_dec a b) as [|Hle]; [done|].
  apply pow2_le in Hle. lra.
Qed.

Lemma scaled_digits (m e : Z) :
  (0 < m)%Z ->
  powerRZ 2 (Zdigits2 m - 1 + e) <= scaled m e < powerRZ 2 (Zdigits2 m + e).
Proof.
  intros Hm. destruct (Zdigits2_bounds m Hm) as [Hlo Hhi].
  pose proof (Zdigits2_pos m Hm) as Hd.
  rewrite !pow2_add, (pow2_IZR (Zdigits2 m - 1)), (pow2_IZR (Zdigits2 m)) by lia.
  apply IZR_le in Hlo. apply IZR_lt in Hhi. unfold scaled.
  pose proof (pow2_pos e). split; nra.
Qed.

Lemma scaled_nonneg (m e : Z) : (0 <= m)%Z -> 0 <= scaled m e.
Proof.
  intros Hm. apply IZR_le in Hm. unfold scaled. pose proof (pow2_pos e). nra.
Qed.

Lemma magnitude_result (sx : bool) (m e : Z) :
  (0 <= m)%Z ->
  magnitude (match m with Zpos p => S754_finite sx p e | _ => S754_zero sx end)
  = scaled m e.
Proof. intros Hm. destruct m; [by rewrite scaled_0|done|lia]. Qed.

(** The result of [binary_round_aux], in the usual model of a rounded
    operation: exact value [v], relative error [eps], absolute error
    [eta]. The mantissa either has no digit to lose and is exact, or is a
    truncation. *)
Lemma binary_round_aux_model (sx : bool) (m e : Z) (l : location) (v : R) :
  (0 <= m)%Z ->
  scaled m e <= v < scaled (m + 1) e ->
  (e <= fexp (Zdigits2 m + e))%Z \/ (l = loc_Exact /\ v = scaled m e) ->
  v < powerRZ 2 900 ->
  (m = 0%Z -> (e <= 900)%Z) ->
  let r := binary_round_aux 53 1024 sx m e l in
  (r = S754_zero sx \/ exists p e', r = S754_finite sx p e') /\
  Rabs (magnitude r - v) <= eps * v + eta.
Proof.
  intros Hm Hv Hcase Hlt H0 r.
  pose proof (fexp_eq (Zdigits2 m + e)) as Hf.
  assert (Hv0 : 0 <= v) by (pose proof (scaled_nonneg m e Hm); lra).
  assert (Hov : (Z.max e (fexp (Zdigits2 m + e)) + 1 <= 971)%Z).
  { destruct (Z.eq_dec m 0) as [->|Hne].
    - specialize (H0 eq_refl). change (Zdigits2 0) with 0%Z in *. lia.
    - destruct (scaled_digits m e ltac:(lia)) as [Hlo _].
      assert (powerRZ 2 (Zdigits2 m - 1 + e) < powerRZ 2 900) by lra.
      apply pow2_lt_inv in H. pose proof (Zdigits2_pos m ltac:(lia)). lia. }
  destruct (binary_round_aux_spec sx m e l v Hm Hv Hov)
    as (m' & e' & Hm' & Hr & Herr & Hex).
  fold r in Hr. split.
  { rewrite Hr. destruct m'; eauto. }
  rewrite Hr, magnitude_result by done.
  pose proof (pow2_pos (-50)) as Heps. pose proof (pow2_pos (-1072)) as Heta.
  destruct (Z_le_gt_dec (fexp (Zdigits2 m + e)) e) as [Hle|Hgt].
  - destruct Hcase as [Hc|[-> ->]].
    + (* no digit is lost, the bound is a unit of [e] *)
      assert (He : e = fexp (Zdigits2 m + e)) by lia.
      clear Hex. revert Herr. rewrite Z.max_r by lia. intros Herr.
      eapply Rle_trans; [exact Herr|].
      destruct (Z.eq_dec m 0) as [->|Hne].
      * change (Zdigits2 0) with 0%Z in *.
        assert (fexp (0 + e) = (-1074)%Z) as -> by lia.
        change (-1074 + 2)%Z with (-1072)%Z. nra.
      * destruct (scaled_digits m e ltac:(lia)) as [Hlo _].
        destruct (Z_le_gt_dec (Zdigits2 m + e - 53) (-1074)).
        -- assert (fexp (Zdigits2 m + e) = (-1074)%Z) as -> by lia.
           change (-1074 + 2)%Z with (-1072)%Z. nra.
        -- assert (fexp (Zdigits2 m + e) = (Zdigits2 m + e - 53)%Z) as -> by lia.
           replace (Zdigits2 m + e - 53 + 2)%Z with (-50 + (Zdigits2 m - 1 + e))%Z by lia.
           rewrite pow2_add. nra.
    + destruct (Hex eq_refl Hle) as [-> ->].
      replace (scaled m e - scaled m e) with 0 by lra. rewrite Rabs_R0. nra.
  - clear Hex. revert Herr. rewrite Z.max_r by lia. intros Herr.
    eapply Rle_trans; [exact Herr|].
    destruct (Z.eq_dec m 0) as [->|Hne].
    + change (Zdigits2 0) with 0%Z in *. specialize (H0 eq_refl).
      assert (fexp (0 + e) = (-1074)%Z) as -> by lia.
      change (-1074 + 2)%Z with (-1072)%Z. nra.
    + destruct (scaled_digits m e ltac:(lia)) as [Hlo _].
      destruct (Z_le_gt_dec (Zdigits2 m + e - 53) (-1074)).
      * assert (fexp (Zdigits2 m + e) = (-1074)%Z) as -> by lia.
        change (-1074 + 2)%Z with (-1072)%Z. nra.
      * assert (fexp (Zdigits2 m + e) = (Zdigits2 m + e - 53)%Z) as -> by lia.
        replace (Zdigits2 m + e - 53 + 2)%Z with (-50 + (Zdigits2 m - 1 + e))%Z by lia.
        rewrite pow2_add. nra.
Qed.

End Model.

Section Operations.
Import Reals Lra Exact.
Local Open Scope R_scope.

Local Abbreviation fexp := (SpecFloat.fexp 53 1024).
Local Abbreviation eps := (powerRZ 2 (-50)).
Local Abbreviation eta := (powerRZ 2 (-1072)).

Lemma scaled_mult (a b e f : Z) :
  scaled (a * b) (e + f) = scaled a e * scaled b f.
Proof. unfold scaled. rewrite mult_IZR, pow2_add. lra. Qed.

Lemma scaled_succ_gt (m e : Z) : scaled m e < scaled (m + 1) e.
Proof. rewrite scaled_plus, scaled_1. pose proof (pow2_pos e). lra. Qed.

Lemma is_nonneg_finite (x : number) : is_nonneg x = true -> is_finite x = true.
Proof. by destruct x as [| | |[]]. Qed.

Lemma magnitude_nonneg (x : number) : 0 <= magnitude x.
Proof. destruct x; cbn; try lra. by apply scaled_nonneg. Qed.

Lemma model_exact (v : R) : 0 <= v -> Rabs (v - v) <= eps * v + eta.
Proof.
  intros Hv. replace (v - v) with 0 by lra. rewrite Rabs_R0.
  pose proof (pow2_pos (-50)). pose proof (pow2_pos (-1072)). nra.
Qed.

(** Multiplication of two finite numbers. *)
Lemma mul_model (x y : number) :
  is_finite x = true -> is_finite y = true ->
  magnitude x * magnitude y < powerRZ 2 900 ->
  is_finite (mul x y) = true /\
  (x = y -> is_nonneg (mul x y) = true) /\
  Rabs (magnitude (mul x y) - magnitude x * magnitude y)
  <= eps * (magnitude x * magnitude y) + eta.
Proof.
  intros Hx Hy Hlt.
  destruct x as [sx| | |sx mx ex]; try discriminate;
    destruct y as [sy| | |sy my ey]; try discriminate;
    cbn [mul SFmul magnitude] in *.
  - split; [done|]. split; [done|]. rewrite Rmult_0_l. apply model_exact. lra.
  - split; [done|]. split; [done|]. rewrite Rmult_0_l. apply model_exact. lra.
  - split; [done|]. split; [done|]. rewrite Rmult_0_r. apply model_exact. lra.
  - unfold mul, SFmul, prec, emax.
    rewrite <- scaled_mult in *.
    change (Zpos mx * Zpos my)%Z with (Zpos (mx * my)) in *.
    destruct (binary_round_aux_model (xorb sx sy) (Zpos (mx * my)) (ex + ey)
                loc_Exact (scaled (Zpos (mx * my)) (ex + ey)))
      as [Hshape Herr]; try done.
    + split; [lra|apply scaled_succ_gt].
    + by right.
    + split; [|split; [|exact Herr]].
      * destruct Hshape as [->|(p & e' & ->)]; done.
      * intros [= -> -> ->]. rewrite xorb_nilpotent in Hshape |- *.
        destruct Hshape as [->|(p & e' & ->)]; done.
Qed.

Lemma shl_align_spec (mx : positive) (ex ex' : Z) :
  scaled (Zpos (fst (shl_align mx ex ex'))) (snd (shl_align mx ex ex'))
  = scaled (Zpos mx) ex /\
  snd (shl_align mx ex ex') = Z.min ex ex'.
Proof.
  unfold shl_align. destruct (ex' - ex)%Z as [|d|d] eqn:E; cbn [fst snd].
  - split; [done|lia].
  - split; [done|lia].
  - split; [|lia].
    change (Pos.iter xO mx d) with (shift_pos d mx).
    rewrite shift_pos_correct. change (Zpower_pos 2 d) with (2 ^ Zpos d)%Z.
    transitivity (scaled (Zpos mx) (ex' + Zpos d)); [|f_equal; lia].
    rewrite scaled_shift by lia. f_equal. lia.
Qed.

Lemma binary_round_model (sx : bool) (p : positive) (e : Z) :
  scaled (Zpos p) e < powerRZ 2 900 ->
  let r := binary_round 53 1024 sx p e in
  (r = S754_zero sx \/ exists q e', r = S754_finite sx q e') /\
  Rabs (magnitude r - scaled (Zpos p) e) <= eps * scaled (Zpos p) e + eta.
Proof.
  intros Hlt. unfold binary_round.
  destruct (shl_align_spec p e (fexp (Zpos (digits2_pos p) + e))) as [Hv _].
  destruct (shl_align p e (fexp (Zpos (digits2_pos p) + e))) as [mz ez].
  cbn [fst snd] in Hv. rewrite <- Hv in *.
  apply binary_round_aux_model; try done.
  - split; [lra|apply scaled_succ_gt].
  - by right.
Qed.

(** Addition of two numbers that are not negative. *)
Lemma add_model (x y : number) :
  is_nonneg x = true -> is_nonneg y = true ->
  magnitude x + magnitude y < powerRZ 2 900 ->
  is_nonneg (add x y) = true /\
  Rabs (magnitude (add x y) - (magnitude x + magnitude y))
  <= eps * (magnitude x + magnitude y) + eta.
Proof.
  intros Hx Hy Hlt.
  destruct x as [sx| | |[] mx ex]; try discriminate;
    destruct y as [sy| | |[] my ey]; try discriminate.
  - split; [by destruct sx, sy|].
    assert (magnitude (add (S754_zero sx) (S754_zero sy)) = 0) as ->
      by (by destruct sx, sy).
    cbn [magnitude]. rewrite Rplus_0_l. apply model_exact. lra.
  - split; [done|]. cbn [add SFadd magnitude]. rewrite Rplus_0_l.
    apply model_exact. by apply scaled_nonneg.
  - split; [done|]. cbn [add SFadd magnitude]. rewrite Rplus_0_r.
    apply model_exact. by apply scaled_nonneg.
  - cbn [magnitude] in *. unfold add, SFadd, prec, emax, cond_Zopp.
    set (ez := Z.min ex ey).
    destruct (shl_align_spec mx ex ez) as [Hvx Hex].
    destruct (shl_align_spec my ey ez) as [Hvy Hey].
    rewrite Z.min_r in Hex, Hey by lia. rewrite Hex in Hvx. rewrite Hey in Hvy.
    set (a := fst (shl_align mx ex ez)) in *.
    set (b := fst (shl_align my ey ez)) in *.
    change (Zpos a + Zpos b)%Z with (Zpos (a + b)). cbn [binary_normalize].
    assert (Hsum : scaled (Zpos (a + b)) ez = scaled (Zpos mx) ex + scaled (Zpos my) ey)
      by (by rewrite Pos2Z.inj_add, scaled_plus, Hvx, Hvy).
    rewrite <- Hsum in *.
    destruct (binary_round_model false (a + b) ez Hlt) as [Hshape Herr].
    split; [|exact Herr].
    destruct Hshape as [->|(q & e' & ->)]; done.
Qed.

Lemma div2_bounds (a : Z) : (2 * Z.div2 a <= a <= 2 * Z.div2 a + 1)%Z.
Proof. rewrite Z.div2_div. Z.to_euclidean_division_equations. lia. Qed.

Lemma half_bounds (a : Z) : (2 * (a / 2) <= a <= 2 * (a / 2) + 1)%Z.
Proof. Z.to_euclidean_division_equations. lia. Qed.

(** The square root of a number that is not negative; [t] is the exact
    root. *)
Lemma sqrt_model (x : number) (t : R) :
  is_nonneg x = true -> 0 <= t -> t * t = magnitude x ->
  t < powerRZ 2 900 ->
  is_nonneg (Number.sqrt x) = true /\
  Rabs (magnitude (Number.sqrt x) - t) <= eps * t + eta.
Proof.
  intros Hx Ht Htt Hlt.
  destruct x as [sx| | |[] mx ex]; try discriminate.
  - split; [done|]. cbn [Number.sqrt SFsqrt magnitude] in *.
    assert (t = 0) as -> by nra. apply model_exact. lra.
  - cbn [magnitude] in Htt.
    unfold Number.sqrt, SFsqrt, SFsqrt_core_binary, prec, emax.
    set (d := Zdigits2 (Zpos mx)).
    set (e' := Z.min (fexp (Z.div2 (d + ex + 1))) (Z.div2 ex)).
    set (s := (ex - 2 * e')%Z).
    assert (Hd : (0 < d)%Z) by (by apply Zdigits2_pos).
    pose proof (div2_bounds ex) as Hdiv.
    pose proof (div2_bounds (d + ex + 1)) as Hdiv'.
    assert (Hs : (0 <= s)%Z) by (subst s e'; lia).
    set (m' := match s with
               | Zpos _ => Z.shiftl (Zpos mx) s
               | Z0 => Zpos mx
               | Zneg _ => 0%Z
               end).
    assert (Hm' : m' = (Zpos mx * 2 ^ s)%Z).
    { subst m'. destruct s as [|p|p] eqn:Es; [lia| |lia].
      by rewrite Z.shiftl_mul_pow2. }
    assert (Hpow : (0 < 2 ^ s)%Z) by (apply Z.pow_pos_nonneg; lia).
    pose proof (Z.sqrtrem_spec m' ltac:(lia)) as Hspec.
    destruct (Z.sqrtrem m') as [q r]. destruct Hspec as [Hqr Hr].
    (* the exact value *)
    assert (Hval : scaled (Zpos mx) ex = IZR m' * (powerRZ 2 e' * powerRZ 2 e')).
    { replace ex with (e' + e' + s)%Z at 1 by (subst s; lia).
      rewrite scaled_shift, <- Hm' by done. unfold scaled. by rewrite pow2_add. }
    pose proof (pow2_pos e') as Hp.
    assert (Hq0 : (0 <= q)%Z) by lia.
    assert (HqR : IZR q * IZR q <= IZR m' < (IZR q + 1) * (IZR q + 1)).
    { rewrite <- (plus_IZR q 1), <- !mult_IZR. split; [apply IZR_le|apply IZR_lt]; lia. }
    assert (Hq0' : 0 <= IZR q) by (by apply IZR_le).
    assert (HPP : 0 < powerRZ 2 e' * powerRZ 2 e') by nra.
    assert (Hbounds : scaled q e' <= t < scaled (q + 1) e').
    { unfold scaled. rewrite plus_IZR. rewrite Hval in Htt. split.
      - destruct (Rle_lt_dec (IZR q * powerRZ 2 e') t) as [|Hc]; [done|exfalso].
        assert (H1 : t * t < (IZR q * powerRZ 2 e') * (IZR q * powerRZ 2 e'))
          by (apply Rmult_le_0_lt_compat; lra).
        assert (H2 : IZR q * IZR q * (powerRZ 2 e' * powerRZ 2 e')
                     <= IZR m' * (powerRZ 2 e' * powerRZ 2 e'))
          by (apply Rmult_le_compat_r; lra).
        lra.
      - destruct (Rlt_le_dec t ((IZR q + 1) * powerRZ 2 e')) as [|Hc]; [done|exfalso].
        assert (H0 : 0 <= (IZR q + 1) * powerRZ 2 e') by nra.
        assert (H1 : ((IZR q + 1) * powerRZ 2 e') * ((IZR q + 1) * powerRZ 2 e') <= t * t)
          by (apply Rmult_le_compat; lra).
        assert (H2 : IZR m' * (powerRZ 2 e' * powerRZ 2 e')
                     < (IZR q + 1) * (IZR q + 1) * (powerRZ 2 e' * powerRZ 2 e'))
          by (apply Rmult_lt_compat_r; lra).
        lra. }
    (* the root has enough digits *)
    set (k := ((d + s - 1) / 2)%Z).
    pose proof (half_bounds (d + s - 1)) as Hhalf. fold k in Hhalf.
    assert (Hk : (2 ^ k <= q)%Z).
    { destruct (Zdigits2_bounds (Zpos mx) ltac:(lia)) as [Hlo _]. fold d in Hlo.
      assert (H1 : (2 ^ (k + k) <= 2 ^ (d - 1 + s))%Z)
        by (apply Z.pow_le_mono_r; subst k; lia).
      rewrite !Z.pow_add_r in H1 by (subst k; lia).
      assert (0 < 2 ^ k)%Z by (apply Z.pow_pos_nonneg; subst k; lia).
      assert (0 < 2 ^ (d - 1))%Z by (apply Z.pow_pos_nonneg; lia).
      nia. }
    apply Zdigits2_ge in Hk.
    pose proof (fexp_eq (Zdigits2 q + e')) as Hf1.
    pose proof (fexp_eq (Z.div2 (d + ex + 1))) as Hf2.
    destruct (binary_round_aux_model false q e'
                (if (r =? 0)%Z then loc_Exact
                 else loc_Inexact (if (r <=? q)%Z then Lt else Gt)) t)
      as [Hshape Herr]; try done.
    + left. subst k e' s. lia.
    + intros ->. assert (0 < 2 ^ k)%Z by (apply Z.pow_pos_nonneg; subst k; lia). lia.
    + split; [|exact Herr]. destruct Hshape as [->|(p & e'' & ->)]; done.
Qed.

(** Division of a finite number by a positive finite one. *)
Lemma div_model (x : number) (my : positive) (ey : Z) :
  is_finite x = true ->
  magnitude x / scaled (Zpos my) ey < powerRZ 2 900 ->
  is_finite (div x (S754_finite false my ey)) = true /\
  Rabs (magnitude (div x (S754_finite false my ey))
        - magnitude x / scaled (Zpos my) ey)
  <= eps * (magnitude x / scaled (Zpos my) ey) + eta.
Proof.
  intros Hx Hlt.
  assert (Hy : 0 < scaled (Zpos my) ey).
  { unfold scaled. pose proof (pow2_pos ey).
    assert (0 < IZR (Zpos my)) by (by apply IZR_lt). nra. }
  destruct x as [sx| | |sx mx ex]; try discriminate.
  - split; [done|]. cbn [div SFdiv magnitude].
    replace (0 / scaled (Zpos my) ey) with 0 by (unfold Rdiv; lra).
    apply model_exact. lra.
  - cbn [magnitude] in *.
    unfold div, SFdiv, SFdiv_core_binary, prec, emax.
    set (d1 := Zdigits2 (Zpos mx)). set (d2 := Zdigits2 (Zpos my)).
    set (e' := Z.min (fexp (d1 + ex - (d2 + ey))) (ex - ey)).
    set (s := (ex - ey - e')%Z).
    assert (Hs : (0 <= s)%Z) by (subst s e'; lia).
    set (m' := match s with
               | Zpos _ => Z.shiftl (Zpos mx) s
               | Z0 => Zpos mx
               | Zneg _ => 0%Z
               end).
    assert (Hm' : m' = (Zpos mx * 2 ^ s)%Z).
    { subst m'. destruct s as [|p|p] eqn:Es; [lia| |lia].
      by rewrite Z.shiftl_mul_pow2. }
    assert (Hpow : (0 < 2 ^ s)%Z) by (apply Z.pow_pos_nonneg; lia).
    pose proof (Z_div_mod m' (Zpos my) ltac:(lia)) as Hspec.
    destruct (Z.div_eucl m' (Zpos my)) as [q r]. destruct Hspec as [Hqr Hr].
    assert (Hq0 : (0 <= q)%Z) by nia.
    set (v := scaled (Zpos mx) ex / scaled (Zpos my) ey) in *.
    pose proof (pow2_pos e') as Hp.
    (* the exact value *)
    assert (Hval : v * IZR (Zpos my) = IZR m' * powerRZ 2 e').
    { assert (Hx' : scaled (Zpos mx) ex = IZR m' * powerRZ 2 e' * powerRZ 2 ey).
      { replace ex with (e' + ey + s)%Z at 1 by (subst s; lia).
        rewrite scaled_shift, <- Hm' by done. unfold scaled. rewrite pow2_add. lra. }
      subst v. rewrite Hx'. unfold scaled. field.
      split; [pose proof (pow2_pos ey); lra|].
      assert (0 < IZR (Zpos my)) by (by apply IZR_lt). lra. }
    assert (HB : 0 < IZR (Zpos my)) by (by apply IZR_lt).
    assert (HqrR : IZR m' = IZR (Zpos my) * IZR q + IZR r)
      by (by rewrite <- mult_IZR, <- plus_IZR, <- Hqr).
    assert (HrR : 0 <= IZR r < IZR (Zpos my))
      by (split; [apply IZR_le|apply IZR_lt]; lia).
    assert (Hbounds : scaled q e' <= v < scaled (q + 1) e').
    { unfold scaled. rewrite plus_IZR. split.
      - destruct (Rle_lt_dec (IZR q * powerRZ 2 e') v) as [|Hc]; [done|exfalso]. nra.
      - destruct (Rlt_le_dec v ((IZR q + 1) * powerRZ 2 e')) as [|Hc]; [done|exfalso]. nra. }
    (* the quotient has enough digits *)
    assert (Hdq : (d1 + s - d2 <= Zdigits2 q)%Z).
    { pose proof (Zdigits2_nonneg q).
      destruct (Z_le_gt_dec (d1 + s - d2) 0) as [|Hgt]; [lia|].
      destruct (Zdigits2_bounds (Zpos mx) ltac:(lia)) as [Hlo1 _]. fold d1 in Hlo1.
      destruct (Zdigits2_bounds (Zpos my) ltac:(lia)) as [_ Hhi2]. fold d2 in Hhi2.
      assert (Hd2 : (0 < d2)%Z) by (by apply Zdigits2_pos).
      assert (Hd1 : (0 < d1)%Z) by (by apply Zdigits2_pos).
      assert (Hk : (2 ^ (d1 + s - d2 - 1) <= q)%Z).
      { assert (H1 : (2 ^ (d1 + s - d2 - 1) * 2 ^ d2 = 2 ^ (d1 - 1) * 2 ^ s)%Z).
        { rewrite <- !Z.pow_add_r by lia. f_equal. lia. }
        assert (H2 : (0 < 2 ^ (d1 + s - d2 - 1))%Z) by (apply Z.pow_pos_nonneg; lia).
        assert (H3 : (2 ^ (d1 + s - d2 - 1) * Zpos my < 2 ^ (d1 + s - d2 - 1) * 2 ^ d2)%Z)
          by (apply Z.mul_lt_mono_pos_l; lia).
        assert (H4 : (2 ^ (d1 - 1) * 2 ^ s <= Zpos mx * 2 ^ s)%Z)
          by (apply Z.mul_le_mono_nonneg_r; lia).
        assert (Hlt' : (2 ^ (d1 + s - d2 - 1) * Zpos my < Zpos my * (q + 1))%Z) by lia.
        rewrite (Z.mul_comm (2 ^ _)) in Hlt'.
        apply Z.mul_lt_mono_pos_l in Hlt'; lia. }
      apply Zdigits2_ge in Hk. lia. }
    pose proof (fexp_eq (Zdigits2 q + e')) as Hf1.
    pose proof (fexp_eq (d1 + ex - (d2 + ey))) as Hf2.
    destruct (binary_round_aux_model (xorb sx false) q e'
                (new_location (Zpos my) r) v)
      as [Hshape Herr]; try done.
    + left. subst e' s. lia.
    + intros ->. change (Zdigits2 0) with 0%Z in *.
      subst e' s. lia.
    + split; [|exact Herr]. destruct Hshape as [->|(p & e'' & ->)]; done.
Qed.

End Operations.

Section Analysis.
Import Reals Lra Exact.
Local Open Scope R_scope.

Lemma Rabs_bounds (a b : R) : Rabs a <= b -> - b <= a <= b.
Proof. unfold Rabs. destruct (Rcase_abs a); lra. Qed.

(** An error bound with relative error [e] is one with any larger
    relative error [c]. *)
Lemma model_bounds (e c h v q : R) :
  0 <= e <= c -> 0 <= v ->
  Rabs (q - v) <= e * v + h ->
  (1 - c) * v - h <= q <= (1 + c) * v + h.
Proof.
  intros He Hv H. apply Rabs_bounds in H.
  assert (e * v <= c * v) by (apply Rmult_le_compat_r; lra).
  lra.
Qed.

(** Three squares and two sums, each with relative error at most 1e-9
    and absolute error [h]. *)
Lemma sum_of_squares_bound (h xx yy zz qx qy qz s1 s2 : R) :
  0 <= h -> 0 <= xx -> 0 <= yy -> 0 <= zz ->
  (1 - 1 / 10 ^ 9) * xx - h <= qx <= (1 + 1 / 10 ^ 9) * xx + h ->
  (1 - 1 / 10 ^ 9) * yy - h <= qy <= (1 + 1 / 10 ^ 9) * yy + h ->
  (1 - 1 / 10 ^ 9) * zz - h <= qz <= (1 + 1 / 10 ^ 9) * zz + h ->
  (1 - 1 / 10 ^ 9) * (qx + qy) - h <= s1 <= (1 + 1 / 10 ^ 9) * (qx + qy) + h ->
  (1 - 1 / 10 ^ 9) * (s1 + qz) - h <= s2 <= (1 + 1 / 10 ^ 9) * (s1 + qz) + h ->
  h <= (xx + yy + zz) / 10 ^ 9 ->
  (1 - 2 / 10 ^ 8) * (xx + yy + zz) <= s2 <= (1 + 2 / 10 ^ 8) * (xx + yy + zz).
Proof. intros. split; lra. Qed.

(** The rounded root [L] of [s2], where [t] is the exact root. *)
Lemma root_bound (h S s2 t L w : R) :
  0 <= h -> 0 <= t -> t * t = s2 ->
  (1 - 2 / 10 ^ 8) * S <= s2 <= (1 + 2 / 10 ^ 8) * S ->
  0 < w -> w * w <= S -> h <= w / 10 ^ 9 ->
  (1 - 1 / 10 ^ 9) * t - h <= L <= (1 + 1 / 10 ^ 9) * t + h ->
  0 < L /\ (1 - 1 / 10 ^ 7) * S <= L * L <= (1 + 1 / 10 ^ 7) * S.
Proof.
  intros Hh Ht Htt Hs Hw HwS Hhw HL.
  assert (Htw : w / 2 <= t).
  { destruct (Rle_lt_dec (w / 2) t) as [|Hc]; [done|exfalso].
    assert (H : t * t <= (w / 2) * (w / 2)) by (apply Rmult_le_compat; lra).
    replace ((w / 2) * (w / 2)) with (w * w / 4) in H by field.
    assert (0 < w * w) by (by apply Rmult_lt_0_compat).
    lra. }
  assert (HL' : (1 - 3 / 10 ^ 9) * t <= L <= (1 + 3 / 10 ^ 9) * t) by lra.
  split; [lra|].
  assert (Hlo : ((1 - 3 / 10 ^ 9) * t) * ((1 - 3 / 10 ^ 9) * t) <= L * L)
    by (apply Rmult_le_compat; lra).
  assert (Hhi : L * L <= ((1 + 3 / 10 ^ 9) * t) * ((1 + 3 / 10 ^ 9) * t))
    by (apply Rmult_le_compat; lra).
  assert (HS : 0 <= S) by nra.
  replace (((1 - 3 / 10 ^ 9) * t) * ((1 - 3 / 10 ^ 9) * t))
    with ((1 - 3 / 10 ^ 9) * (1 - 3 / 10 ^ 9) * s2) in Hlo by (rewrite <- Htt; ring).
  replace (((1 + 3 / 10 ^ 9) * t) * ((1 + 3 / 10 ^ 9) * t))
    with ((1 + 3 / 10 ^ 9) * (1 + 3 / 10 ^ 9) * s2) in Hhi by (rewrite <- Htt; ring).
  split; lra.
Qed.

(** One rounded quotient [r] of [q], squared. *)
Lemma quotient_square_bound (h q r : R) :
  0 <= h <= 1 / 10 ^ 9 -> 0 <= q <= 2 -> 0 <= r ->
  (1 - 1 / 10 ^ 9) * q - h <= r <= (1 + 1 / 10 ^ 9) * q + h ->
  (1 - 3 / 10 ^ 9) * (q * q) - 4 * h <= r * r <= (1 + 3 / 10 ^ 9) * (q * q) + 6 * h.
Proof.
  intros Hh Hq Hr H.
  assert (Hqq : 0 <= q * q) by nra.
  assert (Hqh : 0 <= q * h <= 2 * h) by nra.
  assert (Hhh : 0 <= h * h <= h) by nra.
  split.
  - destruct (Rle_lt_dec 0 ((1 - 1 / 10 ^ 9) * q - h)) as [Hp|Hn].
    + assert (((1 - 1 / 10 ^ 9) * q - h) * ((1 - 1 / 10 ^ 9) * q - h) <= r * r)
        by (apply Rmult_le_compat; lra).
      assert (((1 - 1 / 10 ^ 9) * q - h) * ((1 - 1 / 10 ^ 9) * q - h)
              = (1 - 1 / 10 ^ 9) * (1 - 1 / 10 ^ 9) * (q * q)
                - 2 * (1 - 1 / 10 ^ 9) * (q * h) + h * h) by ring.
      assert (0 <= r * r) by nra. lra.
    + assert (0 <= r * r) by nra.
      assert ((1 - 1 / 10 ^ 9) * q * ((1 - 1 / 10 ^ 9) * q) <= h * ((1 - 1 / 10 ^ 9) * q))
        by (apply Rmult_le_compat_r; lra).
      assert ((1 - 1 / 10 ^ 9) * q * ((1 - 1 / 10 ^ 9) * q)
              = (1 - 1 / 10 ^ 9) * (1 - 1 / 10 ^ 9) * (q * q)) by ring.
      assert (h * ((1 - 1 / 10 ^ 9) * q) = (1 - 1 / 10 ^ 9) * (q * h)) by ring.
      lra.
  - assert (r * r <= ((1 + 1 / 10 ^ 9) * q + h) * ((1 + 1 / 10 ^ 9) * q + h))
      by (apply Rmult_le_compat; lra).
    assert (((1 + 1 / 10 ^ 9) * q + h) * ((1 + 1 / 10 ^ 9) * q + h)
            = (1 + 1 / 10 ^ 9) * (1 + 1 / 10 ^ 9) * (q * q)
              + 2 * (1 + 1 / 10 ^ 9) * (q * h) + h * h) by ring.
    lra.
Qed.

(** The three rounded quotients by [L] have squares that sum to 1 within
    1e-6. *)
Lemma unit_bound (h x y z L r0 r1 r2 : R) :
  0 <= h <= 1 / 10 ^ 9 ->
  0 <= x -> 0 <= y -> 0 <= z -> 0 < L ->
  let S := x * x + y * y + z * z in
  0 < S ->
  (1 - 1 / 10 ^ 7) * S <= L * L <= (1 + 1 / 10 ^ 7) * S ->
  0 <= r0 -> 0 <= r1 -> 0 <= r2 ->
  (0 <= x / L <= 2 ->
   (1 - 1 / 10 ^ 9) * (x / L) - h <= r0 <= (1 + 1 / 10 ^ 9) * (x / L) + h) ->
  (0 <= y / L <= 2 ->
   (1 - 1 / 10 ^ 9) * (y / L) - h <= r1 <= (1 + 1 / 10 ^ 9) * (y / L) + h) ->
  (0 <= z / L <= 2 ->
   (1 - 1 / 10 ^ 9) * (z / L) - h <= r2 <= (1 + 1 / 10 ^ 9) * (z / L) + h) ->
  1 - 1 / 10 ^ 6 <= r0 * r0 + r1 * r1 + r2 * r2 <= 1 + 1 / 10 ^ 6.
Proof.
  intros Hh Hx Hy Hz HL S HS HLL Hr0 Hr1 Hr2 H0 H1 H2.
  set (a := x / L) in *. set (b := y / L) in *. set (c := z / L) in *.
  assert (Ha : 0 <= a) by (apply Rmult_le_pos; [lra|left; by apply Rinv_0_lt_compat]).
  assert (Hb : 0 <= b) by (apply Rmult_le_pos; [lra|left; by apply Rinv_0_lt_compat]).
  assert (Hc : 0 <= c) by (apply Rmult_le_pos; [lra|left; by apply Rinv_0_lt_compat]).
  assert (HQ : (a * a + b * b + c * c) * (L * L) = S)
    by (subst a b c S; field; lra).
  set (Q := a * a + b * b + c * c) in *.
  assert (HLL0 : 0 < L * L) by nra.
  assert (HQhi : Q <= 1 + 2 / 10 ^ 7).
  { destruct (Rle_lt_dec Q (1 + 2 / 10 ^ 7)) as [|Hc']; [done|exfalso].
    assert ((1 + 2 / 10 ^ 7) * (L * L) < Q * (L * L))
      by (apply Rmult_lt_compat_r; lra).
    lra. }
  assert (HQlo : 1 - 2 / 10 ^ 7 <= Q).
  { destruct (Rle_lt_dec (1 - 2 / 10 ^ 7) Q) as [|Hc']; [done|exfalso].
    assert (Q * (L * L) < (1 - 2 / 10 ^ 7) * (L * L))
      by (apply Rmult_lt_compat_r; lra).
    lra. }
  assert (Haa : 0 <= a * a) by nra.
  assert (Hbb : 0 <= b * b) by nra.
  assert (Hcc : 0 <= c * c) by nra.
  assert (Ha2 : a <= 2) by (subst Q; nra).
  assert (Hb2 : b <= 2) by (subst Q; nra).
  assert (Hc2 : c <= 2) by (subst Q; nra).
  pose proof (quotient_square_bound h a r0 Hh ltac:(lra) Hr0 (H0 ltac:(lra))) as B0.
  pose proof (quotient_square_bound h b r1 Hh ltac:(lra) Hr1 (H1 ltac:(lra))) as B1.
  pose proof (quotient_square_bound h c r2 Hh ltac:(lra) Hr2 (H2 ltac:(lra))) as B2.
  subst Q. split; lra.
Qed.

End Analysis.

Section UnitLength.
Import Reals Lra Exact.
Import ONNXAvatarModel.
Local Open Scope R_scope.

Local Abbreviation eps := (powerRZ 2 (-50)).
Local Abbreviation eta := (powerRZ 2 (-1072)).

Lemma below_spec (k : Z) (x : number) :
  below k x = true -> is_finite x = true /\ magnitude x < powerRZ 2 k.
Proof.
  destruct x as [s| | |s m e]; try discriminate; cbn [below is_finite magnitude].
  - intros _. split; [done|apply pow2_pos].
  - intros H%Z.leb_le. split; [done|].
    destruct (scaled_digits (Zpos m) e ltac:(lia)) as [_ Hhi].
    eapply Rlt_le_trans; [exact Hhi|]. by apply pow2_le.
Qed.

Lemma at_least_spec (k : Z) (x : number) :
  at_least k x = true -> powerRZ 2 k <= magnitude x.
Proof.
  destruct x as [s| | |s m e]; try discriminate; cbn [at_least magnitude].
  intros H%Z.ltb_lt.
  destruct (scaled_digits (Zpos m) e ltac:(lia)) as [Hlo _].
  eapply Rle_trans; [|exact Hlo]. apply pow2_le. lia.
Qed.

Lemma value_square (x : number) : value x * value x = magnitude x * magnitude x.
Proof. destruct x as [s| | |[] m e]; cbn [value magnitude]; ring. Qed.

Lemma pow2_inv_small (k : Z) : (30 <= k)%Z -> powerRZ 2 (- k) <= 1 / 10 ^ 9.
Proof.
  intros Hk. eapply Rle_trans; [apply (pow2_le _ (-30)); lia|].
  replace (powerRZ 2 (-30)) with (/ powerRZ 2 30)
    by (symmetry; apply (powerRZ_neg' 2 30)).
  rewrite (pow2_IZR 30) by lia.
  change (2 ^ 30)%Z with 1073741824%Z. lra.
Qed.

Lemma eps_small : 0 <= eps <= 1 / 10 ^ 9.
Proof. split; [left; apply pow2_pos|apply (pow2_inv_small 50); lia]. Qed.

Lemma eta_small (k : Z) :
  (-1000 <= k)%Z -> 0 <= eta /\ eta <= powerRZ 2 k / 10 ^ 9.
Proof.
  intros Hk. split; [left; apply pow2_pos|].
  replace (-1072)%Z with (- (1072 + k) + k)%Z by lia. rewrite pow2_add.
  pose proof (pow2_inv_small (1072 + k) ltac:(lia)). pose proof (pow2_pos k).
  unfold Rdiv in *. nra.
Qed.

Lemma pow2_ge_16 (a b : Z) : (a + 4 <= b)%Z -> 16 * powerRZ 2 a <= powerRZ 2 b.
Proof.
  intros H. eapply Rle_trans; [|apply (pow2_le (4 + a)); lia].
  rewrite pow2_add, (pow2_IZR 4) by lia. change (2 ^ 4)%Z with 16%Z. lra.
Qed.

Lemma pow2_ge_1 (a : Z) : (0 <= a)%Z -> 1 <= powerRZ 2 a.
Proof. intros H. apply (pow2_le 0) in H. by rewrite powerRZ_O in H. Qed.

Lemma square_lt (x p : R) : 0 <= x -> x < p -> x * x < p * p.
Proof. intros. apply Rmult_le_0_lt_compat; lra. Qed.

(** The model of a square. *)
Lemma square_bounds (a : number) :
  below 400 a = true ->
  let q := mul a a in
  is_nonneg q = true /\
  (1 - 1 / 10 ^ 9) * (magnitude a * magnitude a) - eta
  <= magnitude q <= (1 + 1 / 10 ^ 9) * (magnitude a * magnitude a) + eta.
Proof.
  intros [Hf Hlt]%below_spec q.
  pose proof (magnitude_nonneg a) as H0.
  pose proof (square_lt _ _ H0 Hlt) as Hsq. rewrite <- pow2_add in Hsq.
  pose proof (pow2_ge_16 (400 + 400) 900 ltac:(lia)).
  pose proof (pow2_pos (400 + 400)).
  destruct (mul_model a a Hf Hf ltac:(lra)) as (_ & Hn & Herr).
  split; [by apply Hn|].
  apply (model_bounds eps); [apply eps_small|nra|exact Herr].
Qed.

(** The computed length of a vector in range, and the three quotients:
    the length is a positive finite number, and the squares of the
    quotients sum to 1 within 1e-6. *)
Lemma quotients_unit (a b c : number) :
  below 400 a = true -> below 400 b = true -> below 400 c = true ->
  at_least (-400) a || at_least (-400) b || at_least (-400) c = true ->
  let len := Number.sqrt (add (add (mul a a) (mul b b)) (mul c c)) in
  gt len (of_Z 0) = true /\
  1 - 1 / 10 ^ 6
  <= magnitude (div a len) * magnitude (div a len)
     + magnitude (div b len) * magnitude (div b len)
     + magnitude (div c len) * magnitude (div c len)
  <= 1 + 1 / 10 ^ 6.
Proof.
  intros Ha Hb Hc Hsome len.
  destruct (square_bounds a Ha) as [Nqa Bqa].
  destruct (square_bounds b Hb) as [Nqb Bqb].
  destruct (square_bounds c Hc) as [Nqc Bqc].
  destruct (below_spec _ _ Ha) as [Fa La].
  destruct (below_spec _ _ Hb) as [Fb Lb].
  destruct (below_spec _ _ Hc) as [Fc Lc].
  pose proof (magnitude_nonneg a) as Hx. pose proof (magnitude_nonneg b) as Hy.
  pose proof (magnitude_nonneg c) as Hz.
  set (x := magnitude a) in *. set (y := magnitude b) in *. set (z := magnitude c) in *.
  set (qa := mul a a) in *. set (qb := mul b b) in *. set (qc := mul c c) in *.
  (* the size of the sum of squares *)
  pose proof (square_lt _ _ Hx La) as Hxx. pose proof (square_lt _ _ Hy Lb) as Hyy.
  pose proof (square_lt _ _ Hz Lc) as Hzz.
  rewrite <- pow2_add in Hxx, Hyy, Hzz. change (400 + 400)%Z with 800%Z in *.
  pose proof (pow2_ge_16 800 900 ltac:(lia)) as H900.
  pose proof (pow2_ge_1 800 ltac:(lia)) as H800.
  destruct (eta_small (-400) ltac:(lia)) as [Heta0 Hetaw].
  destruct (eta_small (-800) ltac:(lia)) as [_ Hetaww].
  destruct (eta_small 0 ltac:(lia)) as [_ Heta1]. rewrite powerRZ_O in Heta1.
  set (w := powerRZ 2 (-400)) in *.
  assert (Hw : 0 < w) by apply pow2_pos.
  assert (Hww : w * w = powerRZ 2 (-800)) by (subst w; by rewrite <- pow2_add).
  rewrite <- Hww in Hetaww.
  assert (Hx0 : 0 <= x * x) by (by apply Rmult_le_pos).
  assert (Hy0 : 0 <= y * y) by (by apply Rmult_le_pos).
  assert (Hz0 : 0 <= z * z) by (by apply Rmult_le_pos).
  assert (HS : w * w <= x * x + y * y + z * z).
  { apply orb_true_iff in Hsome as [Hsome|Hsome];
      [apply orb_true_iff in Hsome as [Hsome|Hsome]|];
      apply at_least_spec in Hsome; fold w in Hsome;
      try fold x in Hsome; try fold y in Hsome; try fold z in Hsome.
    - assert (w * w <= x * x) by (apply Rmult_le_compat; lra). lra.
    - assert (w * w <= y * y) by (apply Rmult_le_compat; lra). lra.
    - assert (w * w <= z * z) by (apply Rmult_le_compat; lra). lra. }
  assert (Hww0 : 0 < w * w) by (by apply Rmult_lt_0_compat).
  (* the two sums *)
  pose proof (magnitude_nonneg qa) as Hqa. pose proof (magnitude_nonneg qb) as Hqb.
  pose proof (magnitude_nonneg qc) as Hqc.
  destruct (add_model qa qb Nqa Nqb ltac:(lra)) as [Ns1 Es1].
  apply (model_bounds eps (1 / 10 ^ 9)) in Es1; [|apply eps_small|lra].
  set (s1 := add qa qb) in *.
  pose proof (magnitude_nonneg s1) as Hs1.
  destruct (add_model s1 qc Ns1 Nqc ltac:(lra)) as [Ns2 Es2].
  apply (model_bounds eps (1 / 10 ^ 9)) in Es2; [|apply eps_small|lra].
  set (s2 := add s1 qc) in *.
  pose proof (sum_of_squares_bound eta (x * x) (y * y) (z * z)
                (magnitude qa) (magnitude qb) (magnitude qc)
                (magnitude s1) (magnitude s2)
                Heta0 Hx0 Hy0 Hz0 Bqa Bqb Bqc Es1 Es2 ltac:(lra)) as Bs2.
  (* the root *)
  pose proof (magnitude_nonneg s2) as Hs2.
  set (t := R_sqrt.sqrt (magnitude s2)).
  assert (Ht : 0 <= t) by apply sqrt_pos.
  assert (Htt : t * t = magnitude s2) by (by apply sqrt_sqrt).
  assert (Htlt : t < powerRZ 2 900).
  { pose proof (pow2_ge_16 450 900 ltac:(lia)). pose proof (pow2_pos 450).
    destruct (Rlt_le_dec t (powerRZ 2 450)) as [|Hge]; [lra|exfalso].
    assert (powerRZ 2 450 * powerRZ 2 450 <= t * t) by (apply Rmult_le_compat; lra).
    rewrite <- pow2_add in *. change (450 + 450)%Z with 900%Z in *. lra. }
  destruct (sqrt_model s2 t Ns2 Ht Htt Htlt) as [Nlen Elen].
  fold len in Nlen, Elen.
  apply (model_bounds eps (1 / 10 ^ 9)) in Elen; [|apply eps_small|lra].
  destruct (root_bound eta (x * x + y * y + z * z) (magnitude s2) t (magnitude len) w
              Heta0 Ht Htt Bs2 Hw HS Hetaw Elen) as [HL HLL].
  (* the length is a positive finite number *)
  destruct len as [sl| | |[] ml el] eqn:Elenf; try discriminate;
    cbn [magnitude] in HL; try lra.
  split; [reflexivity|].
  (* the quotients *)
  cbn [magnitude] in HLL.
  set (L := scaled (Zpos ml) el) in *.
  assert (Hquot : forall u : number,
            is_finite u = true -> 0 <= magnitude u / L <= 2 ->
            (1 - 1 / 10 ^ 9) * (magnitude u / L) - eta
            <= magnitude (div u (S754_finite false ml el))
            <= (1 + 1 / 10 ^ 9) * (magnitude u / L) + eta).
  { intros u Fu Hu. pose proof (pow2_ge_1 900 ltac:(lia)).
    destruct (div_model u ml el Fu) as [_ Eu]; [fold L; lra|].
    apply (model_bounds eps); [apply eps_small|fold L; lra|exact Eu]. }
  apply (unit_bound eta x y z L); try done; try apply magnitude_nonneg;
    try lra.
  - by apply Hquot.
  - by apply Hquot.
  - by apply Hquot.
Qed.

End UnitLength.

(** ** Vertex normals *)

Section Normals.
Import ONNXAvatarModel.

(** A triangle in the plane [z = 0]: its three vertices get (0, 0, 1),
    the unused fourth vertex keeps (0, 0, 0). *)
Example calculateNormals_tri :
  calculateNormals tri_vertices tri_faces
  = [ Some (of_Z 0); Some (of_Z 0); Some (of_Z 1);
      Some (of_Z 0); Some (of_Z 0); Some (of_Z 1);
      Some (of_Z 0); Some (of_Z 0); Some (of_Z 1);
      Some (of_Z 0); Some (of_Z 0); Some (of_Z 0) ].
Proof. vm_compute. reflexivity. Qed.

(** A degenerate triangle gives no direction either. *)
Example calculateNormals_degenerate :
  calculateNormals [of_Z 1; of_Z 1; of_Z 1] [0; 0; 0]%nat
  = [ Some (of_Z 0); Some (of_Z 0); Some (of_Z 0) ].
Proof. vm_compute. reflexivity. Qed.

(** A face list that ends in the middle of a face and names a vertex that
    does not exist: the array grows and the entries are NaN. *)
Example calculateNormals_out_of_range :
  calculateNormals [of_Z 1; of_Z 1; of_Z 1] [0; 1]%nat
  = [ Some NaN; Some NaN; Some NaN; Some NaN; Some NaN; Some NaN ].
Proof. vm_compute. reflexivity. Qed.

Lemma normalize3_length a b c : length (normalize3 a b c) = 3%nat.
Proof. unfold normalize3. by case_match. Qed.

Lemma normalize3_zero :
  normalize3 (Some (of_Z 0)) (Some (of_Z 0)) (Some (of_Z 0))
  = [Some (of_Z 0); Some (of_Z 0); Some (of_Z 0)].
Proof. vm_compute. reflexivity. Qed.

Lemma normalize_all_chunk (k : nat) : forall (l : jsarray) a b c,
  l !! (3 * k)%nat = Some a ->
  l !! (3 * k + 1)%nat = Some b ->
  l !! (3 * k + 2)%nat = Some c ->
  take 3 (drop (3 * k) (normalize_all l)) = normalize3 a b c.
Proof.
  induction k as [|k IH]; intros l a b c Ha Hb Hc.
  - destruct l as [|a' [|b' [|c' rest]]]; try discriminate.
    cbn in Ha, Hb, Hc. simplify_eq. cbn [normalize_all Nat.mul].
    rewrite drop_0, take_app_length'; [done|symmetry; apply normalize3_length].
  - replace (3 * S k)%nat with (S (S (S (3 * k)))) in * by lia.
    destruct l as [|a' [|b' [|c' rest]]];
      cbn [lookup list_lookup Nat.add] in *; try discriminate.
    cbn [normalize_all].
    replace (S (S (S (3 * k)))) with (length (normalize3 a' b' c') + 3 * k)%nat
      by (rewrite normalize3_length; lia).
    rewrite drop_app_add. by apply IH.
Qed.

(** Stores leave the other slots that already exist untouched. *)
Lemma write_other (normals : jsarray) i x (k : nat) :
  i <> Some k -> (k < length normals)%nat ->
  write normals i x !! k = normals !! k.
Proof.
  intros Hne Hk. unfold write. destruct i as [i|]; [|done].
  case_decide.
  - apply list_lookup_insert_ne. congruence.
  - by apply lookup_app_l.
Qed.

Lemma write_length (normals : jsarray) i x :
  (length normals <= length (write normals i x))%nat.
Proof.
  unfold write. destruct i as [i|]; [|done]. case_decide.
  - by rewrite length_insert.
  - rewrite length_app. lia.
Qed.

Lemma add_assign_kept normals0 k (normals : jsarray) i x :
  i <> Some k -> kept normals0 k normals -> kept normals0 k (add_assign normals i x).
Proof.
  intros Hne [Hl Hk]. unfold add_assign, kept. split.
  - rewrite write_other by done. exact Hl.
  - pose proof (write_length normals i (add (read normals i) x)). lia.
Qed.

Lemma slot_of_other_vertex (f : option nat) (v j j' : nat) :
  f <> Some v -> (j < 3)%nat -> (j' < 3)%nat ->
  plus (times3 f) j <> Some (3 * v + j')%nat.
Proof.
  intros Hf Hj Hj'. destruct f as [f|]; [|done]. cbn.
  intros [= E]. apply Hf. f_equal. lia.
Qed.

Lemma first_slot_of_other_vertex (f : option nat) (v j' : nat) :
  f <> Some v -> (j' < 3)%nat -> times3 f <> Some (3 * v + j')%nat.
Proof.
  intros Hf Hj'. destruct f as [f|]; [|done]. cbn.
  intros [= E]. apply Hf. f_equal. lia.
Qed.

Lemma accumulate_face_kept vertices normals0 (normals : jsarray) f1 f2 f3 (v j : nat) :
  f1 <> Some v -> f2 <> Some v -> f3 <> Some v -> (j < 3)%nat ->
  kept normals0 (3 * v + j) normals ->
  kept normals0 (3 * v + j) (accumulate_face vertices normals f1 f2 f3).
Proof.
  intros H1 H2 H3 Hj Hk. unfold accumulate_face. cbv zeta.
  repeat (apply add_assign_kept;
          [first [apply slot_of_other_vertex; [assumption|lia|assumption]
                 |apply first_slot_of_other_vertex; assumption]|]).
  exact Hk.
Qed.

(** A property that every iteration preserves, whatever faces it is given
    from [faces], holds after the loop. *)
Lemma for_each_face_invariant {S : Type}
    (body : S -> option nat -> option nat -> option nat -> S)
    (P : S -> Prop) (ok : option nat -> Prop) :
  ok None ->
  (forall s f1 f2 f3, ok f1 -> ok f2 -> ok f3 -> P s -> P (body s f1 f2 f3)) ->
  forall (n : nat) (faces : list nat) (s : S),
    (length faces <= n)%nat ->
    (forall f, f ∈ faces -> ok (Some f)) ->
    P s -> P (for_each_face body faces s).
Proof.
  intros Hnone Hbody. induction n as [|n IH]; intros faces s Hn Hok Hs.
  - destruct faces; [exact Hs|cbn in Hn; lia].
  - destruct faces as [|f1 [|f2 [|f3 rest]]]; cbn [for_each_face].
    + exact Hs.
    + apply Hbody; [apply Hok; left|exact Hnone|exact Hnone|exact Hs].
    + apply Hbody; [apply Hok; left|apply Hok; right; left|exact Hnone|exact Hs].
    + apply IH.
      * cbn [length] in Hn. lia.
      * intros f Hf. apply Hok. do 3 right. exact Hf.
      * apply Hbody;
          [apply Hok; left|apply Hok; right; left|apply Hok; do 2 right; left
          |exact Hs].
Qed.

Lemma accumulate_kept vertices (faces : list nat) (v j : nat) :
  v ∉ faces -> (j < 3)%nat ->
  forall normals0 normals : jsarray,
    kept normals0 (3 * v + j) normals ->
    kept normals0 (3 * v + j) (accumulate vertices faces normals).
Proof.
  intros Hv Hj normals0 normals Hk. unfold accumulate.
  apply (for_each_face_invariant (accumulate_face vertices)
           (kept normals0 (3 * v + j)) (fun f => f <> Some v))
    with (n := length faces).
  - discriminate.
  - intros s f1 f2 f3 H1 H2 H3 Hs. by apply accumulate_face_kept.
  - lia.
  - intros f Hf [= ->]. done.
  - exact Hk.
Qed.

Section PerVertex.
Import Reals Lra Exact.
Import ONNXAvatarModel.

Lemma length_near_1 (s : R) :
  (1 - 1 / 10 ^ 6 <= s <= 1 + 1 / 10 ^ 6)%R ->
  (Rabs (R_sqrt.sqrt s - 1) <= 1 / 10 ^ 4)%R.
Proof.
  intros [Hlo Hhi]. apply Rabs_le.
  assert (H1 : ((1 - 1 / 10 ^ 4) * (1 - 1 / 10 ^ 4) <= s)%R) by lra.
  assert (H2 : (s <= (1 + 1 / 10 ^ 4) * (1 + 1 / 10 ^ 4))%R) by lra.
  apply sqrt_le_1_alt in H1, H2.
  rewrite sqrt_square in H1, H2 by lra. lra.
Qed.

(** C7, amended: the three entries of a vertex in the result are its
    accumulated entries divided by their computed length when that length
    is greater than 0, and the accumulated entries themselves otherwise.
    When the accumulated entries are finite and below 2^400 in magnitude,
    and one of them is at least 2^-400 in magnitude, the computed length
    is greater than 0 and the normal has Euclidean length 1 within 1e-4.
    A vertex that no face refers to has accumulated (0, 0, 0) and keeps
    exactly (0, 0, 0). *)
Theorem calculateNormals_per_vertex
    (vertices : list number) (faces : list nat) (k : nat) (a b c : option number) :
  let accumulated := accumulate vertices faces (zeros vertices) in
  let normals := calculateNormals vertices faces in
  let n0 := of_element a in
  let n1 := of_element b in
  let n2 := of_element c in
  let len := Number.sqrt (add (add (mul n0 n0) (mul n1 n1)) (mul n2 n2)) in
  accumulated !! (3 * k)%nat = Some a ->
  accumulated !! (3 * k + 1)%nat = Some b ->
  accumulated !! (3 * k + 2)%nat = Some c ->
  take 3 (drop (3 * k) normals)
  = (if gt len (of_Z 0)
     then [Some (div n0 len); Some (div n1 len); Some (div n2 len)]
     else [a; b; c]) /\
  (below 400 n0 && below 400 n1 && below 400 n2 = true ->
   at_least (-400) n0 || at_least (-400) n1 || at_least (-400) n2 = true ->
   take 3 (drop (3 * k) normals)
   = [Some (div n0 len); Some (div n1 len); Some (div n2 len)] /\
   (Rabs (euclidean_length (div n0 len) (div n1 len) (div n2 len) - 1)
    <= 1 / 10 ^ 4)%R) /\
  (k ∉ faces -> (3 * k + 2 < length vertices)%nat ->
   take 3 (drop (3 * k) normals) = [Some (of_Z 0); Some (of_Z 0); Some (of_Z 0)]).
Proof.
  intros accumulated normals n0 n1 n2 len Ha Hb Hc.
  assert (Hn : take 3 (drop (3 * k) normals)
               = (if gt len (of_Z 0)
                  then [Some (div n0 len); Some (div n1 len); Some (div n2 len)]
                  else [a; b; c]))
    by (by apply normalize_all_chunk).
  split; [exact Hn|]. split.
  - intros Hbelow Hsome.
    apply andb_true_iff in Hbelow as [Hbelow H2].
    apply andb_true_iff in Hbelow as [H0 H1].
    destruct (quotients_unit n0 n1 n2 H0 H1 H2 Hsome) as [Hgt Hunit].
    fold len in Hgt, Hunit. rewrite Hgt in Hn. split; [exact Hn|].
    unfold euclidean_length. rewrite !value_square. by apply length_near_1.
  - intros Hk Hlen. rewrite Hn.
    assert (Hz : forall j, (j < 3)%nat ->
               accumulated !! (3 * k + j)%nat = Some (Some (of_Z 0))).
    { intros j Hj.
      destruct (accumulate_kept vertices faces k j Hk Hj (zeros vertices) (zeros vertices))
        as [E _].
      - split; [done|]. unfold zeros. rewrite length_replicate. lia.
      - fold accumulated in E. rewrite E. unfold zeros.
        apply lookup_replicate_2. lia. }
    pose proof (Hz 0%nat ltac:(lia)) as E0. rewrite Nat.add_0_r in E0.
    pose proof (Hz 1%nat ltac:(lia)) as E1.
    pose proof (Hz 2%nat ltac:(lia)) as E2.
    rewrite E0 in Ha. rewrite E1 in Hb. rewrite E2 in Hc.
    subst len n0 n1 n2. simplify_eq. reflexivity.
Qed.

(** C7, amended, on the tilted triangle at its vertex 0: the accumulated
    vector is (0, -0.7071..., 0.7071...), and dividing by its computed
    length changes the last digit of both components. *)
Lemma calculateNormals_per_vertex_witness :
  (accumulate tilted_vertices tri_faces (zeros tilted_vertices) !! (3 * 0)%nat
   = Some (Some (of_Z 0)) /\
   accumulate tilted_vertices tri_faces (zeros tilted_vertices) !! (3 * 0 + 1)%nat
   = Some (Some (Number.neg inv_sqrt2)) /\
   accumulate tilted_vertices tri_faces (zeros tilted_vertices) !! (3 * 0 + 2)%nat
   = Some (Some inv_sqrt2) /\
   below 400 (of_Z 0) && below 400 (Number.neg inv_sqrt2) && below 400 inv_sqrt2 = true /\
   at_least (-400) (of_Z 0) || at_least (-400) (Number.neg inv_sqrt2)
     || at_least (-400) inv_sqrt2 = true) /\
  let len :=
    Number.sqrt (add (add (mul (of_Z 0) (of_Z 0)) (mul (Number.neg inv_sqrt2) (Number.neg inv_sqrt2)))
                     (mul inv_sqrt2 inv_sqrt2)) in
  gt len (of_Z 0) = true /\
  div inv_sqrt2 len <> inv_sqrt2 /\
  take 3 (drop (3 * 0) (calculateNormals tilted_vertices tri_faces))
  = [Some (div (of_Z 0) len); Some (div (Number.neg inv_sqrt2) len); Some (div inv_sqrt2 len)] /\
  (Rabs (euclidean_length (div (of_Z 0) len) (div (Number.neg inv_sqrt2) len)
           (div inv_sqrt2 len) - 1) <= 1 / 10 ^ 4)%R.
Proof.
  split; [repeat split; vm_compute; reflexivity|].
  intros len.
  destruct (calculateNormals_per_vertex tilted_vertices tri_faces 0
              (Some (of_Z 0)) (Some (Number.neg inv_sqrt2)) (Some inv_sqrt2))
    as (_ & Hunit & _); [vm_compute; reflexivity..|].
  split; [vm_compute; reflexivity|]. split; [vm_compute; discriminate|].
  apply Hunit; vm_compute; reflexivity.
Defined.

(** C7 fails as stated, in both halves. Vertex 3 of the triangle mesh is
    used by no face, and its normal is (0, 0, 0), not the default
    (0, 0, 1). Vertex 0 of the tiny triangle is used by three faces, its
    accumulated vector (0, 0, 3 * 2^-538) has a computed length greater
    than 0, and its normal (0, 0, 1.0606...) has a Euclidean length more
    than 0.06 above 1. *)
Lemma calculateNormals_not_unit_nor_default :
  ((3%nat ∉ tri_faces) /\
   take 3 (drop (3 * 3) (calculateNormals tri_vertices tri_faces))
   = [Some (of_Z 0); Some (of_Z 0); Some (of_Z 0)] /\
   take 3 (drop (3 * 3) (calculateNormals tri_vertices tri_faces))
   <> [Some (of_Z 0); Some (of_Z 0); Some (of_Z 1)]) /\
  (0%nat ∈ tiny_faces) /\
  (exists r0 r1 r2,
     take 3 (drop (3 * 0) (calculateNormals tiny_vertices tiny_faces))
     = [Some r0; Some r1; Some r2] /\
     (1 + 6 / 100 < euclidean_length r0 r1 r2)%R).
Proof.
  split; [|split].
  - split.
    + unfold tri_faces. rewrite !elem_of_cons, elem_of_nil. lia.
    + assert (H : take 3 (drop (3 * 3) (calculateNormals tri_vertices tri_faces))
                  = [Some (of_Z 0); Some (of_Z 0); Some (of_Z 0)])
        by (vm_compute; reflexivity).
      rewrite H. split; [reflexivity|]. vm_compute. discriminate.
  - apply list_elem_of_here.
  - exists (S754_zero false), (S754_zero false),
      (S754_finite false 4776788754394329 (-52)).
    split; [vm_compute; reflexivity|].
    unfold euclidean_length. cbn [value]. unfold scaled.
    replace (powerRZ 2 (-52)) with (/ powerRZ 2 52)%R
      by (symmetry; apply (powerRZ_neg' 2 52)).
    rewrite (pow2_IZR 52) by lia. change (2 ^ 52)%Z with 4503599627370496%Z.
    rewrite !Rmult_0_l, !Rplus_0_l, sqrt_square; lra.
Qed.

End PerVertex.

End Normals.

(** ** More on the GLB container *)

Section GLBMore.
Import GLBExporter.

(** X1: the encoder never throws; its buffer has 20 bytes more than the
    padded JSON, a multiple of four in all, and the JSON text sits
    unchanged from offset 20. *)
Theorem createGLBBuffer_shape (msg : string) (json : buffer) :
  exists glb,
    createGLBBuffer msg json = Normal glb /\
    length glb = (20 + (length json + jsonPadding json))%nat /\
    (length glb mod 4 = 0)%nat /\
    take (length json) (drop 20 glb) = json.
Proof.
  exists (glb_layout json). split; [apply createGLBBuffer_layout|].
  split; [apply glb_layout_length|]. split.
  - rewrite glb_layout_length.
    destruct (jsonPadding_aligns json) as [_ Ha].
    replace (20 + (length json + jsonPadding json))%nat
      with (length json + jsonPadding json + 5 * 4)%nat by lia.
    rewrite Nat.Div0.mod_add. exact Ha.
  - unfold glb_layout. cbn [uint32_bytes_be app skipn].
    rewrite drop_0. apply take_app_length.
Qed.

(** X2: when the padded JSON is shorter than 2^32 bytes, the chunk header
    reads back as the padded JSON length and the JSON chunk type, and the
    chunk data that the length announces is the rest of the buffer. *)
Theorem createGLBBuffer_chunk_header (msg : string) (json : buffer) :
  Z.of_nat (length json + jsonPadding json) < 2 ^ 32 ->
  exists glb,
    createGLBBuffer msg json = Normal glb /\
    getUint32 msg glb 12 = Normal (Z.of_nat (length json + jsonPadding json)) /\
    getUint32 msg glb 16 = Normal CHUNK_JSON /\
    length (drop 20 glb) = (length json + jsonPadding json)%nat.
Proof.
  intros Hlt. exists (glb_layout json). split; [apply createGLBBuffer_layout|].
  assert (Hp : length (json ++ replicate (jsonPadding json) 0)
               = (length json + jsonPadding json)%nat)
    by (rewrite length_app, length_replicate; done).
  unfold glb_layout. rewrite Hp.
  set (a := uint32_bytes_be GLB_MAGIC). set (b := uint32_bytes_be GLB_VERSION).
  set (c := uint32_bytes_be (12 + Z.of_nat (length json + jsonPadding json))).
  set (d := uint32_bytes_be (Z.of_nat (length json + jsonPadding json))).
  set (p := json ++ replicate (jsonPadding json) 0).
  split; [|split].
  - replace (a ++ b ++ c ++ d ++ uint32_bytes_be CHUNK_JSON ++ p)
      with ((a ++ b ++ c) ++ d ++ uint32_bytes_be CHUNK_JSON ++ p)
      by (by rewrite <- !app_assoc).
    subst d. rewrite getUint32_at by reflexivity.
    rewrite Z.mod_small by lia. reflexivity.
  - replace (a ++ b ++ c ++ d ++ uint32_bytes_be CHUNK_JSON ++ p)
      with ((a ++ b ++ c ++ d) ++ uint32_bytes_be CHUNK_JSON ++ p)
      by (by rewrite <- !app_assoc).
    rewrite getUint32_at by reflexivity. reflexivity.
  - subst a b c d. cbn [uint32_bytes_be app skipn]. rewrite drop_0. exact Hp.
Qed.

Lemma createGLBBuffer_chunk_header_witness :
  Z.of_nat (length empty_object_json + jsonPadding empty_object_json) < 2 ^ 32 /\
  exists glb,
    createGLBBuffer engine_message empty_object_json = Normal glb /\
    getUint32 engine_message glb 12
    = Normal (Z.of_nat (length empty_object_json + jsonPadding empty_object_json)) /\
    getUint32 engine_message glb 16 = Normal CHUNK_JSON /\
    length (drop 20 glb)
    = (length empty_object_json + jsonPadding empty_object_json)%nat.
Proof.
  assert (H : Z.of_nat (length empty_object_json + jsonPadding empty_object_json)
              < 2 ^ 32)
    by (vm_compute; reflexivity).
  split; [exact H|].
  apply (createGLBBuffer_chunk_header engine_message empty_object_json H).
Defined.

End GLBMore.

(** ** More on the validators *)

Section ValidatorMore.

Lemma uint32_bytes_be_of_bytes b0 b1 b2 b3 :
  is_byte b0 -> is_byte b1 -> is_byte b2 -> is_byte b3 ->
  let v := b0 * 2 ^ 24 + b1 * 2 ^ 16 + b2 * 2 ^ 8 + b3 in
  uint32_bytes_be v = [b0; b1; b2; b3] /\ 0 <= v < 2 ^ 32.
Proof.
  intros H0 H1 H2 H3 v. unfold is_byte in *. unfold uint32_bytes_be.
  change (2 ^ 24) with 16777216 in *. change (2 ^ 16) with 65536 in *.
  change (2 ^ 8) with 256 in *. change (2 ^ 32) with 4294967296 in *.
  assert (Hv : 0 <= v < 4294967296) by (subst v; lia).
  split; [|exact Hv].
  rewrite (Z.mod_small v) by exact Hv.
  assert (E3 : v mod 256 = b3)
    by (subst v; Z.to_euclidean_division_equations; lia).
  assert (E2 : (v / 256) mod 256 = b2)
    by (subst v; Z.to_euclidean_division_equations; lia).
  assert (E1 : (v / 65536) mod 256 = b1)
    by (subst v; Z.to_euclidean_division_equations; lia).
  assert (E0 : (v / 16777216) mod 256 = b0)
    by (subst v; Z.to_euclidean_division_equations; lia).
  rewrite E0, E1, E2, E3. reflexivity.
Qed.

(** A successful read returns a value below 2^32 whose big-endian bytes are
    the four bytes read. *)
Lemma getUint32_bytes msg (buf : buffer) off v :
  Forall is_byte buf ->
  getUint32 msg buf off = Normal v ->
  take 4 (drop off buf) = uint32_bytes_be v /\ 0 <= v < 2 ^ 32.
Proof.
  intros Hb. unfold getUint32.
  destruct (buf !! off) as [b0|] eqn:E0; [|discriminate].
  destruct (buf !! (off + 1)%nat) as [b1|] eqn:E1; [|discriminate].
  destruct (buf !! (off + 2)%nat) as [b2|] eqn:E2; [|discriminate].
  destruct (buf !! (off + 3)%nat) as [b3|] eqn:E3; [|discriminate].
  intros [= <-].
  rewrite Forall_lookup in Hb.
  destruct (uint32_bytes_be_of_bytes b0 b1 b2 b3) as [Hbe Hr]; eauto.
  split; [|exact Hr]. rewrite Hbe.
  rewrite <- (Nat.add_0_r off) in E0.
  rewrite <- lookup_drop in E0, E1, E2, E3.
  destruct (drop off buf) as [|x0 [|x1 [|x2 [|x3 r]]]]; try discriminate.
  cbn in E0, E1, E2, E3. by simplify_eq.
Qed.

Lemma getUint32_in_range msg (buf : buffer) off :
  (off + 4 <= length buf)%nat -> exists v, getUint32 msg buf off = Normal v.
Proof.
  intros H. unfold getUint32.
  destruct (lookup_lt_is_Some_2 buf off ltac:(lia)) as [b0 ->].
  destruct (lookup_lt_is_Some_2 buf (off + 1) ltac:(lia)) as [b1 ->].
  destruct (lookup_lt_is_Some_2 buf (off + 2) ltac:(lia)) as [b2 ->].
  destruct (lookup_lt_is_Some_2 buf (off + 3) ltac:(lia)) as [b3 ->].
  eauto.
Qed.

(** The three header fields of a buffer that starts with them. *)
Lemma header_fields msg (buf rest : buffer) f0 f1 f2 :
  buf = uint32_bytes_be f0 ++ uint32_bytes_be f1 ++ uint32_bytes_be f2 ++ rest ->
  getUint32 msg buf 0 = Normal (f0 mod 2 ^ 32) /\
  getUint32 msg buf 4 = Normal (f1 mod 2 ^ 32) /\
  getUint32 msg buf 8 = Normal (f2 mod 2 ^ 32).
Proof.
  intros ->. split; [|split].
  - exact (getUint32_at msg [] _ f0 0%nat eq_refl).
  - exact (getUint32_at msg (uint32_bytes_be f0) _ f1 4%nat eq_refl).
  - rewrite (app_assoc (uint32_bytes_be f0)).
    exact (getUint32_at msg (uint32_bytes_be f0 ++ uint32_bytes_be f1) _ f2 8%nat
             eq_refl).
Qed.

(** X3: on a buffer of bytes, the validator answers valid exactly when the
    buffer starts with the magic number, version 2 and its own length
    (which then is below 2^32); the size it reports is the length of the
    buffer. *)
Theorem validateGLB_accepts_exactly (msg : string) (buf : buffer) :
  Forall is_byte buf ->
  ((exists r, GLBGenerator.validateGLB msg buf = Normal r /\ valid r = true) <->
   (exists rest,
      buf = magic_bytes ++ version_bytes
              ++ uint32_bytes_be (Z.of_nat (length buf)) ++ rest /\
      Z.of_nat (length buf) < 2 ^ 32)) /\
  (forall r, GLBGenerator.validateGLB msg buf = Normal r -> valid r = true ->
             size r = Some (length buf)).
Proof.
  intros Hb. split; [split|].
  - intros (r & Hr & Hv). unfold GLBGenerator.validateGLB in Hr.
    destruct (getUint32 msg buf 0) as [magic|] eqn:E0;
      cbn [mbind completion_bind JS.bind try_catch] in Hr;
      [|by simplify_eq].
    destruct (Z.eqb_spec magic GLB_MAGIC) as [->|]; cbn [negb mbind completion_bind JS.bind try_catch] in Hr;
      [|by simplify_eq].
    destruct (getUint32 msg buf 4) as [version|] eqn:E4;
      cbn [mbind completion_bind JS.bind try_catch] in Hr;
      [|by simplify_eq].
    destruct (Z.eqb_spec version GLB_VERSION) as [->|]; cbn [negb mbind completion_bind JS.bind try_catch] in Hr;
      [|by simplify_eq].
    destruct (getUint32 msg buf 8) as [total|] eqn:E8;
      cbn [mbind completion_bind JS.bind try_catch] in Hr;
      [|by simplify_eq].
    destruct (Z.eqb_spec total (Z.of_nat (length buf))) as [->|]; cbn [negb mbind completion_bind JS.bind try_catch] in Hr;
      [|by simplify_eq].
    destruct (getUint32_bytes msg buf 0 _ Hb E0) as [H0 _].
    destruct (getUint32_bytes msg buf 4 _ Hb E4) as [H4 _].
    destruct (getUint32_bytes msg buf 8 _ Hb E8) as [H8 Hlt].
    exists (drop 12 buf). split; [|lia].
    rewrite <- H8.
    change magic_bytes with (uint32_bytes_be GLB_MAGIC).
    change version_bytes with (uint32_bytes_be GLB_VERSION).
    rewrite <- H0, <- H4, drop_0.
    rewrite <- (take_drop 4 buf) at 1. f_equal.
    rewrite <- (take_drop 4 (drop 4 buf)) at 1. f_equal.
    rewrite drop_drop.
    rewrite <- (take_drop 4 (drop (4 + 4) buf)) at 1.
    rewrite drop_drop. reflexivity.
  - intros (rest & Hbuf & Hlt).
    change magic_bytes with (uint32_bytes_be GLB_MAGIC) in Hbuf.
    change version_bytes with (uint32_bytes_be GLB_VERSION) in Hbuf.
    destruct (header_fields msg buf rest _ _ _ Hbuf) as (E0 & E4 & E8).
    unfold GLBGenerator.validateGLB. rewrite E0, E4, E8.
    cbn [mbind completion_bind JS.bind try_catch].
    rewrite (Z.mod_small (Z.of_nat (length buf))) by lia.
    change (GLB_MAGIC mod 2 ^ 32) with GLB_MAGIC.
    change (GLB_VERSION mod 2 ^ 32) with GLB_VERSION.
    rewrite !Z.eqb_refl. cbn [negb]. eauto.
  - intros r Hr Hv. unfold GLBGenerator.validateGLB in Hr.
    destruct (getUint32 msg buf 0) as [magic|];
      cbn [mbind completion_bind JS.bind try_catch] in Hr;
      [|by simplify_eq].
    destruct (negb (magic =? GLB_MAGIC));
      cbn [mbind completion_bind JS.bind try_catch] in Hr; [by simplify_eq|].
    destruct (getUint32 msg buf 4) as [version|];
      cbn [mbind completion_bind JS.bind try_catch] in Hr;
      [|by simplify_eq].
    destruct (negb (version =? GLB_VERSION));
      cbn [mbind completion_bind JS.bind try_catch] in Hr; [by simplify_eq|].
    destruct (getUint32 msg buf 8) as [total|];
      cbn [mbind completion_bind JS.bind try_catch] in Hr;
      [|by simplify_eq].
    destruct (negb (total =? Z.of_nat (length buf)));
      cbn [mbind completion_bind JS.bind try_catch] in Hr; by simplify_eq.
Qed.

Lemma validateGLB_accepts_exactly_witness :
  Forall is_byte bare_header /\
  ((exists r, GLBGenerator.validateGLB engine_message bare_header = Normal r /\
              valid r = true) <->
   (exists rest,
      bare_header = magic_bytes ++ version_bytes
                      ++ uint32_bytes_be (Z.of_nat (length bare_header)) ++ rest /\
      Z.of_nat (length bare_header) < 2 ^ 32)) /\
  (forall r, GLBGenerator.validateGLB engine_message bare_header = Normal r ->
             valid r = true -> size r = Some (length bare_header)).
Proof.
  assert (H : Forall is_byte bare_header)
    by (unfold bare_header, is_byte; repeat constructor; lia).
  split; [exact H|].
  apply (validateGLB_accepts_exactly engine_message bare_header H).
Defined.

(** X4: the checks run in order and the first failure is the answer. On a
    buffer of bytes with at least four bytes, a wrong magic number is
    reported as such whatever follows; with the right magic number and
    at least eight bytes, a version that is not 2 is reported as such
    whatever the length field says. *)
Theorem validateGLB_first_failure (msg : string) (buf : buffer) :
  Forall is_byte buf ->
  (4 <= length buf)%nat ->
  (take 4 buf <> magic_bytes ->
   GLBGenerator.validateGLB msg buf = Normal (invalid "Invalid GLB magic number")) /\
  (take 4 buf = magic_bytes -> (8 <= length buf)%nat ->
   take 4 (drop 4 buf) <> version_bytes ->
   GLBGenerator.validateGLB msg buf = Normal (invalid "Unsupported GLB version")).
Proof.
  intros Hb Hlen.
  destruct (getUint32_in_range msg buf 0 ltac:(lia)) as [magic E0].
  destruct (getUint32_bytes msg buf 0 _ Hb E0) as [H0 _]. rewrite drop_0 in H0.
  unfold GLBGenerator.validateGLB. rewrite E0.
  cbn [mbind completion_bind JS.bind try_catch]. split.
  - intros Hne. destruct (Z.eqb_spec magic GLB_MAGIC) as [->|_].
    + destruct Hne. exact H0.
    + reflexivity.
  - intros Hm Hlen8 Hne.
    destruct (Z.eqb_spec magic GLB_MAGIC) as [_|Hmagic].
    + cbn [negb].
      destruct (getUint32_in_range msg buf 4 ltac:(lia)) as [version E4].
      destruct (getUint32_bytes msg buf 4 _ Hb E4) as [H4 _].
      rewrite E4. cbn [mbind completion_bind JS.bind try_catch].
      destruct (Z.eqb_spec version GLB_VERSION) as [->|_].
      * destruct Hne. exact H4.
      * reflexivity.
    + destruct Hmagic.
      destruct (getUint32_bytes msg buf 0 _ Hb E0) as [_ Hr].
      rewrite Hm in H0.
      assert (E : uint32_bytes_be magic = uint32_bytes_be GLB_MAGIC)
        by (rewrite <- H0; reflexivity).
      unfold uint32_bytes_be in E.
      rewrite (Z.mod_small magic) in E by exact Hr.
      change (GLB_MAGIC mod 2 ^ 32) with GLB_MAGIC in E.
      pose proof (uint32_be_value magic) as Vm. cbv zeta in Vm.
      rewrite (Z.mod_small magic) in Vm by exact Hr.
      injection E as E0' E1' E2' E3'.
      rewrite E0', E1', E2', E3' in Vm. rewrite <- Vm. reflexivity.
Qed.

Lemma validateGLB_first_failure_witness :
  (Forall is_byte flipped_magic /\ (4 <= length flipped_magic)%nat) /\
  (take 4 flipped_magic <> magic_bytes ->
   GLBGenerator.validateGLB engine_message flipped_magic
   = Normal (invalid "Invalid GLB magic number")) /\
  (take 4 flipped_magic = magic_bytes -> (8 <= length flipped_magic)%nat ->
   take 4 (drop 4 flipped_magic) <> version_bytes ->
   GLBGenerator.validateGLB engine_message flipped_magic
   = Normal (invalid "Unsupported GLB version")).
Proof.
  assert (H : Forall is_byte flipped_magic)
    by (unfold flipped_magic, is_byte; repeat constructor; lia).
  assert (L : (4 <= length flipped_magic)%nat) by (cbn; lia).
  split; [split; [exact H|exact L]|].
  apply (validateGLB_first_failure engine_message flipped_magic H L).
Defined.

Lemma getUint32_header msg (header rest : buffer) off :
  (off + 4 <= length header)%nat ->
  getUint32 msg (header ++ rest) off = getUint32 msg header off.
Proof.
  intros H. unfold getUint32. rewrite !lookup_app_l by lia. reflexivity.
Qed.

(** X5: the validator reads the twelve header bytes and the length of the
    buffer, nothing else: two buffers with the same header and the same
    length get the same answer, whatever their chunks hold. *)
Theorem validateGLB_reads_header_only (msg : string) (header rest rest' : buffer) :
  length header = 12%nat ->
  length rest = length rest' ->
  GLBGenerator.validateGLB msg (header ++ rest)
  = GLBGenerator.validateGLB msg (header ++ rest').
Proof.
  intros Hh Hr. unfold GLBGenerator.validateGLB.
  rewrite !getUint32_header by lia. rewrite !length_app, Hr. reflexivity.
Qed.

Lemma validateGLB_reads_header_only_witness :
  (length bare_header = 12%nat /\ length [1; 2; 3] = length [7; 8; 9]) /\
  GLBGenerator.validateGLB engine_message (bare_header ++ [1; 2; 3])
  = GLBGenerator.validateGLB engine_message (bare_header ++ [7; 8; 9]).
Proof.
  split; [split; reflexivity|].
  apply (validateGLB_reads_header_only engine_message bare_header); reflexivity.
Defined.

End ValidatorMore.

(** ** More on the face mesh *)

Section MeshMore.
Import FaceMeshGenerator.

Lemma fan_from_length v0 rest :
  length (fan_from v0 rest) = (3 * (length rest - 1))%nat.
Proof.
  induction rest as [|a [|b rest'] IH]; cbn [fan_from length]; [done|done|].
  cbn [fan_from length] in IH. rewrite IH. lia.
Qed.

Lemma fan_length validIndices :
  length (fan validIndices) = (3 * (length validIndices - 2))%nat.
Proof.
  unfold fan. case_decide as H.
  - destruct validIndices as [|v0 rest]; [done|].
    rewrite fan_from_length. cbn [length]. lia.
  - cbn [length]. lia.
Qed.

(** X6: a region whose list keeps [m] indices below the number of
    landmarks gives [m - 2] triangles, and none when [m] is less than
    three. *)
Theorem region_triangles_count (n : nat) (regionIndices : list nat) :
  length (region_triangles n regionIndices)
  = (3 * (length (filter (fun i => (i < n)%nat) regionIndices) - 2))%nat.
Proof. apply fan_length. Qed.

Lemma loop_values_elem fuel start stop i :
  i ∈ loop_values fuel start stop ->
  (exists q, i = (start + q * step)%nat) /\ Z.of_nat i < stop.
Proof.
  revert start. induction fuel as [|fuel IH]; intros start; cbn [loop_values].
  - intros H. by apply elem_of_nil in H.
  - destruct (Z.ltb_spec (Z.of_nat start) stop) as [Hlt|_].
    + intros [->|H]%elem_of_cons.
      * split; [exists 0%nat; lia|done].
      * destruct (IH _ H) as [[q ->] Hs]. split; [exists (S q); lia|done].
    + intros H. by apply elem_of_nil in H.
Qed.

Lemma candidate_triangle (landmarks : list Landmark) i j :
  (i mod 5 = 0)%nat -> (j mod 5 = 0)%nat -> (i < j)%nat ->
  exists tris,
    candidate landmarks i j = flatten_triangles tris /\
    Forall (proximity_triangle landmarks) tris.
Proof.
  intros Hi Hj Hij. unfold candidate.
  case_decide as Hk; [|by exists []].
  destruct (landmarks !! i) as [p1|] eqn:E1; [|by exists []].
  destruct (landmarks !! j) as [p2|] eqn:E2; [|by exists []].
  destruct (landmarks !! (j + step)%nat) as [p3|] eqn:E3; [|by exists []].
  destruct (lt (dist p1 p2) (decimal 2 1)) eqn:D12; [|by exists []].
  destruct (lt (dist p2 p3) (decimal 2 1)) eqn:D23; [|by exists []].
  destruct (lt (dist p3 p1) (decimal 2 1)) eqn:D31; [|by exists []].
  exists [(i, j, (j + step)%nat)]. split; [reflexivity|].
  constructor; [|constructor].
  unfold proximity_triangle, step in *. repeat split; try done.
  exists p1, p2, p3. done.
Qed.

Lemma flatten_triangles_app t1 t2 :
  flatten_triangles (t1 ++ t2) = flatten_triangles t1 ++ flatten_triangles t2.
Proof. unfold flatten_triangles. apply flat_map_app. Qed.

(** Triangles gathered over a loop. *)
Lemma flat_map_triangles {A} (P : nat * nat * nat -> Prop) (f : A -> list nat)
    (l : list A) :
  (forall a, a ∈ l ->
     exists tris, f a = flatten_triangles tris /\ Forall P tris) ->
  exists tris, flat_map f l = flatten_triangles tris /\ Forall P tris.
Proof.
  induction l as [|a l IH]; intros H.
  - by exists [].
  - destruct (H a ltac:(left)) as (t1 & E1 & F1).
    destruct IH as (t2 & E2 & F2); [intros b Hb; apply H; by right|].
    exists (t1 ++ t2). cbn [flat_map].
    rewrite flatten_triangles_app, E1, E2. split; [done|].
    by apply Forall_app.
Qed.

Lemma proximity_pass (landmarks : list Landmark) :
  exists tris,
    flat_map (fun i =>
      flat_map (fun j => candidate landmarks i j)
               (loop_values (length landmarks) (i + step)
                  (Z.of_nat (length landmarks) - Z.of_nat step)))
      (loop_values (length landmarks) 0
         (Z.of_nat (length landmarks) - Z.of_nat step))
    = flatten_triangles tris /\
    Forall (proximity_triangle landmarks) tris.
Proof.
  apply flat_map_triangles.
  intros i Hi. destruct (loop_values_elem _ _ _ _ Hi) as [[q Hq] _].
  apply flat_map_triangles. intros j Hj.
  destruct (loop_values_elem _ _ _ _ Hj) as [[q' Hq'] _].
  unfold step in *.
  apply candidate_triangle.
  - subst i. cbn [Nat.add]. apply Nat.Div0.mod_mul.
  - subst j i. replace (0 + q * 5 + 5 + q' * 5)%nat with ((q + 1 + q') * 5)%nat by lia.
    apply Nat.Div0.mod_mul.
  - lia.
Qed.

(** X7: the proximity pass only appends. What it appends is a list of
    triangles [(i, j, k)] whose indices lie on the stride of five, with
    [i < j], [k = j + 5] inside the array, and whose three pairs of
    landmarks passed the distance test. *)
Theorem addGeneralFaceTriangulation_triangles
    (indices : list nat) (landmarks : list Landmark) :
  exists tris,
    addGeneralFaceTriangulation indices landmarks
    = indices ++ flatten_triangles tris /\
    Forall (proximity_triangle landmarks) tris.
Proof.
  unfold addGeneralFaceTriangulation. cbv zeta.
  destruct (proximity_pass landmarks) as (tris & E & F).
  exists tris. by rewrite E.
Qed.

Lemma flatten_triangles_length tris :
  length (flatten_triangles tris) = (3 * length tris)%nat.
Proof.
  unfold flatten_triangles. induction tris as [|t tris IH]; [done|].
  cbn [flat_map app length]. rewrite IH. lia.
Qed.

Lemma region_part_length (n : nat) (regions : list (list nat)) :
  exists t, length (flat_map (region_triangles n) regions) = (3 * t)%nat.
Proof.
  induction regions as [|r regions [t IH]]; [by exists 0%nat|].
  cbn [flat_map]. unfold region_triangles at 1.
  rewrite length_app, fan_length, IH.
  eexists. rewrite <- Nat.mul_add_distr_l. reflexivity.
Qed.

Lemma createFaceIndices_length (landmarks : list Landmark) :
  (length (createFaceIndices landmarks) mod 3 = 0)%nat.
Proof.
  unfold createFaceIndices, addGeneralFaceTriangulation. cbv zeta.
  destruct (proximity_pass landmarks) as (tris & -> & _).
  destruct (region_part_length (length landmarks) faceRegions) as [t Ht].
  rewrite length_app, Ht, flatten_triangles_length, <- Nat.mul_add_distr_l.
  rewrite Nat.mul_comm. apply Nat.Div0.mod_mul.
Qed.

Lemma uv_length (landmarks : list Landmark) :
  length (fround <$> flat_map uv_of landmarks) = (length landmarks * 2)%nat.
Proof.
  rewrite length_fmap. induction landmarks as [|l ls IH]; cbn; [done|].
  rewrite IH. lia.
Qed.

(** X8: [createFaceGeometry] on any face data. With no view at all it
    throws "No face landmarks available". Otherwise it returns, for the
    first view present (front, else left, else right) and whatever the
    number [n] of its landmarks, a geometry with [3 n] positions and
    [2 n] texture coordinates, whose index list is a whole number of
    triangles with every index below [n]. *)
Theorem createFaceGeometry_shape (views : Views) :
  match primary views with
  | None => createFaceGeometry views = Throw "No face landmarks available"
  | Some landmarks =>
      exists g,
        createFaceGeometry views = Normal g /\
        length (position g) = (length landmarks * 3)%nat /\
        length (uv g) = (length landmarks * 2)%nat /\
        (length (index g) mod 3 = 0)%nat /\
        Forall (fun i => (i < length landmarks)%nat) (index g)
  end.
Proof.
  unfold primary, createFaceGeometry.
  destruct (or_else (or_else (front views) (left views)) (right views))
    as [landmarks|]; [|reflexivity].
  eexists. split; [reflexivity|]. cbn [position uv index].
  split; [apply position_length|]. split; [apply uv_length|].
  split; [apply createFaceIndices_length|].
  by apply createFaceIndices_below.
Qed.

Lemma filter_all (n : nat) (l : list nat) :
  Forall (fun i => (i < n)%nat) l -> filter (fun i => (i < n)%nat) l = l.
Proof.
  induction 1 as [|i l Hi _ IH]; [done|].
  rewrite filter_cons_True by done. by rewrite IH.
Qed.

Lemma region_part_full (n : nat) :
  (467 <= n)%nat ->
  flat_map (region_triangles n) faceRegions = flat_map fan faceRegions.
Proof.
  intros Hn.
  assert (H : Forall (Forall (fun i => (i < 467)%nat)) faceRegions).
  { unfold faceRegions, faceContour, leftEyebrow, rightEyebrow, leftEye,
      rightEye, nose, mouth.
    repeat match goal with
           | |- Forall _ [] => apply Forall_nil_2
           | |- Forall _ (_ :: _) => apply Forall_cons_2
           end; lia. }
  induction H as [|r rs Hr _ IH]; [done|].
  cbn [flat_map]. rewrite IH. f_equal.
  unfold region_triangles. rewrite filter_all; [done|].
  eapply Forall_impl; [exact Hr|]. cbn. lia.
Qed.

Lemma distinctb_spec t : distinctb t = true -> distinct_vertices t.
Proof.
  unfold distinctb, distinct_vertices.
  rewrite !andb_true_iff, !negb_true_iff, !Nat.eqb_neq. tauto.
Qed.

Lemma region_part_distinct :
  exists tris,
    flat_map fan faceRegions = flatten_triangles tris /\
    Forall distinct_vertices tris.
Proof.
  exists (chunk3 (flat_map fan faceRegions)). split.
  - vm_compute. reflexivity.
  - apply Forall_forall. intros t Ht.
    apply distinctb_spec.
    assert (H : forallb distinctb (chunk3 (flat_map fan faceRegions)) = true)
      by (vm_compute; reflexivity).
    rewrite forallb_forall in H. apply H. by apply list_elem_of_In.
Qed.

(** X9: with every landmark of the tables present (at least 467
    landmarks), the index list is a list of triangles none of which
    names a vertex twice. *)
Theorem createFaceIndices_distinct_vertices (landmarks : list Landmark) :
  (467 <= length landmarks)%nat ->
  exists tris,
    createFaceIndices landmarks = flatten_triangles tris /\
    Forall distinct_vertices tris.
Proof.
  intros Hn. unfold createFaceIndices. rewrite region_part_full by done.
  destruct region_part_distinct as (t1 & -> & F1).
  unfold addGeneralFaceTriangulation. cbv zeta.
  destruct (proximity_pass landmarks) as (t2 & -> & F2).
  exists (t1 ++ t2). rewrite flatten_triangles_app. split; [done|].
  apply Forall_app. split; [done|].
  eapply Forall_impl; [exact F2|].
  intros [[i j] k]. unfold proximity_triangle, distinct_vertices. cbn.
  intros (_ & _ & Hij & -> & _). lia.
Qed.

Lemma createFaceIndices_distinct_vertices_witness :
  (467 <= length (replicate 468 centre))%nat /\
  exists tris,
    createFaceIndices (replicate 468 centre) = flatten_triangles tris /\
    Forall distinct_vertices tris.
Proof.
  assert (H : (467 <= length (replicate 468 centre))%nat)
    by (rewrite length_replicate; lia).
  split; [exact H|].
  apply (createFaceIndices_distinct_vertices (replicate 468 centre) H).
Defined.

(** With three landmarks only, the nose region keeps the indices 1, 2, 2
    and gives one triangle that names vertex 2 twice. *)
Example createFaceIndices_3 :
  createFaceIndices (replicate 3 centre) = [1; 2; 2]%nat.
Proof. vm_compute. reflexivity. Qed.

End MeshMore.

(** ** More on the expressions *)

Section ExpressionMore.
Import FaceMeshGenerator.

Lemma y_slot_elem (indices : list nat) (k : nat) :
  k ∈ y_slots indices -> (k mod 3 = 1)%nat /\ (k / 3)%nat ∈ indices.
Proof.
  unfold y_slots. intros (i & -> & Hi)%list_elem_of_fmap.
  replace (i * 3 + 1)%nat with (1 + i * 3)%nat by lia.
  rewrite Nat.Div0.mod_add, Nat.div_add by lia.
  split; [reflexivity|exact Hi].
Qed.

Lemma y_slot_intro (indices : list nat) (i : nat) :
  i ∈ indices -> (i * 3 + 1)%nat ∈ y_slots indices.
Proof.
  intros Hi. unfold y_slots. apply list_elem_of_fmap. exists i. done.
Qed.

Lemma move_other op indices p o k :
  k ∉ y_slots indices -> move op indices p o !! k = p !! k.
Proof.
  intros Hk. rewrite move_lookup, bool_decide_eq_false_2 by done. reflexivity.
Qed.

Lemma move_hit op indices p o i v :
  i ∈ indices -> o !! (i * 3 + 1)%nat = Some v ->
  (i * 3 + 1 < length p)%nat ->
  move op indices p o !! (i * 3 + 1)%nat = Some (fround (op v)).
Proof.
  intros Hi Hv Hlt. rewrite move_lookup, Hv.
  rewrite !bool_decide_eq_true_2 by (done || by apply y_slot_intro).
  reflexivity.
Qed.

(** Each step of [applyExpressions], taken or not, keeps the length and
    the slots outside its own list. *)
Lemma smile_step e P o :
  length (if smile e then applySmile P o else P) = length P /\
  forall k, k ∉ y_slots mouthCornerIndices ->
            (if smile e then applySmile P o else P) !! k = P !! k.
Proof.
  destruct (smile e); [|done]. rewrite applySmile_move.
  split; [apply move_length|]. intros k. apply move_other.
Qed.

Lemma frown_step e P o :
  length (if frown e then applyFrown P o else P) = length P /\
  forall k, k ∉ y_slots mouthCornerIndices ->
            (if frown e then applyFrown P o else P) !! k = P !! k.
Proof.
  destruct (frown e); [|done]. rewrite applyFrown_move.
  split; [apply move_length|]. intros k. apply move_other.
Qed.

Lemma eyebrows_step e P o :
  length (if raisedEyebrows e then applyRaisedEyebrows P o else P) = length P /\
  forall k, k ∉ y_slots eyebrowIndices ->
            (if raisedEyebrows e then applyRaisedEyebrows P o else P) !! k = P !! k.
Proof.
  destruct (raisedEyebrows e); [|done]. rewrite applyRaisedEyebrows_move.
  split; [apply move_length|]. intros k. apply move_other.
Qed.

Lemma squint_step e P o :
  length (if squint e then applySquint P o else P) = length P /\
  forall k, k ∉ y_slots eyeIndices ->
            (if squint e then applySquint P o else P) !! k = P !! k.
Proof.
  destruct (squint e); [|done]. rewrite applySquint_move.
  split; [apply move_length|]. intros k. apply move_other.
Qed.

(** [deform] as its four steps in a row. *)
Lemma deform_four_steps (e : Expressions) (p : list number) :
  deform e p
  = let p1 := if smile e then applySmile p p else p in
    let p2 := if frown e then applyFrown p1 p else p1 in
    let p3 := if raisedEyebrows e then applyRaisedEyebrows p2 p else p2 in
    if squint e then applySquint p3 p else p3.
Proof. unfold deform. reflexivity. Qed.

Lemma deform_length (e : Expressions) (p : list number) :
  length (deform e p) = length p.
Proof.
  rewrite deform_four_steps. cbv zeta.
  rewrite (proj1 (squint_step e _ p)), (proj1 (eyebrows_step e _ p)),
    (proj1 (frown_step e _ p)). apply smile_step.
Qed.

Lemma deform_other (e : Expressions) (p : list number) (k : nat) :
  k ∉ y_slots mouthCornerIndices -> k ∉ y_slots eyebrowIndices ->
  k ∉ y_slots eyeIndices ->
  deform e p !! k = p !! k.
Proof.
  intros Hm Hb He. rewrite deform_four_steps. cbv zeta.
  rewrite (proj2 (squint_step e _ p)) by done.
  rewrite (proj2 (eyebrows_step e _ p)) by done.
  rewrite (proj2 (frown_step e _ p)) by done.
  by apply smile_step.
Qed.

(** X10: a call of [applyExpressions] never changes the length of the
    position buffer, never changes an X or a Z coordinate, and never
    changes the Y of a vertex outside the mouth corner, eyebrow and eye
    lists, whatever the flags and the state of the generator. *)
Theorem applyExpressions_touches_targets_only (e : Expressions) (this : Generator) :
  length (positions_of (applyExpressions e this)) = length (positions_of this) /\
  forall k : nat,
    (k mod 3 <> 1)%nat \/ (k / 3)%nat ∉ expression_targets ->
    positions_of (applyExpressions e this) !! k = positions_of this !! k.
Proof.
  destruct (has_mesh this) eqn:Hm; [|unfold applyExpressions; rewrite Hm; auto].
  destruct (geometry this) as [g|] eqn:Hg;
    [|unfold applyExpressions; rewrite Hm, Hg; auto].
  rewrite (positions_of_applyExpressions e this g Hm Hg).
  unfold positions_of. rewrite Hg.
  split; [apply deform_length|]. intros k Hk.
  apply deform_other; intros [Hmod Hin]%y_slot_elem;
    (destruct Hk as [Hk|Hk]; [done|]);
    apply Hk; unfold expression_targets; rewrite !elem_of_app; auto.
Qed.

Lemma eyebrow_not_eye index :
  index ∈ eyebrowIndices -> index ∉ eyeIndices.
Proof.
  intros Hb He.
  assert (H : forallb (fun i => negb (bool_decide (i ∈ eyeIndices))) eyebrowIndices
              = true) by (vm_compute; reflexivity).
  rewrite forallb_forall in H. apply list_elem_of_In in Hb.
  specialize (H index Hb). apply negb_true_iff in H.
  by apply bool_decide_eq_false in H.
Qed.

(** X11: the eyebrow and eye rules do not depend on the other flags. With
    [raisedEyebrows] set, the Y of every eyebrow vertex in the buffer
    becomes the float32 of its original Y plus 0.03; with [squint] set,
    the Y of every eye vertex becomes the float32 of its original Y minus
    0.02; in both cases whatever the other three flags are. *)
Theorem eyebrow_and_eye_rules_independent
    (e : Expressions) (this : Generator) (g : BufferGeometry)
    (index : nat) (v : number) :
  has_mesh this = true -> geometry this = Some g ->
  position g !! (index * 3 + 1)%nat = Some v ->
  (raisedEyebrows e = true -> index ∈ eyebrowIndices ->
   positions_of (applyExpressions e this) !! (index * 3 + 1)%nat
   = Some (fround (add v (decimal 3 2)))) /\
  (squint e = true -> index ∈ eyeIndices ->
   positions_of (applyExpressions e this) !! (index * 3 + 1)%nat
   = Some (fround (sub v (decimal 2 2)))).
Proof.
  intros Hm Hg Hv. rewrite (positions_of_applyExpressions e this g Hm Hg).
  assert (Hlt : (index * 3 + 1 < length (position g))%nat)
    by (eapply lookup_lt_Some; eauto).
  rewrite deform_four_steps. cbv zeta. split.
  - intros Hr Hi.
    rewrite (proj2 (squint_step e _ (position g))).
    2:{ intros [_ Hin]%y_slot_elem.
        replace (index * 3 + 1)%nat with (1 + index * 3)%nat in Hin by lia.
        rewrite Nat.div_add in Hin by lia.
        by apply (eyebrow_not_eye index). }
    rewrite Hr, applyRaisedEyebrows_move.
    apply (move_hit (fun v => add v (decimal 3 2))); [done|done|].
    by rewrite (proj1 (frown_step e _ (position g))),
         (proj1 (smile_step e _ (position g))).
  - intros Hs Hi. rewrite Hs, applySquint_move.
    apply (move_hit (fun v => sub v (decimal 2 2))); [done|done|].
    by rewrite (proj1 (eyebrows_step e _ (position g))),
         (proj1 (frown_step e _ (position g))),
         (proj1 (smile_step e _ (position g))).
Qed.

Lemma eyebrow_and_eye_rules_independent_witness :
  (has_mesh rest_pose = true /\
   positions_of rest_pose !! (70 * 3 + 1)%nat = Some (of_Z 0)) /\
  (raisedEyebrows all_flags = true -> 70%nat ∈ eyebrowIndices ->
   positions_of (applyExpressions all_flags rest_pose) !! (70 * 3 + 1)%nat
   = Some (fround (add (of_Z 0) (decimal 3 2)))) /\
  (squint all_flags = true -> 70%nat ∈ eyeIndices ->
   positions_of (applyExpressions all_flags rest_pose) !! (70 * 3 + 1)%nat
   = Some (fround (sub (of_Z 0) (decimal 2 2)))).
Proof.
  split; [split; reflexivity|].
  apply (eyebrow_and_eye_rules_independent all_flags rest_pose
           {| position := replicate (468 * 3) (of_Z 0); uv := []; index := [] |}
           70%nat (of_Z 0)); reflexivity.
Defined.

(** All four flags at once on the rest pose: mouth corners go down by
    0.05 (frown wins), eyebrows up by 0.03, eyes down by 0.02. *)
Example applyExpressions_all_flags :
  positions_of (applyExpressions all_flags rest_pose) !! (61 * 3 + 1)%nat
  = Some (fround (neg (decimal 5 2))) /\
  positions_of (applyExpressions all_flags rest_pose) !! (70 * 3 + 1)%nat
  = Some (fround (decimal 3 2)) /\
  positions_of (applyExpressions all_flags rest_pose) !! (33 * 3 + 1)%nat
  = Some (fround (neg (decimal 2 2))).
Proof. vm_compute. auto. Qed.

End ExpressionMore.

(** ** The mesh built from the model's output *)

Section ModelMesh.
Import ONNXAvatarModel.

Lemma topology_from_seq (numVertices : nat) :
  forall fuel i : nat,
    ((numVertices - i) / 3 <= fuel)%nat ->
    topology_from fuel i (Z.of_nat numVertices)
    = seq i (3 * ((numVertices - i) / 3)).
Proof.
  induction fuel as [|fuel IH]; intros i Hf.
  - assert (E : ((numVertices - i) / 3 = 0)%nat) by lia. rewrite E. reflexivity.
  - cbn [topology_from].
    destruct (Z.ltb_spec (Z.of_nat i) (Z.of_nat numVertices - 2)) as [Hlt|Hge].
    + assert (E : (numVertices - i = numVertices - (i + 3) + 1 * 3)%nat) by lia.
      rewrite E, Nat.div_add in * by lia.
      rewrite IH by lia.
      replace (3 * ((numVertices - (i + 3)) / 3 + 1))%nat
        with (S (S (S (3 * ((numVertices - (i + 3)) / 3))))) by lia.
      cbn [seq]. repeat f_equal; lia.
    + rewrite Nat.div_small by lia. reflexivity.
Qed.

Lemma generateFaceTopology_eq (numVertices : nat) :
  generateFaceTopology numVertices = seq 0 (3 * (numVertices / 3)).
Proof.
  unfold generateFaceTopology. rewrite topology_from_seq.
  - by rewrite Nat.sub_0_r.
  - rewrite Nat.sub_0_r. apply Nat.Div0.div_le_upper_bound. lia.
Qed.

(** X12: the face topology is the run of indices [0, 1, 2, ...] cut off at
    the last whole triangle: it has [numVertices / 3] triangles, names no
    vertex twice, and names only vertices that exist. *)
Theorem generateFaceTopology_seq (numVertices : nat) :
  generateFaceTopology numVertices = seq 0 (3 * (numVertices / 3)) /\
  NoDup (generateFaceTopology numVertices) /\
  Forall (fun f => (f < numVertices)%nat) (generateFaceTopology numVertices).
Proof.
  rewrite generateFaceTopology_eq. split; [done|]. split; [apply NoDup_seq|].
  apply Forall_forall. intros f Hf%elem_of_seq.
  pose proof (Nat.Div0.mul_div_le numVertices 3). lia.
Qed.

Lemma write_in_range (normals : jsarray) (i : option nat) x :
  (forall k, i = Some k -> (k < length normals)%nat) ->
  length (write normals i x) = length normals.
Proof.
  intros H. unfold write. destruct i as [k|]; [|done].
  rewrite decide_True by (by apply H). apply length_insert.
Qed.

Lemma add_assign_length (L : nat) (normals : jsarray) (i : option nat) x :
  (forall k, i = Some k -> (k < L)%nat) ->
  length normals = L ->
  length (add_assign normals i x) = L.
Proof.
  intros H Hl. unfold add_assign. rewrite write_in_range; [done|].
  intros k Hk. rewrite Hl. by apply H.
Qed.

Lemma slot_in_range (f : option nat) (j n : nat) :
  (forall f', f = Some f' -> (f' < n)%nat) -> (j < 3)%nat ->
  forall k, plus (times3 f) j = Some k -> (k < 3 * n)%nat.
Proof.
  intros Hf Hj k. destruct f as [f'|]; [|discriminate].
  cbn. intros [= <-]. specialize (Hf f' eq_refl). lia.
Qed.

Lemma first_slot_in_range (f : option nat) (n : nat) :
  (forall f', f = Some f' -> (f' < n)%nat) ->
  forall k, times3 f = Some k -> (k < 3 * n)%nat.
Proof.
  intros Hf k. destruct f as [f'|]; [|discriminate].
  cbn. intros [= <-]. specialize (Hf f' eq_refl). lia.
Qed.

Lemma accumulate_face_length vertices (normals : jsarray) f1 f2 f3 (n : nat) :
  (forall f, f1 = Some f -> (f < n)%nat) ->
  (forall f, f2 = Some f -> (f < n)%nat) ->
  (forall f, f3 = Some f -> (f < n)%nat) ->
  length normals = (3 * n)%nat ->
  length (accumulate_face vertices normals f1 f2 f3) = (3 * n)%nat.
Proof.
  intros H1 H2 H3 Hl. unfold accumulate_face. cbv zeta.
  repeat (apply add_assign_length;
          [first [apply slot_in_range; [assumption|lia]
                 |apply first_slot_in_range; assumption]|]).
  exact Hl.
Qed.

Lemma normalize_all_length (n : nat) : forall normals : jsarray,
  (length normals <= n)%nat -> length (normalize_all normals) = length normals.
Proof.
  induction n as [|n IH]; intros normals Hn.
  - destruct normals; [done|cbn in Hn; lia].
  - destruct normals as [|a [|b [|c rest]]]; try done.
    cbn [normalize_all]. rewrite length_app, normalize3_length, IH; [done|].
    cbn [length] in Hn. lia.
Qed.

Lemma accumulate_length (vertices : list number) (faces : list nat) (n : nat) :
  Forall (fun f => (f < n)%nat) faces ->
  forall normals : jsarray,
    length normals = (3 * n)%nat ->
    length (accumulate vertices faces normals) = (3 * n)%nat.
Proof.
  intros Hf normals Hl. unfold accumulate.
  apply (for_each_face_invariant (accumulate_face vertices)
           (fun normals : jsarray => length normals = (3 * n)%nat)
           (fun f => forall f', f = Some f' -> (f' < n)%nat) ltac:(discriminate))
    with (n := length faces).
  - intros s f1 f2 f3 H1 H2 H3 Hs. by apply accumulate_face_length.
  - lia.
  - intros f Hin f' [= <-]. rewrite Forall_forall in Hf. by apply Hf.
  - exact Hl.
Qed.

(** X13: when every face index names a vertex that exists, the normal
    array has exactly one entry per vertex coordinate: no store falls
    outside the array, so it does not grow. *)
Theorem calculateNormals_length (vertices : list number) (faces : list nat) (n : nat) :
  length vertices = (3 * n)%nat ->
  Forall (fun f => (f < n)%nat) faces ->
  length (calculateNormals vertices faces) = length vertices.
Proof.
  intros Hv Hf. unfold calculateNormals.
  rewrite (normalize_all_length _ _ (Nat.le_refl _)).
  rewrite (accumulate_length vertices faces n Hf); [lia|].
  rewrite length_replicate. exact Hv.
Qed.

Lemma calculateNormals_length_witness :
  (length tri_vertices = (3 * 4)%nat /\ Forall (fun f => (f < 4)%nat) tri_faces) /\
  length (calculateNormals tri_vertices tri_faces) = length tri_vertices.
Proof.
  assert (H : Forall (fun f => (f < 4)%nat) tri_faces)
    by (unfold tri_faces; repeat apply Forall_cons_2; try apply Forall_nil_2; lia).
  split; [split; [reflexivity|exact H]|].
  apply (calculateNormals_length tri_vertices tri_faces 4 eq_refl H).
Defined.

Lemma flat_map_length_const {A B} (f : A -> list B) (k : nat) (l : list A) :
  (forall a, length (f a) = k) -> length (flat_map f l) = (k * length l)%nat.
Proof.
  intros Hf. induction l as [|a l IH]; cbn [flat_map length]; [lia|].
  rewrite length_app, Hf, IH. lia.
Qed.

(** X14: for every landmark list the mesh is well shaped: three vertex
    coordinates and two texture coordinates per landmark, the faces are
    the whole triangles of the run [0, 1, 2, ...], every face index names
    a landmark, and there is one normal entry per vertex coordinate. *)
Theorem generate3DMesh_shape (landmarks : list Landmark) :
  let mesh := generate3DMesh landmarks in
  let n := length landmarks in
  length (vertices mesh) = (3 * n)%nat /\
  length (uvs mesh) = (2 * n)%nat /\
  faces mesh = seq 0 (3 * (n / 3)) /\
  Forall (fun f => (f < n)%nat) (faces mesh) /\
  length (normals mesh) = (3 * n)%nat.
Proof.
  intros mesh n. subst mesh. unfold generate3DMesh. cbv zeta.
  cbn [vertices uvs faces normals].
  assert (Hv : length (flat_map (fun landmark => [x landmark; y landmark; z landmark])
                         landmarks) = (3 * n)%nat)
    by (by apply flat_map_length_const).
  assert (Hf : Forall (fun f => (f < n)%nat) (generateFaceTopology n)).
  { rewrite generateFaceTopology_eq. apply Forall_forall.
    intros f Hf%elem_of_seq. pose proof (Nat.Div0.mul_div_le n 3). lia. }
  split; [exact Hv|]. split; [by apply flat_map_length_const|].
  split; [apply generateFaceTopology_eq|]. split; [exact Hf|].
  unfold calculateNormals.
  rewrite (normalize_all_length _ _ (Nat.le_refl _)).
  apply accumulate_length; [exact Hf|].
  by rewrite length_replicate, length_fmap.
Qed.

Lemma fmap_id_ext {A} (f : A -> A) (l : list A) :
  (forall a, f a = a) -> f <$> l = l.
Proof. intros Hf. induction l as [|a l IH]; cbn; [done|]. by rewrite Hf, IH. Qed.

Lemma flat_map_fmap {A B C} (f : B -> list C) (g : A -> B) (l : list A) :
  flat_map f (g <$> l) = flat_map (fun a => f (g a)) l.
Proof. induction l as [|a l IH]; cbn; [done|]. by rewrite IH. Qed.

Lemma flat_map_triples {A} (g : nat -> A) (b : nat) : forall n s : nat,
  flat_map (fun i => [g (b + i * 3); g (b + i * 3 + 1); g (b + i * 3 + 2)])%nat
           (seq s n)
  = g <$> seq (b + s * 3) (3 * n).
Proof.
  induction n as [|n IH]; intros s.
  - rewrite Nat.mul_0_r. reflexivity.
  - replace (3 * S n)%nat with (S (S (S (3 * n)))) by lia.
    cbn [seq flat_map app fmap list_fmap]. rewrite IH.
    repeat f_equal; lia.
Qed.

Lemma lookups_take_drop {A} (l : list A) (b m : nat) :
  (b + m <= length l)%nat ->
  (fun k => l !! k) <$> seq b m = Some <$> take m (drop b l).
Proof.
  intros Hl. apply list_eq. intros i.
  rewrite !list_lookup_fmap.
  destruct (decide (i < m)%nat) as [Hi|Hi].
  - rewrite lookup_seq_lt by done. rewrite lookup_take_lt by done.
    rewrite lookup_drop. cbn.
    destruct (lookup_lt_is_Some_2 l (b + i)) as [v Hv]; [lia|].
    by rewrite Hv.
  - rewrite lookup_seq_ge by lia. rewrite lookup_take_ge by lia. done.
Qed.

(** X15: the landmarks of a batch entry carry that entry's slice of the
    output data: turned into a mesh, their vertex array is the 1404
    numbers of the slice, in order. *)
Theorem processModelOutput_vertices (outputData : list number) (batchSize batch : nat) :
  (batch < batchSize)%nat ->
  (1404 * batchSize <= length outputData)%nat ->
  exists faceLandmarks,
    processModelOutput outputData batchSize !! batch = Some faceLandmarks /\
    length faceLandmarks = 468%nat /\
    index <$> faceLandmarks = seq 0 468 /\
    vertices (generate3DMesh faceLandmarks)
    = Some <$> take 1404 (drop (1404 * batch) outputData).
Proof.
  intros Hb Hl. unfold processModelOutput.
  rewrite list_lookup_fmap, lookup_seq_lt by done. cbn [fmap option_fmap option_map].
  eexists. split; [reflexivity|].
  split; [by rewrite length_fmap, length_seq|].
  split.
  { rewrite <- list_fmap_compose. by apply fmap_id_ext. }
  unfold generate3DMesh. cbv zeta. cbn [vertices].
  rewrite flat_map_fmap. cbn [x y z]. unfold coordinatesPerLandmark, landmarksPerFace.
  rewrite (flat_map_triples (fun k => outputData !! k) (0 + batch * 468 * 3) 468 0).
  rewrite lookups_take_drop by lia.
  do 3 f_equal; lia.
Qed.

Lemma processModelOutput_vertices_witness :
  ((0 < 1)%nat /\ (1404 * 1 <= length one_face_output)%nat) /\
  exists faceLandmarks,
    processModelOutput one_face_output 1 !! 0%nat = Some faceLandmarks /\
    length faceLandmarks = 468%nat /\
    index <$> faceLandmarks = seq 0 468 /\
    vertices (generate3DMesh faceLandmarks)
    = Some <$> take 1404 (drop (1404 * 0) one_face_output).
Proof.
  assert (H : (1404 * 1 <= length one_face_output)%nat)
    by (apply Nat.leb_le; vm_compute; reflexivity).
  split; [split; [lia|exact H]|].
  apply (processModelOutput_vertices one_face_output 1 0 ltac:(lia) H).
Defined.

End ModelMesh.

(** ** The input tensor layout *)

Section TensorLayout.
Import ONNXAvatarModel.
Local Open Scope nat_scope.

Lemma foldl_bind {S A B} (g : S -> B -> S) (h : A -> list B) (l : list A) :
  forall s, foldl g s (l ≫= h) = foldl (fun s a => foldl g s (h a)) s l.
Proof.
  induction l as [|a l IH]; intros s; [done|].
  change ((a :: l) ≫= h) with (h a ++ (l ≫= h)).
  rewrite foldl_app. cbn [foldl]. apply IH.
Qed.

Lemma foldl_ext_eq {S A} (f g : S -> A -> S) (l : list A) :
  (forall s a, f s a = g s a) -> forall s, foldl f s l = foldl g s l.
Proof.
  intros Hfg. induction l as [|a l IH]; intros s; [done|].
  cbn [foldl]. rewrite Hfg. apply IH.
Qed.

Section Stores.
Context {A K : Type} (idx : K -> nat) (val : K -> A).

Let stores (l : list A) (ks : list K) : list A :=
  foldl (fun l k => <[idx k := val k]> l) l ks.

Lemma stores_length (ks : list K) : forall l, length (stores l ks) = length l.
Proof.
  unfold stores. induction ks as [|k ks IH]; intros l; [done|].
  cbn [foldl]. rewrite IH. apply length_insert.
Qed.

Lemma stores_lookup (ks : list K) : forall (l : list A) (k : K),
  k ∈ ks -> idx k < length l ->
  (forall k', k' ∈ ks -> idx k' = idx k -> val k' = val k) ->
  stores l ks !! idx k = Some (val k).
Proof.
  induction ks as [|k0 ks IH] using rev_ind; intros l k Hin Hlt Hsame.
  - by apply elem_of_nil in Hin.
  - unfold stores. rewrite foldl_app. cbn [foldl]. fold (stores l ks).
    destruct (decide (idx k0 = idx k)) as [E|E].
    + rewrite E. rewrite list_lookup_insert_eq by (by rewrite stores_length).
      f_equal. apply Hsame; [|done]. apply elem_of_app. right. apply list_elem_of_here.
    + rewrite list_lookup_insert_ne by done.
      apply IH; [|done|].
      * apply elem_of_app in Hin as [Hin|Hin]; [done|].
        apply list_elem_of_singleton in Hin. by subst.
      * intros k' Hk'. apply Hsame. apply elem_of_app. by left.
Qed.
End Stores.

Lemma mixed_radix_inj (n a b a' b' : nat) :
  b < n -> b' < n -> a * n + b = a' * n + b' -> a = a' /\ b = b'.
Proof.
  intros Hb Hb' E. destruct (Nat.lt_trichotomy a a') as [H|[H|H]].
  - pose proof (Nat.mul_le_mono_r (a + 1) a' n ltac:(lia)). lia.
  - subst a'. lia.
  - pose proof (Nat.mul_le_mono_r (a' + 1) a n ltac:(lia)). lia.
Qed.

Lemma reshapeToCHW_cells (imageData : list number) (height width : nat) :
  reshapeToCHW imageData height width
  = foldl (fun reshaped cell =>
             <[chwIndex height width cell
               := fround (of_element (imageData !! hwcIndex width cell))]> reshaped)
          (replicate (3 * (height * width)) (of_Z 0))
          (cells height width).
Proof.
  unfold reshapeToCHW, cells. cbv zeta.
  rewrite foldl_bind. apply foldl_ext_eq. intros s c.
  rewrite foldl_bind. apply foldl_ext_eq. intros s' h.
  rewrite foldl_bind. apply foldl_ext_eq. intros s'' w.
  reflexivity.
Qed.

Lemma elem_of_cells (height width c h w : nat) :
  (c, h, w) ∈ cells height width <-> c < 3 /\ h < height /\ w < width.
Proof.
  unfold cells. rewrite list_elem_of_bind. split.
  - intros (c' & Hc & Hc'). apply list_elem_of_bind in Hc as (h' & Hh & Hh').
    apply list_elem_of_bind in Hh as (w' & Hw & Hw').
    apply list_elem_of_singleton in Hw as [= -> -> ->].
    apply elem_of_seq in Hc', Hh', Hw'. lia.
  - intros (Hc & Hh & Hw). exists c. split; [|apply elem_of_seq; lia].
    apply list_elem_of_bind. exists h. split; [|apply elem_of_seq; lia].
    apply list_elem_of_bind. exists w. split; [|apply elem_of_seq; lia].
    apply list_elem_of_singleton. reflexivity.
Qed.

(** X16: the tensor has one entry per channel and pixel, and entry
    [(c, h, w)] of the channel-major tensor is entry [(h, w, c)] of the
    pixel-major image, rounded to single precision (NaN where the image
    is too short). *)
Theorem reshapeToCHW_cell (imageData : list number) (height width c h w : nat) :
  c < 3 -> h < height -> w < width ->
  length (reshapeToCHW imageData height width) = 3 * (height * width) /\
  reshapeToCHW imageData height width !! (c * (height * width) + h * width + w)
  = Some (fround (of_element (imageData !! ((h * width + w) * 3 + c)))).
Proof.
  intros Hc Hh Hw. rewrite reshapeToCHW_cells.
  split.
  { rewrite (stores_length (chwIndex height width)). apply length_replicate. }
  assert (Hp : forall h' w', h' < height -> w' < width ->
                             h' * width + w' < height * width) by (intros; nia).
  apply (stores_lookup (chwIndex height width)
           (fun cell => fround (of_element (imageData !! hwcIndex width cell)))
           (cells height width) _ (c, h, w)).
  - by apply elem_of_cells.
  - rewrite length_replicate. unfold chwIndex. cbn [fst snd].
    specialize (Hp h w Hh Hw). nia.
  - intros [[c' h'] w'] (Hc' & Hh' & Hw')%elem_of_cells E.
    unfold chwIndex in E. cbn [fst snd] in E.
    rewrite <- !Nat.add_assoc in E.
    apply mixed_radix_inj in E as [-> E]; [|by apply Hp..].
    apply mixed_radix_inj in E as [-> ->]; done.
Qed.

Lemma reshapeToCHW_cell_witness :
  (1 < 3 /\ 0 < 1 /\ 1 < 2) /\
  length (reshapeToCHW two_pixels 1 2) = 3 * (1 * 2) /\
  reshapeToCHW two_pixels 1 2 !! (1 * (1 * 2) + 0 * 2 + 1)
  = Some (fround (of_element (two_pixels !! ((0 * 2 + 1) * 3 + 1)))).
Proof.
  split; [lia|].
  apply (reshapeToCHW_cell two_pixels 1 2 1 0 1); lia.
Defined.

End TensorLayout.

(** ** Accessory detection *)

Section Accessories.
Import FaceMeshDetector.
Local Open Scope nat_scope.

Lemma present_length {A} (landmarks : list A) (l : list nat) :
  length (filter (fun i => is_Some (landmarks !! i)) l)
  = length (filter (fun i => i < length landmarks) l).
Proof.
  induction l as [|i l IH]; [done|].
  rewrite !filter_cons.
  destruct (decide (is_Some (landmarks !! i))) as [H|H];
    destruct (decide (i < length landmarks)) as [H'|H']; cbn [length];
    rewrite ?IH; try done.
  - apply lookup_lt_is_Some in H. lia.
  - apply lookup_lt_is_Some in H'. done.
Qed.

Lemma below_count_mono (l : list nat) (n m : nat) :
  n <= m ->
  length (filter (fun i => i < n) l) <= length (filter (fun i => i < m) l).
Proof.
  intros Hnm. induction l as [|i l IH]; [done|].
  rewrite !filter_cons.
  destruct (decide (i < n)); destruct (decide (i < m)); cbn [length]; lia.
Qed.

(** X17: glasses are reported exactly when the landmark array has at
    least 375 entries, whatever the coordinates of the landmarks are; the
    other three accessories are never reported. *)
Theorem detectAccessories_by_length {A} (landmarks : list A) :
  (glasses (detectAccessories landmarks) = true <-> 375 <= length landmarks) /\
  earrings (detectAccessories landmarks) = false /\
  hat (detectAccessories landmarks) = false /\
  mask (detectAccessories landmarks) = false.
Proof.
  split; [|done].
  unfold detectAccessories. cbv zeta. cbn [glasses].
  rewrite bool_decide_eq_true, present_length.
  split.
  - intros H. destruct (decide (375 <= length landmarks)) as [|Hn]; [done|].
    pose proof (below_count_mono (leftEye ++ rightEye) (length landmarks) 374
                  ltac:(lia)) as Hm.
    assert (E : length (filter (fun i => i < 374) (leftEye ++ rightEye)) = 20)
      by (vm_compute; reflexivity).
    lia.
  - intros H.
    pose proof (below_count_mono (leftEye ++ rightEye) 375 (length landmarks) H)
      as Hm.
    assert (E : length (filter (fun i => i < 375) (leftEye ++ rightEye)) = 21)
      by (vm_compute; reflexivity).
    lia.
Qed.

End Accessories.
